(** * Relocate-app: transit reachability, adjacency building and disk grouping

    A shallow embedding of the transit core of the repository:
    - [Builder]  : [scripts/build_adjacency_by_route.py] (majority vote,
                   median travel time and distance, fallback speed);
    - [BusAreas] : [scripts/compute_bus_areas.py] (time-bounded traversal
                   of the successor chain with a cycle guard);
    - [App]      : the transit isochrone of [app.py] (origin circle, nearest
                   stop, ride along a line, disk grouping by union-find).

    Numbers.  Python [int] is [Z].  Python [float] is idealised: the two
    scripts only add, subtract, divide and compare, so their floats are
    exact rationals [Q]; the web application also needs [sqrt], [cos], [sin]
    and [atan2], so its floats are the real numbers [R].  Rounding error of
    binary64 arithmetic is therefore outside this development. *)

From Stdlib Require Import Ascii ZArith QArith Qround Reals Psatz.
From stdpp Require Import gmap strings list relations sorting.

Close Scope R_scope.
Close Scope Q_scope.

(** ** Python helpers shared by the two scripts *)

Module Py.

(** [round(x)] on a float: the nearest integer, a tie going to the even
    neighbour. *)
Definition round (x : Q) : Z :=
  let f := Qfloor x in
  match Qcompare (x - inject_Z f) (1 # 2) with
  | Lt => f
  | Gt => (f + 1)%Z
  | Eq => if Z.even f then f else (f + 1)%Z
  end.

(** [a or b] on optional integers: [None] and [0] are falsy. *)
Definition or_else (a b : option Z) : option Z :=
  match a with
  | Some z => if (z =? 0)%Z then b else a
  | None => b
  end.

(** [sorted(lst)] on numbers: a stable insertion sort ([x] comes from
    before [l] in the input, so it stays in front of its equals). *)
Fixpoint insert_sorted (x : Q) (l : list Q) : list Q :=
  match l with
  | [] => [x]
  | y :: l' => if Qle_bool x y then x :: l else y :: insert_sorted x l'
  end.

Fixpoint sorted (l : list Q) : list Q :=
  match l with
  | [] => []
  | x :: l' => insert_sorted x (sorted l')
  end.

Definition digit_of (a : ascii) : option Z :=
  let n := nat_of_ascii a in
  if (48 <=? n)%nat && (n <=? 57)%nat then Some (Z.of_nat (n - 48)) else None.

(** The digits of a numeral; a single underscore may separate two digits.
    [after_digit] tells whether the previous character was a digit. *)
Fixpoint digits_value (acc : Z) (after_digit : bool) (s : string) : option Z :=
  match s with
  | EmptyString => if after_digit then Some acc else None
  | String a s' =>
      match digit_of a with
      | Some d => digits_value (10 * acc + d)%Z true s'
      | None =>
          if Ascii.eqb a "_"%char && after_digit then digits_value acc false s'
          else None
      end
  end.

Definition is_space (a : ascii) : bool :=
  let n := nat_of_ascii a in
  (n =? 32)%nat || ((9 <=? n)%nat && (n <=? 13)%nat).

Fixpoint lstrip (s : list ascii) : list ascii :=
  match s with
  | a :: s' => if is_space a then lstrip s' else s
  | [] => []
  end.

(** [s.strip()] for ASCII white space. *)
Definition strip (s : string) : string :=
  String.string_of_list_ascii
    (rev (lstrip (rev (lstrip (String.list_ascii_of_string s))))).

(** [int(s)] on a string: white space around, an optional sign, decimal
    digits; [None] stands for the [ValueError].  (Digits and blanks outside
    ASCII, which [int] also reads, are taken as a failure.) *)
Definition int (s : string) : option Z :=
  match strip s with
  | String "-"%char s' => Z.opp <$> digits_value 0 false s'
  | String "+"%char s' => digits_value 0 false s'
  | s' => digits_value 0 false s'
  end.

(** [s.split(sep)] for a one-character separator. *)
Fixpoint split (sep : ascii) (s : string) : list string :=
  match s with
  | EmptyString => [EmptyString]
  | String a s' =>
      if Ascii.eqb a sep then EmptyString :: split sep s'
      else match split sep s' with
           | [] => [String a EmptyString]
           | p :: ps => String a p :: ps
           end
  end.

End Py.

(** ** scripts/build_adjacency_by_route.py *)

Module Builder.

(** A key of the adjacency table: (route_id, shape_id, stop_id). *)
Definition Key : Type := string * string * string.

(** One row of the [st] table, as the per-trip query returns it:
    (stop_id, arrival_time, departure_time, shape_dist).  A missing time
    ([None]) is the empty string, both being falsy. *)
Record StopTime := mkStopTime {
  st_stop_id : string;
  st_arrival : string;
  st_departure : string;
  st_shape_dist : option Q
}.

(** A [Counter]: keys in insertion order with their counts. *)
Definition Counter : Type := list (string * nat).

(** [counter[k] += 1] *)
Fixpoint counter_incr (c : Counter) (k : string) : Counter :=
  match c with
  | [] => [(k, 1%nat)]
  | (k', v) :: c' =>
      if decide (k' = k) then (k', S v) :: c' else (k', v) :: counter_incr c' k
  end.

(** [counter.most_common(1)[0]]: [max] keeps the first maximal item. *)
Definition most_common1 (first : string * nat) (rest : Counter) : string * nat :=
  fold_left (fun best kv => if (best.2 <? kv.2)%nat then kv else best) rest first.

Definition choose_most_common (counter : Counter) : string :=
  match counter with
  | [] => EmptyString
  | kv :: rest => (most_common1 kv rest).1
  end.

Definition parse_time_to_seconds (t : string) : option Z :=
  if decide (t = EmptyString) then None
  else match Py.split ":"%char t with
       | [h; m; s] =>
           match Py.int h, Py.int m, Py.int s with
           | Some h, Some m, Some s => Some (h * 3600 + m * 60 + s)%Z
           | _, _, _ => None
           end
       | _ => None
       end.

Definition median (lst : list Q) : option Q :=
  match lst with
  | [] => None
  | _ =>
      let s := Py.sorted lst in
      let n := length s in
      let mid := (n / 2)%nat in
      if (n mod 2 =? 1)%nat then Some (nth mid s 0%Q)
      else Some ((nth (mid - 1) s 0 + nth mid s 0) / 2)%Q
  end.

(** The travel time of one consecutive pair of rows (lines 130-136). *)
Definition pair_dt (cur nxt : StopTime) : option Z :=
  let dep_sec := Py.or_else (parse_time_to_seconds (st_departure cur))
                            (parse_time_to_seconds (st_arrival cur)) in
  let arr_sec := Py.or_else (parse_time_to_seconds (st_arrival nxt))
                            (parse_time_to_seconds (st_departure nxt)) in
  match dep_sec, arr_sec with
  | Some d, Some a =>
      let dt := (a - d)%Z in
      Some (if (dt <? 0)%Z then (dt + 24 * 3600)%Z else dt)
  | _, _ => None
  end.

(** The distance of one consecutive pair of rows (lines 138-145). *)
Definition pair_dist (cur nxt : StopTime) : option Q :=
  match st_shape_dist cur, st_shape_dist nxt with
  | Some a, Some b =>
      let dist := (b - a)%Q in
      if Qle_bool 0 dist then Some dist else None
  | _, _ => None
  end.

(** The three dictionaries filled by the scan. *)
Record Scan := mkScan {
  next_counts : list (Key * Counter);
  travel_times : gmap (Key * string) (list Z);
  travel_dists : gmap (Key * string) (list Q)
}.

Definition empty_scan : Scan := mkScan [] ∅ ∅.

(** [next_counts[key][next_stop_id] += 1] on a [defaultdict(Counter)]. *)
Fixpoint bump (d : list (Key * Counter)) (key : Key) (nxt : string)
  : list (Key * Counter) :=
  match d with
  | [] => [(key, counter_incr [] nxt)]
  | (k, c) :: d' =>
      if decide (k = key) then (k, counter_incr c nxt) :: d'
      else (k, c) :: bump d' key nxt
  end.

(** [d[k].append(x)] on a [defaultdict(list)]. *)
Definition push {A} (d : gmap (Key * string) (list A)) (k : Key * string) (x : A)
  : gmap (Key * string) (list A) :=
  <[k := default [] (d !! k) ++ [x]]> d.

(** One observed transition: key, successor, time and distance samples. *)
Definition Obs : Type := Key * string * option Z * option Q.

Definition record (s : Scan) (o : Obs) : Scan :=
  let '(key, nxt, dt, dist) := o in
  mkScan (bump (next_counts s) key nxt)
         (match dt with
          | Some t => push (travel_times s) (key, nxt) t
          | None => travel_times s
          end)
         (match dist with
          | Some d => push (travel_dists s) (key, nxt) d
          | None => travel_dists s
          end).

Definition observe (route_id shape_id : string) (cur nxt : StopTime) : Obs :=
  ((route_id, shape_id, st_stop_id cur), st_stop_id nxt,
   pair_dt cur nxt, pair_dist cur nxt).

(** The loop over [range(len(rows))]: row [i] with row [i+1]. *)
Fixpoint scan_rows (route_id shape_id : string) (rows : list StopTime) (s : Scan)
  : Scan :=
  match rows with
  | cur :: ((nxt :: _) as rest) =>
      scan_rows route_id shape_id rest (record s (observe route_id shape_id cur nxt))
  | _ => s
  end.

(** The loop over trips; [trips] lists each trip id of the table with its
    rows in [stop_sequence] order. *)
Definition scan_trips (trips_map : gmap string (string * string))
    (trips : list (string * list StopTime)) : Scan :=
  fold_left (fun s '(tid, rows) =>
               let '(route_id, shape_id) := default (EmptyString, EmptyString) (trips_map !! tid) in
               scan_rows route_id shape_id rows s)
            trips empty_scan.

(** A row of the adjacency table. *)
Definition Edge : Type := string * option Z * option Q.

Definition resolve (fallback_speed : Q) (s : Scan) (key : Key) (counter : Counter)
  : Edge :=
  let most_next := choose_most_common counter in
  let tlist := default [] (travel_times s !! (key, most_next)) in
  let dlist := default [] (travel_dists s !! (key, most_next)) in
  let travel_time := median (inject_Z <$> tlist) in
  let travel_dist := median dlist in
  let travel_time :=
    match travel_time, travel_dist with
    | None, Some d =>
        if Qeq_bool fallback_speed 0 then None else Some (d / fallback_speed)%Q
    | _, _ => travel_time
    end in
  (most_next, Py.round <$> travel_time, travel_dist).

Definition build_adjacency (trips_map : gmap string (string * string))
    (trips : list (string * list StopTime)) (fallback_speed : Q)
  : list (Key * Edge) :=
  let s := scan_trips trips_map trips in
  (fun '(key, counter) => (key, resolve fallback_speed s key counter))
    <$> next_counts s.

(** The default of the [fallback_speed] argument. *)
Definition default_fallback_speed : Q := 4.

(** *** The observations behind a table, for stating what it records *)

(** The consecutive pairs of rows of one trip. *)
Fixpoint row_pairs (rows : list StopTime) : list (StopTime * StopTime) :=
  match rows with
  | cur :: ((nxt :: _) as rest) => (cur, nxt) :: row_pairs rest
  | _ => []
  end.

(** All transitions of the feed, in the order the scan meets them. *)
Definition observations (trips_map : gmap string (string * string))
    (trips : list (string * list StopTime)) : list Obs :=
  concat ((fun trip : string * list StopTime =>
             let '(route_id, shape_id) :=
               default (EmptyString, EmptyString) (trips_map !! trip.1) in
             (fun p : StopTime * StopTime => observe route_id shape_id p.1 p.2)
               <$> row_pairs trip.2)
          <$> trips).

(** The successors observed for [key], one per occurrence. *)
Definition successors (key : Key) (os : list Obs) : list string :=
  omap (fun o : Obs => if decide (o.1.1.1 = key) then Some o.1.1.2 else None) os.

(** The travel times observed from [key] to [nxt]. *)
Definition time_samples (key : Key) (nxt : string) (os : list Obs) : list Z :=
  omap (fun o : Obs =>
          if decide (o.1.1.1 = key /\ o.1.1.2 = nxt) then o.1.2 else None) os.

(** The distances observed from [key] to [nxt]. *)
Definition dist_samples (key : Key) (nxt : string) (os : list Obs) : list Q :=
  omap (fun o : Obs =>
          if decide (o.1.1.1 = key /\ o.1.1.2 = nxt) then o.2 else None) os.

Definition occurrences (s : string) (l : list string) : nat :=
  length (filter (eq s) l).

(** [s] is the most frequent element of [l], and no element that occurs
    as often is met before it. *)
Definition first_most_common (l : list string) (s : string) : Prop :=
  (forall x, occurrences x l <= occurrences s l)
  /\ exists pre post, l = pre ++ s :: post /\ (s ∉ pre)
       /\ forall x, x ∈ pre -> occurrences x l < occurrences s l.

(** The counter reached after counting the elements of [l] in turn. *)
Definition tally (l : list string) : Counter := fold_left counter_incr l [].

(** [d.get(key)] on the dictionary of counters. *)
Fixpoint entry_of (key : Key) (d : list (Key * Counter)) : option Counter :=
  match d with
  | [] => None
  | (k, c) :: d' => if decide (k = key) then Some c else entry_of key d'
  end.

(** The state of the scan after the observations [os]. *)
Definition scanned (os : list Obs) : Scan := fold_left record os empty_scan.

(** The travel time recorded for samples [times], given the recorded
    distance: the rounded median, or the rounded estimate from the distance
    when there is no time sample. *)
Definition recorded_time (fallback_speed : Q) (times : list Z) (td : option Q)
  : option Z :=
  Py.round <$>
    match median (inject_Z <$> times), td with
    | None, Some d =>
        if Qeq_bool fallback_speed 0 then None else Some (d / fallback_speed)%Q
    | m, _ => m
    end.

(** The counter lists the distinct elements in the order of their first
    occurrence, each with its number of occurrences. *)
Record tally_inv (l : list string) (c : Counter) : Prop := {
  tally_nodup : NoDup c.*1;
  tally_keys : forall k, k ∈ c.*1 <-> k ∈ l;
  tally_count : forall k v, (k, v) ∈ c -> v = occurrences k l;
  tally_order : forall pre k post, c.*1 = pre ++ k :: post ->
      exists lp lq, l = lp ++ k :: lq /\ (k ∉ lp) /\ forall x, x ∈ lp -> x ∈ pre
}.

(** Each key met so far has one counter, the tally of its successors. *)
Record counts_inv (os : list Obs) (d : list (Key * Counter)) : Prop := {
  counts_nodup : NoDup d.*1;
  counts_keys : forall k, k ∈ d.*1 <-> successors k os <> [];
  counts_tally : forall k c, (k, c) ∈ d -> c = tally (successors k os)
}.

(** Two trips on the same route and shape: A to B in 1 s and in 2 s. *)
Definition two_trip_map : gmap string (string * string) :=
  {[ "t1" := ("R", "S"); "t2" := ("R", "S") ]}.

Definition two_trips : list (string * list StopTime) :=
  [ ("t1", [ mkStopTime "A" "08:00:00" "08:00:00" None;
             mkStopTime "B" "08:00:01" "08:00:01" None ]);
    ("t2", [ mkStopTime "A" "09:00:00" "09:00:00" None;
             mkStopTime "B" "09:00:02" "09:00:02" None ]) ].

(** One trip without times: B lies 10 m after A along the shape. *)
Definition untimed_trip : list (string * list StopTime) :=
  [ ("t1", [ mkStopTime "A" EmptyString EmptyString (Some 0%Q);
             mkStopTime "B" EmptyString EmptyString (Some 10%Q) ]) ].

End Builder.

(** ** scripts/compute_bus_areas.py *)

Module BusAreas.

Definition WALK_SPEED : Q := 1.4.
Definition BOARD_TIME : Z := 20.
Definition BUS_SPEED_FALLBACK : Q := 8.

(** [a < b] and [a > b] on floats. *)
Definition ltb (a b : Q) : bool := negb (Qle_bool b a).

(** [min(a, b)]: the first argument unless the second is smaller. *)
Definition py_min (a b : Q) : Q := if ltb b a then b else a.

(** An adjacency entry as [load_adjacency] stores it:
    (next_stop, travel_time_s, travel_dist_m).  A missing [next_stop_id]
    ([None]) is the empty string: both are falsy for [while cur] and both
    are written as [''] by [main]. *)
Definition Entry : Type := string * option Z * option Q.

(** One tuple of [results]: (cur, next_stop, time_left_at_stop). *)
Definition Result : Type := string * string * Q.

(** The time to the next stop (lines 116-123); [None] is the [break]. *)
Definition edge_dt (tt_s : option Z) (td : option Q) : option Q :=
  match tt_s with
  | None =>
      match td with
      | Some d => Some (d / BUS_SPEED_FALLBACK)%Q
      | None => None
      end
  | Some t => Some (inject_Z t)
  end.

(** The [while] loop of [traverse_from_stop].  [fuel] bounds the number of
    iterations ([None]: fuel exhausted).  Besides [results] the loop logs,
    at each execution of [visited.add(cur)], the stop and the elapsed time
    [acc] at that moment; the log is not part of the Python result. *)
Fixpoint traverse_loop (fuel : nat) (stops_map : gmap string Entry)
    (total_seconds : Q) (cur : string) (acc : Q) (visited : gset string)
    (results : list Result) (log : list (string * Q))
  : option (list Result * list (string * Q)) :=
  match fuel with
  | O => None
  | S fuel' =>
      if bool_decide (cur ≠ EmptyString ∧ cur ∉ visited) then
        let visited := {[cur]} ∪ visited in
        let log := log ++ [(cur, acc)] in
        match stops_map !! cur with
        | None => Some (results, log)
        | Some (next_stop, tt_s, td) =>
            let time_left_at_stop := (total_seconds - acc)%Q in
            let results :=
              if ltb 0 time_left_at_stop
              then results ++ [(cur, next_stop, time_left_at_stop)]
              else results in
            match edge_dt tt_s td with
            | None => Some (results, log)
            | Some dt =>
                let acc := (acc + dt)%Q in
                if ltb total_seconds acc then Some (results, log)
                else traverse_loop fuel' stops_map total_seconds next_stop acc
                       visited results log
            end
        end
      else Some (results, log)
  end.

(** [traverse_from_stop], with the visit log; the fuel is one more than the
    number of stops of the (route, shape) group.  (The Python function also
    takes the table [stops], which it does not use.) *)
Definition traverse_from_stop_log
    (shape_map : gmap (string * string) (gmap string Entry))
    (start_stop : string) (total_seconds : Q) (route_shape_key : string * string)
  : option (list Result * list (string * Q)) :=
  let stops_map := default ∅ (shape_map !! route_shape_key) in
  traverse_loop (S (size stops_map)) stops_map total_seconds start_stop 0 ∅ [] [].

Definition traverse_from_stop
    (shape_map : gmap (string * string) (gmap string Entry))
    (start_stop : string) (total_seconds : Q) (route_shape_key : string * string)
  : option (list Result) :=
  fst <$> traverse_from_stop_log shape_map start_stop total_seconds route_shape_key.

(** A row of the output file. *)
Record OutRow := mkOutRow {
  out_stop_id : string;
  out_route_id : string;
  out_shape_id : string;
  out_stop_lat : option Q;
  out_stop_lon : option Q;
  out_next_stop_id : string;
  out_travel_time_to_next : option Z;
  out_area_radius_m : Z
}.

(** Lines 159-169 of [main]: the rows of one (route, shape) group once the
    time [remaining] after walking and boarding is known. *)
Definition rows_from
    (shape_map : gmap (string * string) (gmap string Entry))
    (stops : gmap string (option Q * option Q))
    (route shape stop_id : string) (remaining : Q)
  : option (list OutRow) :=
  if Qle_bool remaining 0 then Some []
  else
    match traverse_from_stop shape_map stop_id remaining (route, shape) with
    | None => None
    | Some results =>
        Some (map (fun r : Result =>
                     let '(sid, next_sid, time_left) := r in
                     let radius := (time_left * WALK_SPEED)%Q in
                     let s := stops !! sid in
                     mkOutRow sid route shape
                       (match s with Some (lat, _) => lat | None => None end)
                       (match s with Some (_, lon) => lon | None => None end)
                       next_sid
                       (match default ∅ (shape_map !! (route, shape)) !! sid with
                        | Some (_, tt_s, _) => tt_s
                        | None => None
                        end)
                       (Py.round radius))
                  results)
    end.

(** The body of the loop of [main] over [nearest.items()] (lines 154-169):
    the rows one (route, shape) group contributes, given its nearest stop
    and the distance [dist_m] to it. *)
Definition group_rows
    (shape_map : gmap (string * string) (gmap string Entry))
    (stops : gmap string (option Q * option Q))
    (total_seconds : Z) (route shape stop_id : string) (dist_m : Q)
  : option (list OutRow) :=
  let max_walk := (inject_Z total_seconds * 0.7)%Q in
  let walk_time := py_min (dist_m / WALK_SPEED)%Q max_walk in
  let remaining := (inject_Z total_seconds - walk_time - inject_Z BOARD_TIME)%Q in
  rows_from shape_map stops route shape stop_id remaining.

(** The loop of [main] over the nearest stops of all groups. *)
Fixpoint main_rows
    (shape_map : gmap (string * string) (gmap string Entry))
    (stops : gmap string (option Q * option Q)) (total_seconds : Z)
    (nearest : list ((string * string) * (string * Q)))
  : option (list OutRow) :=
  match nearest with
  | [] => Some []
  | ((route, shape), (stop_id, dist_m)) :: rest =>
      match group_rows shape_map stops total_seconds route shape stop_id dist_m,
            main_rows shape_map stops total_seconds rest with
      | Some rows, Some more => Some (rows ++ more)
      | _, _ => None
      end
  end.

(** What is known of a run of the loop that starts in a state whose log
    lists stops already in [visited], without repetition. *)
Record loop_post (total_seconds : Q) (results0 : list Result)
    (log0 : list (string * Q)) (out : list Result * list (string * Q)) : Prop := {
  post_log_nodup : NoDup (out.2).*1;
  post_results :
    forall r, r ∈ out.1 ->
      r ∈ results0 \/
      exists acc, (r.1.1, acc) ∈ out.2 /\ (acc < total_seconds)%Q
                  /\ r.2 = (total_seconds - acc)%Q /\ (0 < r.2)%Q;
  post_log_extends : exists more, out.2 = log0 ++ more
}.

(** A fixture with an edge that has a distance and no travel time. *)
Definition untimed_stops_map : gmap string Entry :=
  {[ "X" := ("Y", None, Some 80%Q) ]}.

(** A fixture with a cycle: stop X leads to Y and Y back to X. *)
Definition cyclic_shape_map : gmap (string * string) (gmap string Entry) :=
  {[ ("R", "S") :=
       {[ "X" := ("Y", Some 60%Z, None);
          "Y" := ("X", Some 60%Z, None) ]} ]}.

(** The stops of that fixture: X lies about 10 km north of the work point
    (0, 0), Y a little farther. *)
Definition cyclic_stops : gmap string (option Q * option Q) :=
  {[ "X" := (Some 0.09%Q, Some 0%Q); "Y" := (Some 0.1%Q, Some 0%Q) ]}.

End BusAreas.

(** ** app.py: the transit isochrone and the grouping of disks *)

Module App.

#[global] Instance Rlt_decision (x y : R) : Decision (x < y)%R := Rlt_dec x y.
#[global] Instance Rle_decision (x y : R) : Decision (x <= y)%R := Rle_dec x y.
#[global] Instance Req_decision : EqDecision R := Req_dec_T.

Local Open Scope R_scope.

(** [math.radians] *)
Definition radians (x : R) : R := x * (PI / 180).

(** [math.atan2(y, x)] *)
Definition atan2 (y x : R) : R :=
  if decide (0 < x) then atan (y / x)
  else if decide (x < 0) then
    (if decide (0 <= y) then atan (y / x) + PI else atan (y / x) - PI)
  else if decide (0 < y) then PI / 2
  else if decide (y < 0) then - (PI / 2)
  else 0.

Definition round_half_even (x : R) : Z :=
  let f := Int_part x in
  if decide (x - IZR f < 1 / 2) then f
  else if decide (1 / 2 < x - IZR f) then (f + 1)%Z
  else if Z.even f then f else (f + 1)%Z.

(** [round(x, ndigits)] on a float. *)
Definition py_round (x : R) (ndigits : nat) : R :=
  IZR (round_half_even (x * 10 ^ ndigits)) / 10 ^ ndigits.

(** A point of a ring, [[lon, lat]]. *)
Definition Point : Type := R * R.

Record Stop := mkStop { stop_name : string; stop_lat : R; stop_lon : R }.

Record Route := mkRoute {
  route_name : string;
  route_color : string;
  route_stops : list Stop
}.

Definition WALK_SPEED : R := 80.
Definition SUBTE_SPEED : R := 500.

Definition MAX_WALK_TO_STATION (minutes : R) : R := minutes * 0.70.
Definition MAX_WALK_DISTANCE (minutes : R) : R :=
  MAX_WALK_TO_STATION minutes * WALK_SPEED.

(** The point at [angle] on the walking circle of [radius] metres around
    (c_lat, c_lon) (lines 490-492 and 581-583).  At a pole the real cosine
    vanishes and the quotient is Rocq's total division; binary64 gives a
    tiny non-zero cosine there. *)
Definition ring_point (c_lat c_lon radius angle : R) : Point :=
  (c_lon + (radius / (111000 * Rabs (cos (radians c_lat)))) * sin angle,
   c_lat + (radius / 111000) * cos angle).

(** The points for [angle_deg in range(0, 360, step)], [count] of them. *)
Definition degree_ring (c_lat c_lon radius : R) (step count : nat) : list Point :=
  map (fun k => ring_point c_lat c_lon radius (radians (INR (k * step))))
      (seq 0 count).

(** Equirectangular distance in metres, the longitude scaled by the cosine
    of [ref_lat] (lines 504-506 and 551-553). *)
Definition planar_distance (ref_lat from_lat from_lon to_lat to_lon : R) : R :=
  let lat_diff := (to_lat - from_lat) * 111000 in
  let lon_diff := (to_lon - from_lon) * 111000 * Rabs (cos (radians ref_lat)) in
  sqrt (lat_diff ^ 2 + lon_diff ^ 2).

(** The search of the closest stop (lines 499-511).  [None] is the initial
    state: no stop, distance [inf], index -1. *)
Definition closest_step (center_lat center_lon : R)
    (best : option (Stop * R * nat)) (item : nat * Stop) : option (Stop * R * nat) :=
  let '(i, stop) := item in
  let distance :=
    planar_distance center_lat center_lat center_lon (stop_lat stop) (stop_lon stop) in
  match best with
  | None => Some (stop, distance, i)
  | Some (_, min_walk_distance, _) =>
      if decide (distance < min_walk_distance) then Some (stop, distance, i) else best
  end.

Definition closest_stop (center_lat center_lon : R) (stops : list Stop)
  : option (Stop * R * nat) :=
  fold_left (closest_step center_lat center_lon) (zip (seq 0 (length stops)) stops) None.

(** A stop reached by riding, with the exact values of [total_time],
    [time_remaining] and [walk_radius] at its emission (lines 558-563). *)
Record Reached := mkReached {
  r_stop : Stop;
  r_total_time : R;
  r_time_remaining : R;
  r_walk_radius : R
}.

(** The [while 0 <= idx + direction < len(stops)] loop for one direction
    (lines 546-588).  [None]: the fuel ran out before the loop ended. *)
Fixpoint ride (fuel : nat) (stops : list Stop) (walk_time_to_closest minutes : R)
    (direction idx : Z) (prev_stop : Stop) (accumulated_distance : R)
  : option (list Reached) :=
  if bool_decide (0 ≤ idx + direction < Z.of_nat (length stops))%Z then
    match fuel with
    | O => None
    | S fuel' =>
        let idx := (idx + direction)%Z in
        match stops !! Z.to_nat idx with
        | None => None
        | Some current_stop =>
            let segment_distance :=
              planar_distance (stop_lat prev_stop)
                (stop_lat prev_stop) (stop_lon prev_stop)
                (stop_lat current_stop) (stop_lon current_stop) in
            let accumulated_distance := accumulated_distance + segment_distance in
            let transit_time := accumulated_distance / SUBTE_SPEED in
            let total_time := walk_time_to_closest + transit_time in
            if decide (total_time < minutes) then
              let time_remaining := minutes - total_time in
              let walk_radius := time_remaining * WALK_SPEED in
              cons (mkReached current_stop total_time time_remaining walk_radius)
                <$> ride fuel' stops walk_time_to_closest minutes direction idx
                      current_stop accumulated_distance
            else Some []
        end
    end
  else Some [].

(** What the emission of a reached stop guarantees (lines 561-563). *)
Definition emitted_ok (minutes : R) (r : Reached) : Prop :=
  r_total_time r < minutes
  /\ r_time_remaining r = minutes - r_total_time r
  /\ 0 < r_time_remaining r
  /\ r_walk_radius r = r_time_remaining r * WALK_SPEED.

(** The [stop_debug] entry of a reached stop (lines 568-575). *)
Record StopDebug := mkStopDebug {
  sd_name : string;
  sd_lat : R;
  sd_lon : R;
  sd_time_spent : R;
  sd_time_remaining : R;
  sd_walk_radius_meters : R
}.

Definition stop_debug (r : Reached) : StopDebug :=
  mkStopDebug (stop_name (r_stop r)) (stop_lat (r_stop r)) (stop_lon (r_stop r))
    (py_round (r_total_time r) 1) (py_round (r_time_remaining r) 1)
    (py_round (r_walk_radius r) 0).

(** The walking circle drawn around a reached stop (lines 579-583). *)
Definition stop_ring (r : Reached) : list Point :=
  degree_ring (stop_lat (r_stop r)) (stop_lon (r_stop r)) (r_walk_radius r) 20 18.

Record RouteDebug := mkRouteDebug {
  rd_name : string;
  rd_closest_stop : string;
  rd_walk_time_to_stop : R;
  rd_stops_reached : list StopDebug
}.

(** What one iteration of the loop over routes does: [Skipped] is either
    [continue]; [Used] carries the stops reached, backwards first. *)
Inductive RouteOutcome :=
  | Skipped
  | Used (closest : Stop) (walk_time_to_closest : R) (reached : list Reached).

Definition directions (closest_stop_index : nat) (stops : list Stop) : list Z :=
  (if decide (0 < Z.of_nat closest_stop_index)%Z then [(-1)%Z] else [])
  ++ (if decide (Z.of_nat closest_stop_index < Z.of_nat (length stops) - 1)%Z
      then [1%Z] else []).

Fixpoint ride_directions (dirs : list Z) (stops : list Stop)
    (walk_time_to_closest minutes : R) (closest_stop_index : nat) (closest : Stop)
  : option (list Reached) :=
  match dirs with
  | [] => Some []
  | direction :: dirs' =>
      match ride (length stops) stops walk_time_to_closest minutes direction
                 (Z.of_nat closest_stop_index) closest 0,
            ride_directions dirs' stops walk_time_to_closest minutes
                 closest_stop_index closest with
      | Some here, Some more => Some (here ++ more)
      | _, _ => None
      end
  end.

Definition process_route (center_lat center_lon minutes : R) (route : Route)
  : option RouteOutcome :=
  let stops := route_stops route in
  match closest_stop center_lat center_lon stops with
  | None => Some Skipped
  | Some (closest, min_walk_distance, closest_stop_index) =>
      let walk_time_to_closest := min_walk_distance / WALK_SPEED in
      if decide (MAX_WALK_TO_STATION minutes < walk_time_to_closest) then Some Skipped
      else
        let time_after_boarding := minutes - walk_time_to_closest in
        if decide (time_after_boarding <= 0) then Some Skipped
        else
          Used closest walk_time_to_closest
            <$> ride_directions (directions closest_stop_index stops) stops
                  walk_time_to_closest minutes closest_stop_index closest
  end.

Fixpoint process_routes (center_lat center_lon minutes : R)
    (routes : list (string * Route)) : option (list (Route * RouteOutcome)) :=
  match routes with
  | [] => Some []
  | (_, route) :: routes' =>
      match process_route center_lat center_lon minutes route,
            process_routes center_lat center_lon minutes routes' with
      | Some o, Some os => Some ((route, o) :: os)
      | _, _ => None
      end
  end.

(** The entry a route appends to [debug_info['routes_used']]. *)
Definition route_debug (ro : Route * RouteOutcome) : list RouteDebug :=
  match ro.2 with
  | Skipped => []
  | Used closest walk_time reached =>
      [mkRouteDebug (route_name ro.1) (stop_name closest) (py_round walk_time 1)
         (stop_debug <$> reached)]
  end.

(** The stops a route reaches, and the points it appends to
    [all_reachable_points]. *)
Definition route_reached (ro : Route * RouteOutcome) : list Reached :=
  match ro.2 with
  | Skipped => []
  | Used _ _ reached => reached
  end.

Definition route_points (ro : Route * RouteOutcome) : list Point :=
  concat (stop_ring <$> route_reached ro).

Record DebugInfo := mkDebugInfo {
  di_max_walk_time : R;
  di_max_walk_distance : R;
  di_total_time : R;
  di_walk_speed : R;
  di_subte_speed : R;
  di_routes_used : list RouteDebug
}.

(** [list.sort(key=...)]: stable insertion sort on the key. *)
Fixpoint insert_by (key : Point -> R) (p : Point) (l : list Point) : list Point :=
  match l with
  | [] => [p]
  | q :: l' => if decide (key p <= key q) then p :: l else q :: insert_by key p l'
  end.

Definition sort_by (key : Point -> R) (l : list Point) : list Point :=
  foldr (insert_by key) [] l.

(** Lines 600-607: sort by angle around the centre and close the ring. *)
Definition close_sorted (center_lat center_lon : R) (all_reachable_points : list Point)
  : list Point :=
  let angle_from_center (point : Point) :=
    atan2 (point.2 - center_lat) (point.1 - center_lon) in
  let sorted := sort_by angle_from_center all_reachable_points in
  match sorted, last sorted with
  | first :: _, Some final =>
      if decide (first <> final) then sorted ++ [first] else sorted
  | _, _ => sorted
  end.

(** [create_circle_geometry]; [None] is the [IndexError] of [points[0]]
    when [num_points] is 0. *)
Definition create_circle_geometry (center : Point) (radius_meters : R)
    (num_points : nat) : option (list Point) :=
  let points :=
    map (fun i =>
           let angle := (2 * PI * INR i) / INR num_points in
           let lat := center.2 + (radius_meters / 111000) * cos angle in
           let lon := center.1
                      + (radius_meters / (111000 * Rabs (cos (radians center.2))))
                        * sin angle in
           (lon, lat))
        (seq 0 num_points) in
  match points with
  | [] => None
  | first :: _ => Some (points ++ [first])
  end.

Definition ISOCHRONE_COLORS (minutes : R) : string :=
  if decide (minutes = 15) then "#22c55e"
  else if decide (minutes = 30) then "#eab308"
  else if decide (minutes = 45) then "#f97316"
  else if decide (minutes = 60) then "#ef4444"
  else "#3b82f6".

(** The GeoJSON feature of [create_geojson_feature]: the properties, and
    the single ring [f_coordinates] of the polygon. *)
Record Feature := mkFeature {
  f_mode : string;
  f_minutes : R;
  f_color : string;
  f_fill_color : string;
  f_fill_opacity : R;
  f_demo : bool;
  f_debug_info : option DebugInfo;
  f_coordinates : list Point
}.

Definition create_geojson_feature (points : list Point) (mode : string)
    (minutes : R) (debug_info : option DebugInfo) : Feature :=
  mkFeature mode minutes (ISOCHRONE_COLORS minutes) (ISOCHRONE_COLORS minutes)
    0.3 true debug_info points.

(** Everything [generate_transit_isochrone] computes: the merged, sorted
    and closed boundary points (a local that is not returned), and the
    feature that is returned. *)
Record TransitRun := mkTransitRun {
  run_all_reachable_points : list Point;
  run_feature : Feature
}.

Definition transit_run (routes : list (string * Route)) (lat lon minutes : R)
  : option TransitRun :=
  let center_lat := lat in
  let center_lon := lon in
  let initial := degree_ring center_lat center_lon (MAX_WALK_DISTANCE minutes) 15 24 in
  match process_routes center_lat center_lon minutes routes with
  | None => None
  | Some outcomes =>
      let all_reachable_points := initial ++ concat (route_points <$> outcomes) in
      let debug_info :=
        mkDebugInfo (MAX_WALK_TO_STATION minutes) (MAX_WALK_DISTANCE minutes) minutes
          WALK_SPEED SUBTE_SPEED (concat (route_debug <$> outcomes)) in
      let all_reachable_points := close_sorted center_lat center_lon all_reachable_points in
      match create_circle_geometry (center_lon, center_lat)
              (di_max_walk_distance debug_info) 32 with
      | None => None
      | Some simple_geometry =>
          Some (mkTransitRun all_reachable_points
                  (create_geojson_feature simple_geometry "public_transport" minutes
                     (Some debug_info)))
      end
  end.

(** [get_transport_routes]: the built-in lines with their ordered stops. *)
Definition get_transport_routes : list (string * Route) :=
  [
  ("subte_A", mkRoute "Subte Línea A" "#00a0e3"
     [
       mkStop "Plaza de Mayo" (-34.6088) (-58.3705);
       mkStop "Perú" (-34.6085) (-58.3747);
       mkStop "Piedras" (-34.6088) (-58.3791);
       mkStop "Lima" (-34.6092) (-58.3826);
       mkStop "Sáenz Peña" (-34.6094) (-58.3868);
       mkStop "Congreso" (-34.6095) (-58.3917);
       mkStop "Pasco" (-34.6096) (-58.3984);
       mkStop "Alberti" (-34.6097) (-58.4013);
       mkStop "Plaza Miserere" (-34.6098) (-58.4067);
       mkStop "Loria" (-34.6106) (-58.4150);
       mkStop "Castro Barros" (-34.6116) (-58.4216);
       mkStop "Río de Janeiro" (-34.6129) (-58.4295);
       mkStop "Acoyte" (-34.6182) (-58.4364);
       mkStop "Primera Junta" (-34.6242) (-58.4412);
       mkStop "Puán" (-34.6235) (-58.4488);
       mkStop "Carabobo" (-34.6265) (-58.4560);
       mkStop "San José de Flores" (-34.6281) (-58.4647);
       mkStop "San Pedrito" (-34.6295) (-58.4697)
     ]);
  ("subte_B", mkRoute "Subte Línea B" "#ee3d3d"
     [
       mkStop "Leandro N. Alem" (-34.6031) (-58.3701);
       mkStop "Florida" (-34.6033) (-58.3745);
       mkStop "Carlos Pellegrini" (-34.6037) (-58.3810);
       mkStop "Uruguay" (-34.6042) (-58.3868);
       mkStop "Callao" (-34.6045) (-58.3924);
       mkStop "Pasteur" (-34.6047) (-58.3993);
       mkStop "Pueyrredón" (-34.6046) (-58.4052);
       mkStop "Carlos Gardel" (-34.6042) (-58.4120);
       mkStop "Medrano" (-34.6032) (-58.4208);
       mkStop "Ángel Gallardo" (-34.6015) (-58.4306);
       mkStop "Malabia" (-34.5989) (-58.4383);
       mkStop "Dorrego" (-34.5912) (-58.4479);
       mkStop "Federico Lacroze" (-34.5870) (-58.4550);
       mkStop "Tronador" (-34.5841) (-58.4674);
       mkStop "De los Incas" (-34.5815) (-58.4738);
       mkStop "Echeverría" (-34.5786) (-58.4806);
       mkStop "Juan Manuel de Rosas" (-34.5746) (-58.4866)
     ]);
  ("subte_C", mkRoute "Subte Línea C" "#0071bc"
     [
       mkStop "Retiro" (-34.5921) (-58.3759);
       mkStop "General San Martín" (-34.5955) (-58.3775);
       mkStop "Lavalle" (-34.6017) (-58.3783);
       mkStop "Diagonal Norte" (-34.6048) (-58.3795);
       mkStop "Avenida de Mayo" (-34.6089) (-58.3806);
       mkStop "Moreno" (-34.6120) (-58.3814);
       mkStop "Independencia" (-34.6181) (-58.3819);
       mkStop "San Juan" (-34.6221) (-58.3828);
       mkStop "Constitución" (-34.6283) (-58.3836)
     ]);
  ("subte_D", mkRoute "Subte Línea D" "#008065"
     [
       mkStop "Catedral" (-34.6078) (-58.3739);
       mkStop "9 de Julio" (-34.6044) (-58.3805);
       mkStop "Tribunales" (-34.6018) (-58.3846);
       mkStop "Callao" (-34.5994) (-58.3930);
       mkStop "Facultad de Medicina" (-34.5997) (-58.3978);
       mkStop "Pueyrredón" (-34.5947) (-58.4050);
       mkStop "Agüero" (-34.5916) (-58.4124);
       mkStop "Bulnes" (-34.5885) (-58.4113);
       mkStop "Scalabrini Ortiz" (-34.5850) (-58.4160);
       mkStop "Plaza Italia" (-34.5813) (-58.4210);
       mkStop "Palermo" (-34.5784) (-58.4253);
       mkStop "Ministro Carranza" (-34.5752) (-58.4347);
       mkStop "Olleros" (-34.5698) (-58.4385);
       mkStop "José Hernández" (-34.5663) (-58.4497);
       mkStop "Juramento" (-34.5623) (-58.4567);
       mkStop "Congreso de Tucumán" (-34.5559) (-58.4643)
     ]);
  ("subte_E", mkRoute "Subte Línea E" "#6f2390"
     [
       mkStop "Bolívar" (-34.6134) (-58.3739);
       mkStop "Belgrano" (-34.6127) (-58.3779);
       mkStop "Independencia" (-34.6177) (-58.3818);
       mkStop "San José" (-34.6223) (-58.3845);
       mkStop "Entre Ríos" (-34.6267) (-58.3915);
       mkStop "Pichincha" (-34.6232) (-58.3980);
       mkStop "Jujuy" (-34.6237) (-58.4031);
       mkStop "General Urquiza" (-34.6228) (-58.4094);
       mkStop "Boedo" (-34.6260) (-58.4152);
       mkStop "Avenida La Plata" (-34.6275) (-58.4258);
       mkStop "José María Moreno" (-34.6284) (-58.4334);
       mkStop "Emilio Mitre" (-34.6295) (-58.4414);
       mkStop "Medalla Milagrosa" (-34.6314) (-58.4483);
       mkStop "Varela" (-34.6341) (-58.4578);
       mkStop "Plaza de los Virreyes" (-34.6426) (-58.4619)
     ]);
  ("subte_H", mkRoute "Subte Línea H" "#ffd600"
     [
       mkStop "Facultad de Derecho" (-34.5834) (-58.3920);
       mkStop "Las Heras" (-34.5875) (-58.3946);
       mkStop "Santa Fe" (-34.5945) (-58.4023);
       mkStop "Córdoba" (-34.5994) (-58.4039);
       mkStop "Corrientes" (-34.6043) (-58.4053);
       mkStop "Once" (-34.6089) (-58.4067);
       mkStop "Venezuela" (-34.6150) (-58.4045);
       mkStop "Humberto I" (-34.6230) (-58.4025);
       mkStop "Inclán" (-34.6292) (-58.4008);
       mkStop "Caseros" (-34.6357) (-58.3987);
       mkStop "Parque Patricios" (-34.6417) (-58.3965);
       mkStop "Hospitales" (-34.6458) (-58.3919)
     ]);
  ("tren_mitre", mkRoute "Tren Mitre" "#00a0e3"
     [
       mkStop "Retiro" (-34.5921) (-58.3759);
       mkStop "3 de Febrero" (-34.5806) (-58.3738)
     ]);
  ("tren_roca", mkRoute "Tren Roca" "#ee3d3d"
     [
       mkStop "Constitución" (-34.6283) (-58.3836)
     ]);
  ("tren_sarmiento", mkRoute "Tren Sarmiento" "#00a651"
     [
       mkStop "Once" (-34.6089) (-58.4067)
     ]);
  ("tren_san_martin", mkRoute "Tren San Martín" "#ee3d3d"
     [
       mkStop "Retiro" (-34.5921) (-58.3759)
     ])
  ].

(** A synthetic line of three stops on the meridian of the origin (0, 0),
    1110 m apart, the first at the origin. *)
Definition meridian_line : Route :=
  mkRoute "Meridian" "#000000"
    [ mkStop "M0" 0 0; mkStop "M1" 0.01 0; mkStop "M2" 0.02 0 ].

(** A line whose only stop lies one degree (111 km) north of the origin. *)
Definition remote_line : Route :=
  mkRoute "Remote" "#000000" [ mkStop "N" 1 0 ].

(** [generate_transit_isochrone] over a given route table. *)
Definition generate_transit_isochrone_on (routes : list (string * Route))
    (lat lon minutes : R) : option Feature :=
  run_feature <$> transit_run routes lat lon minutes.

(** The stops emitted as reachable, over all routes. *)
Definition reachable_stops (routes : list (string * Route)) (lat lon minutes : R)
  : option (list Reached) :=
  (fun outcomes => concat (route_reached <$> outcomes))
    <$> process_routes lat lon minutes routes.





(** *** group_connected_circles *)

(** A circle of [extract_stop_circles]; [c_center] is [[lon, lat]], and
    the circle of the origin (the initial one) names no route. *)
Record Circle := mkCircle {
  c_center : Point;
  c_radius : R;
  c_name : string;
  c_route : option string;
  c_is_initial : bool
}.

Definition CONNECTION_TOLERANCE : R := 200.

(** The distance between centres as the pair loop computes it (lines
    756-758): the longitudes are scaled by the cosine of the latitude of
    the first circle of the pair. *)
Definition center_distance (c1 c2 : Circle) : R :=
  let dx := ((c_center c1).1 - (c_center c2).1) * 111000
            * Rabs (cos (radians (c_center c1).2)) in
  let dy := ((c_center c1).2 - (c_center c2).2) * 111000 in
  sqrt (dx * dx + dy * dy).

(** The test of line 761. *)
Definition touching (c1 c2 : Circle) : bool :=
  bool_decide (center_distance c1 c2 < c_radius c1 + c_radius c2 + CONNECTION_TOLERANCE).

(** [find(x)] on the [parent] list, with path compression; the updated
    list is returned with the root.  [None]: an index out of range, or the
    recursion deeper than [fuel]. *)
Fixpoint find (fuel : nat) (parent : list nat) (x : nat) : option (list nat * nat) :=
  match fuel with
  | O => None
  | S fuel' =>
      match parent !! x with
      | None => None
      | Some px =>
          if decide (px <> x) then
            match find fuel' parent px with
            | None => None
            | Some (parent, r) => Some (<[x := r]> parent, r)
            end
          else Some (parent, px)
      end
  end.

(** The recursion depth granted to a call of [find]. *)
Definition find_fuel (parent : list nat) : nat := S (length parent).

(** [union(x, y)] *)
Definition union (parent : list nat) (x y : nat) : option (list nat) :=
  match find (find_fuel parent) parent x with
  | None => None
  | Some (parent, px) =>
      match find (find_fuel parent) parent y with
      | None => None
      | Some (parent, py) =>
          Some (if decide (px <> py) then <[px := py]> parent else parent)
      end
  end.

(** The body of the pair loop (lines 753-762). *)
Definition connect_pair (circles : list Circle) (i : nat)
    (parent : option (list nat)) (j : nat) : option (list nat) :=
  match parent, circles !! i, circles !! j with
  | Some parent, Some c1, Some c2 =>
      if touching c1 c2 then union parent i j else Some parent
  | _, _, _ => None
  end.

(** [for j in range(i + 1, n)] *)
Definition connect_row (circles : list Circle) (n : nat)
    (parent : option (list nat)) (i : nat) : option (list nat) :=
  fold_left (connect_pair circles i) (seq (S i) (n - S i)) parent.

(** [for i in range(n)], from [parent = list(range(n))]. *)
Definition connect_all (circles : list Circle) : option (list nat) :=
  let n := length circles in
  fold_left (connect_row circles n) (seq 0 n) (Some (seq 0 n)).

(** [groups_dict[root].append(c)], a new key going last. *)
Fixpoint groups_append (groups_dict : list (nat * list Circle)) (root : nat)
    (c : Circle) : list (nat * list Circle) :=
  match groups_dict with
  | [] => [(root, [c])]
  | (r, g) :: rest =>
      if decide (r = root) then (r, g ++ [c]) :: rest
      else (r, g) :: groups_append rest root c
  end.

(** The body of the loop of lines 766-770. *)
Definition collect_step (circles : list Circle)
    (state : option (list nat * list (nat * list Circle))) (i : nat)
  : option (list nat * list (nat * list Circle)) :=
  match state, circles !! i with
  | Some (parent, groups_dict), Some c =>
      match find (find_fuel parent) parent i with
      | Some (parent, root) => Some (parent, groups_append groups_dict root c)
      | None => None
      end
  | _, _ => None
  end.

Definition group_connected_circles (circles : list Circle)
  : option (list (list Circle)) :=
  match circles with
  | [] => Some []
  | _ =>
      let n := length circles in
      match connect_all circles with
      | None => None
      | Some parent =>
          match fold_left (collect_step circles) (seq 0 n) (Some (parent, [])) with
          | Some (_, groups_dict) => Some (groups_dict.*2)
          | None => None
          end
      end
  end.


(** *** The forest held in [parent], for stating what the grouping computes *)

Local Close Scope R_scope.

(** [parent[x]]; an index out of range stands for itself. *)
Definition par (parent : list nat) (x : nat) : nat := default x (parent !! x).

(** [k] steps up from [x]. *)
Definition walk (k : nat) (parent : list nat) (x : nat) : nat :=
  Nat.iter k (par parent) x.

Definition is_root (parent : list nat) (x : nat) : Prop := par parent x = x.

(** The number of entries that are not their own parent, counted from
    position [i]. *)
Fixpoint nonroots_from (i : nat) (parent : list nat) : nat :=
  match parent with
  | [] => 0
  | p :: rest => (if decide (p = i) then 0 else 1) + nonroots_from (S i) rest
  end.

Definition nonroots (parent : list nat) : nat := nonroots_from 0 parent.

(** The root above [x]. *)
Definition root_of (parent : list nat) (x : nat) : nat :=
  walk (length parent) parent x.

(** [parent] is a forest: entries stay in range and every element reaches a
    root within as many steps as there are non-root entries. *)
Record forest (parent : list nat) : Prop := {
  forest_closed : forall x, x < length parent -> par parent x < length parent;
  forest_depth : forall x, is_root parent (walk (nonroots parent) parent x)
}.

Definition same_root (parent : list nat) (a b : nat) : Prop :=
  root_of parent a = root_of parent b.

(** The pair loop running over an explicit list of pairs. *)
Definition connect_pairs (circles : list Circle) (pairs : list (nat * nat))
    (parent : option (list nat)) : option (list nat) :=
  fold_left (fun p (ij : nat * nat) => connect_pair circles ij.1 p ij.2) pairs parent.

(** The pairs (i, j), i < j < n, in the order of the two loops. *)
Definition all_pairs (n : nat) : list (nat * nat) :=
  i ← seq 0 n; pair i <$> seq (S i) (n - S i).

(** Positions [i < j] hold circles that pass the test of line 761. *)
Definition edge (circles : list Circle) (i j : nat) : Prop :=
  i < j /\ exists c1 c2, circles !! i = Some c1 /\ circles !! j = Some c2
                         /\ touching c1 c2 = true.

(** The edges among the pairs of [done_]. *)
Definition edge_in (circles : list Circle) (done_ : list (nat * nat)) (i j : nat)
  : Prop :=
  edge circles i j /\ (i, j) ∈ done_.

(** Positions joined by a chain of edges, in either direction. *)
Definition linked (circles : list Circle) : relation nat := rtsc (edge circles).

(** The circles [a] and [b] come out in one group. *)
Definition same_group (circles : list Circle) (a b : Circle) : Prop :=
  exists groups g, group_connected_circles circles = Some groups
                   /\ g ∈ groups /\ a ∈ g /\ b ∈ g.

(** The circles at the positions of [is_] whose root is [r], in order. *)
Definition members (circles : list Circle) (parent : list nat) (is_ : list nat)
    (r : nat) : list Circle :=
  omap (fun i => if decide (root_of parent i = r) then circles !! i else None) is_.

(** After the pairs [done_], two positions have the same root exactly when
    a chain of edges among those pairs joins them. *)
Record linked_inv (circles : list Circle) (done_ : list (nat * nat))
    (p : list nat) : Prop := {
  linked_forest : forest p;
  linked_length : length p = length circles;
  linked_roots : forall a b,
      same_root p a b <-> rtsc (edge_in circles done_) a b
}.

(** The state of the last loop after the positions [is_]: the forest
    still has the roots of [p0], and each root met so far keys the
    circles below it, in order. *)
Record collect_inv (circles : list Circle) (p0 : list nat) (is_ : list nat)
    (st : list nat * list (nat * list Circle)) : Prop := {
  collect_forest : forest st.1;
  collect_length : length st.1 = length circles;
  collect_roots : forall y, root_of st.1 y = root_of p0 y;
  collect_nodup : NoDup st.2.*1;
  collect_keys : forall r, r ∈ st.2.*1 <-> exists i, i ∈ is_ /\ root_of p0 i = r;
  collect_groups : forall r g, (r, g) ∈ st.2 -> g = members circles p0 is_ r
}.

(** Two disks on different latitudes: A on the equator, B at 60 degrees
    north and one degree east, with a radius of about 6660 km. *)
Definition disk_A : Circle := mkCircle (0, 0)%R 0%R "A" None true.
Definition disk_B : Circle := mkCircle (1, 60)%R 6660355%R "B" (Some "L") false.

(** Two disks on the equator whose centres are 111 m apart, as far as the
    sum of their radii. *)
Definition disk_C : Circle := mkCircle (0, 0)%R 111%R "C" None true.
Definition disk_D : Circle := mkCircle (0.001, 0)%R 0%R "D" (Some "L") false.

(** Settles the comparisons met when a run is unfolded on concrete data. *)
Ltac settle :=
  repeat first
    [ rewrite bool_decide_eq_true_2 by (cbn; lia)
    | rewrite bool_decide_eq_false_2 by (cbn; lia)
    | rewrite decide_True by (cbn; lia)
    | rewrite decide_False by (cbn; lia)
    | rewrite decide_True by (cbn; lra)
    | rewrite decide_False by (cbn; lra) ].

End App.

(** ** scripts/build_adjacency_by_route.py: reading the two input files *)

Module BuilderInput.

(** A row of [trips.txt] as [csv.DictReader] yields it; a column or a cell
    that is missing ([None]) is the empty string, both being falsy for
    [if not trip_id] and both being written as [''] in the output. *)
Record TripRow := mkTripRow {
  tr_trip_id : string;
  tr_route_id : string;
  tr_shape_id : string
}.

(** [read_trips], from the rows of the file on. *)
Definition read_trips (rows : list TripRow) : gmap string (string * string) :=
  fold_left (fun trips r =>
               if decide (tr_trip_id r = EmptyString) then trips
               else <[tr_trip_id r := (tr_route_id r, tr_shape_id r)]> trips)
            rows ∅.

(** A row of [stop_times.txt], with the same reading of missing cells. *)
Record RawStopTime := mkRawStopTime {
  raw_trip_id : string;
  raw_stop_id : string;
  raw_stop_sequence : string;
  raw_arrival_time : string;
  raw_departure_time : string;
  raw_shape_dist_traveled : string
}.

(** A row of the table [st]. *)
Record StRow := mkStRow {
  sr_trip_id : string;
  sr_stop_sequence : Z;
  sr_stop_id : string;
  sr_arrival_time : string;
  sr_departure_time : string;
  sr_shape_dist : option Q
}.

Section staging.
(** [int(s)] and [float(s)] on a string; [None] stands for the
    [ValueError] (for [int] also the [TypeError] on a missing cell).  Both
    are parameters: nothing below depends on which strings they read. *)
Variable py_int : string -> option Z.
Variable py_float : string -> option Q.

(** Lines 43-59: the tuple a row of the file is turned into, [None] for a
    row that is skipped. *)
Definition stage (r : RawStopTime) : option StRow :=
  if decide (raw_trip_id r = EmptyString \/ raw_stop_id r = EmptyString) then None
  else
    let seq_i := default 0%Z (py_int (raw_stop_sequence r)) in
    let sd := if decide (raw_shape_dist_traveled r = EmptyString) then None
              else py_float (raw_shape_dist_traveled r) in
    Some (mkStRow (raw_trip_id r) seq_i (raw_stop_id r)
            (raw_arrival_time r) (raw_departure_time r) sd).

(** An integer that SQLite stores: 64 bits, signed. *)
Definition fits_int64 (z : Z) : Prop := (- 2 ^ 63 <= z < 2 ^ 63)%Z.

Definition storable (row : StRow) : Prop := fits_int64 (sr_stop_sequence row).

(** [cur.executemany('INSERT ...', to_insert)] followed by the commit;
    [None] is the [OverflowError] raised for a Python [int] outside 64
    bits, which leaves [build_sqlite] without a result. *)
Definition executemany (table to_insert : list StRow) : option (list StRow) :=
  if decide (Forall storable to_insert) then Some (table ++ to_insert) else None.

(** One iteration of the loop over the file (lines 42-63): the state is
    the table, in the order of insertion, and the pending batch. *)
Definition insert_step (state : option (list StRow * list StRow)) (r : RawStopTime)
  : option (list StRow * list StRow) :=
  match state with
  | None => None
  | Some (table, to_insert) =>
      match stage r with
      | None => Some (table, to_insert)
      | Some row =>
          let to_insert := to_insert ++ [row] in
          if (10000 <=? Z.of_nat (length to_insert))%Z
          then (fun table => (table, [])) <$> executemany table to_insert
          else Some (table, to_insert)
      end
  end.

(** [build_sqlite]: the rows of the table [st] when it returns. *)
Definition build_sqlite (rows : list RawStopTime) : option (list StRow) :=
  match fold_left insert_step rows (Some ([], [])) with
  | None => None
  | Some (table, to_insert) =>
      match to_insert with
      | [] => Some table
      | _ => executemany table to_insert
      end
  end.

End staging.

End BuilderInput.

(** ** scripts/compute_bus_areas.py: the nearest stop of each group

    The great-circle distance needs [sin], [cos], [sqrt] and [atan2], so
    this part of the script is modelled over the reals, like [App]. *)

Module BusNearest.
Import App.

Local Open Scope R_scope.

(** The term [a] of line 34. *)
Definition haversine_term (lat1 lon1 lat2 lon2 : R) : R :=
  let phi1 := radians lat1 in
  let phi2 := radians lat2 in
  let dphi := radians (lat2 - lat1) in
  let dlambda := radians (lon2 - lon1) in
  sin (dphi / 2) ^ 2 + cos phi1 * cos phi2 * sin (dlambda / 2) ^ 2.

(** Line 35 on a term [a]; [None] is the [ValueError] of [math.sqrt] on a
    negative number.  Over the reals the term of two points with latitudes
    within 90 degrees lies between 0 and 1; binary64 can round it just
    above 1 for nearly antipodal points, and then the Python raises. *)
Definition haversine_of_term (a : R) : option R :=
  let R_ := 6371000 in
  if decide (a < 0 \/ 1 - a < 0) then None
  else Some (R_ * 2 * atan2 (sqrt a) (sqrt (1 - a))).

(** [haversine_m] *)
Definition haversine_m (lat1 lon1 lat2 lon2 : R) : option R :=
  haversine_of_term (haversine_term lat1 lon1 lat2 lon2).

(** The table of [load_stops], reduced to what the search reads: the
    coordinates of a stop, [None] when they could not be parsed. *)
Definition StopTable : Type := gmap string (option (R * R)).

(** The body of the loop over the stops of a group (lines 82-92).  The
    state is [best]: [None] for [(None, inf)].  The outer [option] carries
    a failure of [haversine_m]. *)
Definition nearest_step (stops : StopTable) (work_lat work_lon : R)
    (best : option (option (string * R))) (stop_id : string)
  : option (option (string * R)) :=
  match best with
  | None => None
  | Some best =>
      match stops !! stop_id with
      | None | Some None => Some best
      | Some (Some (lat, lon)) =>
          match haversine_m work_lat work_lon lat lon with
          | None => None
          | Some d =>
              match best with
              | None => Some (Some (stop_id, d))
              | Some (_, best_d) =>
                  if decide (d < best_d) then Some (Some (stop_id, d)) else Some best
              end
          end
      end
  end.

(** The search within one group, over the keys of its [stops_map] in the
    order of the dictionary. *)
Definition nearest_in (stops : StopTable) (work_lat work_lon : R)
    (stop_ids : list string) : option (option (string * R)) :=
  fold_left (nearest_step stops work_lat work_lon) stop_ids (Some None).

(** [find_nearest_stop_for_shape]; [shape_map] lists the groups with the
    keys of their [stops_map]. *)
Fixpoint find_nearest_stop_for_shape (stops : StopTable)
    (shape_map : list ((string * string) * list string)) (work_lat work_lon : R)
  : option (list ((string * string) * (string * R))) :=
  match shape_map with
  | [] => Some []
  | (key, stop_ids) :: rest =>
      match nearest_in stops work_lat work_lon stop_ids,
            find_nearest_stop_for_shape stops rest work_lat work_lon with
      | Some (Some best), Some nearest => Some ((key, best) :: nearest)
      | Some None, Some nearest => Some nearest
      | _, _ => None
      end
  end.

(** The coordinates of the stops of [stop_ids] that have some, in order. *)
Definition located (stops : StopTable) (stop_ids : list string)
  : list (string * (R * R)) :=
  omap (fun stop_id => match stops !! stop_id with
                       | Some (Some c) => Some (stop_id, c)
                       | _ => None
                       end) stop_ids.

(** Two stops on the equator: X at the work point (0, 0), Y a quarter of
    the way round the globe. *)
Definition quarter_stops : StopTable :=
  {[ "X" := Some (0, 0); "Y" := Some (0, 90) ]}.

Local Close Scope R_scope.

End BusNearest.

(** ** scripts/compute_bus_areas.py: the shape of a traversal *)

Module BusPath.
Import BusAreas.

(** The results follow the successor links from stop [s] on. *)
Fixpoint path_from (s : string) (results : list Result) : Prop :=
  match results with
  | [] => True
  | r :: rest => r.1.1 = s /\ path_from r.1.2 rest
  end.

(** No edge of the group takes a negative time. *)
Definition nonneg_edges (stops_map : gmap string Entry) : Prop :=
  forall s next_stop tt_s td dt,
    stops_map !! s = Some (next_stop, tt_s, td) ->
    edge_dt tt_s td = Some dt -> (0 <= dt)%Q.

(** What a run of the loop adds to [results], whatever the edge times. *)
Record loop_adds (stops_map : gmap string Entry) (visited : gset string)
    (added : list Result) : Prop := {
  adds_nodup : NoDup added.*1.*1;
  adds_fresh : forall r, r ∈ added -> r.1.1 ∉ visited;
  adds_edges : forall r, r ∈ added ->
      exists tt_s td, stops_map !! r.1.1 = Some (r.1.2, tt_s, td);
  adds_positive : forall r, r ∈ added -> (0 < r.2)%Q
}.

(** What a run of the loop adds when no edge takes a negative time. *)
Record loop_chain (total_seconds : Q) (cur : string) (acc : Q)
    (added : list Result) : Prop := {
  chain_path : path_from cur added;
  chain_spent : (total_seconds <= acc)%Q -> added = [];
  chain_bound : forall r, r ∈ added -> (r.2 <= total_seconds - acc)%Q;
  chain_sorted : StronglySorted (fun a b : Result => (b.2 <= a.2)%Q) added
}.

(** Two groups that share the stop X: the loop line X -> Y -> X of
    (R, S), and the line X -> Z of (Q, T). *)
Definition two_group_shape_map : gmap (string * string) (gmap string Entry) :=
  {[ ("R", "S") :=
       {[ "X" := ("Y", Some 60%Z, None);
          "Y" := ("X", Some 60%Z, None) ]};
     ("Q", "T") :=
       {[ "X" := ("Z", Some 30%Z, None) ]} ]}.

End BusPath.

(** ** app.py: what a ride along a line reaches *)

Module RideSpec.
Import App.

Local Open Scope R_scope.





(** A line of two stops on the meridian of the origin (0, 0): the first
    at the origin, the second 4995 m to the north, 9.99 minutes away. *)
Definition late_line : Route :=
  mkRoute "Late" "#000000" [ mkStop "L0" 0 0; mkStop "L1" 0.045 0 ].

Local Close Scope R_scope.

End RideSpec.

(** ** app.py: the cache, the demo polygon and the merging of circles *)

Module AppGeometry.
Import App.

(** *** The cache of answers (lines 26-27 and 55-71)

    [datetime.now()] is the argument [now], in microseconds. *)
Section cache.
Context {Data : Type}.

(** An entry: the data and its timestamp. *)
Definition Cache : Type := gmap string (Data * Z).

(** [timedelta(hours=24)] *)
Definition CACHE_DURATION : Z := 24 * 3600 * 1000000.

(** [get_cached_isochrone]: the answer and the cache afterwards. *)
Definition get_cached_isochrone (now : Z) (isochrone_cache : Cache)
    (cache_key : string) : option Data * Cache :=
  match isochrone_cache !! cache_key with
  | Some (data, timestamp) =>
      if decide (now - timestamp < CACHE_DURATION)%Z then (Some data, isochrone_cache)
      else (None, delete cache_key isochrone_cache)
  | None => (None, isochrone_cache)
  end.

(** [cache_isochrone] *)
Definition cache_isochrone (now : Z) (isochrone_cache : Cache)
    (cache_key : string) (data : Data) : Cache :=
  <[cache_key := (data, now)]> isochrone_cache.

End cache.

Local Open Scope R_scope.

(** *** generate_mock_isochrone *)

(** [speeds.get(mode, 83)] *)
Definition mock_speed (mode : string) : R :=
  if decide (mode = "walking") then 83
  else if decide (mode = "bike") then 250
  else if decide (mode = "car") then 420
  else 83.

(** The body of the loop over [range(8)]. *)
Definition mock_point (lat lon : R) (mode : string) (radius : R) (i : nat) : Point :=
  let angle := (2 * PI * INR i) / 8 in
  let r :=
    if decide (mode = "car") then radius * (0.8 + 0.3 * Rabs (cos angle))
    else if decide (mode = "bike") then radius * (0.9 + 0.1 * Rabs (cos (angle * 2)))
    else radius in
  let point_lat := lat + (r / 111000) * cos angle in
  let point_lon := lon + (r / (111000 * Rabs (cos (radians lat)))) * sin angle in
  (point_lon, point_lat).

(** [generate_mock_isochrone]; [None] is the [IndexError] of [points[0]]. *)
Definition generate_mock_isochrone (lat lon : R) (mode : string) (minutes : R)
  : option Feature :=
  let speed := mock_speed mode in
  let radius := speed * minutes in
  let points := map (mock_point lat lon mode radius) (seq 0 8) in
  match points with
  | [] => None
  | first :: _ => Some (create_geojson_feature (points ++ [first]) mode minutes None)
  end.

(** *** extract_stop_circles *)

(** A float is falsy when it is zero. *)
Definition extract_stop_circles (debug_info : DebugInfo) (center_lat center_lon : R)
  : list Circle :=
  (if decide (di_max_walk_distance debug_info = 0) then []
   else [mkCircle (center_lon, center_lat) (di_max_walk_distance debug_info)
           "Zona inicial (trabajo)" None true])
  ++ (route ← di_routes_used debug_info;
      (fun stop : StopDebug =>
         mkCircle (sd_lon stop, sd_lat stop) (sd_walk_radius_meters stop)
           (sd_name stop) (Some (rd_name route)) false)
        <$> rd_stops_reached route).

(** *** create_all_circles_geometry *)

(** [sum(...)] of floats, from the integer 0. *)
Definition py_sum (l : list R) : R := fold_left Rplus l 0.

(** The body of the loop over the circles for one angle (lines 685-697);
    the state is [(max_distance, best_point)]. *)
Definition envelope_step (avg_lat avg_lon angle : R) (state : R * option Point)
    (circle : Circle) : R * option Point :=
  let '(max_distance, best_point) := state in
  let circle_lat := (c_center circle).2 + (c_radius circle / 111000) * cos angle in
  let circle_lon :=
    (c_center circle).1
    + (c_radius circle / (111000 * Rabs (cos (radians (c_center circle).2))))
      * sin angle in
  let dx := (circle_lon - avg_lon) * 111000 * Rabs (cos (radians avg_lat)) in
  let dy := (circle_lat - avg_lat) * 111000 in
  let distance := sqrt (dx * dx + dy * dy) in
  if decide (max_distance < distance) then (distance, Some (circle_lon, circle_lat))
  else (max_distance, best_point).

(** The point kept for the angle of index [i] (lines 678-700). *)
Definition envelope_point (circles : list Circle) (avg_lat avg_lon : R) (i : nat)
  : option Point :=
  let angle := (2 * PI * INR i) / INR 72 in
  (fold_left (envelope_step avg_lat avg_lon angle) circles (-1, None)).2.

(** The smoothing of lines 703-717; [None] is an index out of range. *)
Definition smooth_at (hull_points : list Point) (i : nat) : option Point :=
  let n := Z.of_nat (length hull_points) in
  let prev_idx := ((Z.of_nat i - 1) mod n)%Z in
  let next_idx := ((Z.of_nat i + 1) mod n)%Z in
  match hull_points !! Z.to_nat prev_idx, hull_points !! i,
        hull_points !! Z.to_nat next_idx with
  | Some p, Some c, Some q =>
      Some (p.1 * 0.4 + c.1 * 0.2 + q.1 * 0.4, p.2 * 0.4 + c.2 * 0.2 + q.2 * 0.4)
  | _, _, _ => None
  end.

Definition create_all_circles_geometry (circles : list Circle)
  : option (list Point) :=
  match circles with
  | [] => Some []
  | _ =>
      let avg_lon :=
        py_sum ((fun c => (c_center c).1) <$> circles) / INR (length circles) in
      let avg_lat :=
        py_sum ((fun c => (c_center c).2) <$> circles) / INR (length circles) in
      let hull_points := omap (envelope_point circles avg_lat avg_lon) (seq 0 72) in
      match mapM (smooth_at hull_points) (seq 0 (length hull_points)) with
      | None => None
      | Some smoothed =>
          match smoothed with
          | [] => Some smoothed
          | first :: _ => Some (smoothed ++ [first])
          end
      end
  end.

(** *** create_circle_points, create_group_hull, create_grouped_geometry *)

Definition create_circle_points (center : Point) (radius_meters : R)
    (num_points : nat) : list Point :=
  map (fun i =>
         let angle := (2 * PI * INR i) / INR num_points in
         let lat := center.2 + (radius_meters / 111000) * cos angle in
         let lon := center.1
                    + (radius_meters / (111000 * Rabs (cos (radians center.2))))
                      * sin angle in
         (lon, lat))
      (seq 0 num_points).

(** The body of the loop over the points for one angle (lines 835-847);
    the state is [(max_dist, farthest)]. *)
Definition hull_step (avg_lat avg_lon angle : R) (state : R * option Point)
    (point : Point) : R * option Point :=
  let '(max_dist, farthest) := state in
  let dx := (point.1 - avg_lon) * 111000 * Rabs (cos (radians avg_lat)) in
  let dy := (point.2 - avg_lat) * 111000 in
  let dist := sqrt (dx * dx + dy * dy) in
  let point_angle := atan2 dy dx in
  let angle_diff := Rabs (point_angle - angle) in
  let angle_diff := if decide (PI < angle_diff) then 2 * PI - angle_diff
                    else angle_diff in
  if decide (angle_diff < PI / 6 /\ max_dist < dist) then (dist, Some point)
  else (max_dist, farthest).

Definition hull_point (all_points : list Point) (avg_lat avg_lon : R) (i : nat)
  : option Point :=
  let angle := (2 * PI * INR i) / INR 36 in
  (fold_left (hull_step avg_lat avg_lon angle) all_points (0, None)).2.

(** The points [create_group_hull] samples on the circles of the group. *)
Definition group_samples (circles : list Circle) : list Point :=
  circle ← circles; create_circle_points (c_center circle) (c_radius circle) 16.

Definition create_group_hull (circles : list Circle) : list Point :=
  let all_points := group_samples circles in
  if decide (length all_points < 3)%nat then all_points
  else
    let avg_lon := py_sum (fst <$> all_points) / INR (length all_points) in
    let avg_lat := py_sum (snd <$> all_points) / INR (length all_points) in
    let hull_points := omap (hull_point all_points avg_lat avg_lon) (seq 0 36) in
    let angle_from_center (point : Point) :=
      atan2 (point.2 - avg_lat) (point.1 - avg_lon) in
    let hull_points := sort_by angle_from_center hull_points in
    match hull_points with
    | [] => hull_points
    | first :: _ => hull_points ++ [first]
    end.

(** The points a group contributes (lines 780-788). *)
Definition group_points (group : list Circle) : list Point :=
  match group with
  | [circle] => create_circle_points (c_center circle) (c_radius circle) 24
  | _ => create_group_hull group
  end.

(** [create_grouped_geometry]; [None] is the [IndexError] of
    [all_points[0]]. *)
Definition create_grouped_geometry (groups : list (list Circle))
    (center_lat center_lon : R) : option (list Point) :=
  let all_points := group ← groups; group_points group in
  let angle_from_center (point : Point) :=
    atan2 (point.2 - center_lat) (point.1 - center_lon) in
  if decide (length all_points < 3)%nat then Some all_points
  else
    let all_points := sort_by angle_from_center all_points in
    match all_points with
    | [] => None
    | first :: _ => Some (all_points ++ [first])
    end.

Local Close Scope R_scope.

End AppGeometry.

(** * Properties of scripts/build_adjacency_by_route.py *)

Module BuilderFacts.
Import Builder.

Example two_trips_build :
  build_adjacency two_trip_map two_trips default_fallback_speed
  = [(("R", "S", "A"), ("B", Some 2%Z, None))].
Proof. vm_compute. reflexivity. Qed.

Example untimed_trip_build :
  build_adjacency two_trip_map untimed_trip default_fallback_speed
  = [(("R", "S", "A"), ("B", Some 2%Z, Some (10 - 0)%Q))].
Proof. vm_compute. reflexivity. Qed.

Example parse_time_late : parse_time_to_seconds "25:10:05" = Some 90605%Z.
Proof. reflexivity. Qed.

Example parse_time_malformed :
  parse_time_to_seconds "7:05" = None
  /\ parse_time_to_seconds "07:0x:00" = None
  /\ parse_time_to_seconds " 7:05 : 09" = Some 25509%Z
  /\ parse_time_to_seconds "1_0:00:00" = Some 36000%Z
  /\ parse_time_to_seconds "1__0:00:00" = None.
Proof. repeat split; reflexivity. Qed.

Example round_ties :
  Py.round 2.5 = 2%Z /\ Py.round 3.5 = 4%Z /\ Py.round 1.5 = 2%Z /\ Py.round (-0.5) = 0%Z.
Proof. vm_compute. done. Qed.

(** *** The counter *)

Lemma counter_incr_new (c : Counter) (k : string) :
  k ∉ c.*1 -> counter_incr c k = c ++ [(k, 1)].
Proof.
  induction c as [|[k' v] c IH]; simpl; intros Hk; [done|].
  apply not_elem_of_cons in Hk as [Hne Hk].
  rewrite decide_False by done. by rewrite IH.
Qed.

Lemma counter_incr_keys (c : Counter) (k : string) :
  k ∈ c.*1 -> (counter_incr c k).*1 = c.*1.
Proof.
  induction c as [|[k' v] c IH]; simpl; intros Hk; [by apply elem_of_nil in Hk|].
  case_decide; simpl; [done|].
  apply elem_of_cons in Hk as [Hk|Hk]; [congruence|]. f_equal. by apply IH.
Qed.

Lemma counter_incr_elem (c : Counter) (k k' : string) (v : nat) :
  NoDup c.*1 -> k ∈ c.*1 ->
  (k', v) ∈ counter_incr c k ->
  (k' = k /\ exists v0, (k, v0) ∈ c /\ v = S v0) \/ (k' <> k /\ (k', v) ∈ c).
Proof.
  induction c as [|[k1 v1] c IH]; simpl; intros Hnd Hk Hin;
    [by apply elem_of_nil in Hk|].
  apply NoDup_cons in Hnd as [Hk1 Hnd].
  case_decide as Heq.
  - subst k1. apply elem_of_cons in Hin as [Hin|Hin].
    + inversion Hin; subst. left. split; [done|]. exists v1. split; [left|done].
    + right. split.
      * intros ->. apply Hk1. apply list_elem_of_fmap. by exists (k, v).
      * by right.
  - apply elem_of_cons in Hk as [Hk|Hk]; [congruence|].
    apply elem_of_cons in Hin as [Hin|Hin].
    + inversion Hin; subst. right. split; [done|left].
    + destruct (IH Hnd Hk Hin) as [(-> & v0 & H0 & ->)|[Hne H0]].
      * left. split; [done|]. exists v0. split; [by right|done].
      * right. split; [done|by right].
Qed.

Lemma occurrences_snoc (x k : string) (l : list string) :
  occurrences x (l ++ [k]) = occurrences x l + (if decide (x = k) then 1 else 0).
Proof.
  unfold occurrences. rewrite filter_app, length_app. f_equal.
  rewrite filter_cons, filter_nil. by case_decide.
Qed.

Lemma occurrences_absent (x : string) (l : list string) :
  x ∉ l -> occurrences x l = 0.
Proof.
  unfold occurrences. induction l as [|y l IH]; [done|].
  intros Hx. apply not_elem_of_cons in Hx as [Hne Hx].
  rewrite filter_cons, decide_False by done. by apply IH.
Qed.

Lemma tally_snoc (l : list string) (k : string) :
  tally (l ++ [k]) = counter_incr (tally l) k.
Proof. unfold tally. by rewrite fold_left_app. Qed.


Lemma tally_spec (l : list string) : tally_inv l (tally l).
Proof.
  induction l as [|k l IH] using rev_ind.
  { split; simpl.
    - constructor.
    - done.
    - intros k v Hin. by apply elem_of_nil in Hin.
    - intros [|??] ???; discriminate. }
  rewrite tally_snoc. destruct IH as [I1 I2 I3 I4].
  destruct (decide (k ∈ (tally l).*1)) as [Hin|Hnin].
  - split.
    + by rewrite counter_incr_keys.
    + intros k'. rewrite counter_incr_keys by done. rewrite I2, elem_of_app.
      split; [by left|]. intros [?|Hk]; [done|].
      apply list_elem_of_singleton in Hk. subst. by apply I2.
    + intros k' v Hel. rewrite occurrences_snoc.
      destruct (counter_incr_elem _ _ _ _ I1 Hin Hel) as [(-> & v0 & H0 & ->)|[Hne H0]].
      * rewrite decide_True by done. rewrite (I3 _ _ H0). lia.
      * rewrite decide_False by done. rewrite (I3 _ _ H0). lia.
    + intros pre k' post Hk. rewrite counter_incr_keys in Hk by done.
      destruct (I4 _ _ _ Hk) as (lp & lq & -> & ? & ?).
      exists lp, (lq ++ [k]). by rewrite <- app_assoc.
  - rewrite counter_incr_new by done.
    assert (Hkl : k ∉ l) by (by rewrite <- I2).
    split.
    + rewrite fmap_app. apply NoDup_app. split; [done|]. split; [|apply NoDup_singleton].
      intros x Hx Hx'. apply list_elem_of_singleton in Hx'. simpl in Hx'. by subst.
    + intros k'. rewrite fmap_app, !elem_of_app, I2. done.
    + intros k' v Hel. rewrite occurrences_snoc.
      apply elem_of_app in Hel as [Hel|Hel].
      * rewrite (I3 _ _ Hel). rewrite decide_False; [lia|].
        intros ->. apply Hnin. apply list_elem_of_fmap. by exists (k, v).
      * apply list_elem_of_singleton in Hel. inversion Hel; subst.
        rewrite decide_True by done. by rewrite occurrences_absent.
    + intros pre k' post Hk. rewrite fmap_app in Hk. simpl in Hk.
      induction post as [|p post _] using rev_ind.
      * apply app_inj_tail in Hk as [<- <-].
        exists l, []. split; [done|]. split; [done|]. intros x. by rewrite I2.
      * rewrite app_comm_cons, app_assoc in Hk. apply app_inj_tail in Hk as [Hk Hp].
        destruct (I4 _ _ _ Hk) as (lp & lq & -> & ? & ?).
        exists lp, (lq ++ [k]). by rewrite <- app_assoc.
Qed.

(** *** The first item of maximal count *)

Lemma most_common1_spec (rest done_ dpre dpost : Counter) (best : string * nat) :
  done_ = dpre ++ best :: dpost ->
  (forall x, x ∈ dpre -> x.2 < best.2) ->
  (forall x, x ∈ done_ -> x.2 <= best.2) ->
  exists cpre cpost,
    done_ ++ rest = cpre ++ most_common1 best rest :: cpost
    /\ (forall x, x ∈ cpre -> x.2 < (most_common1 best rest).2)
    /\ (forall x, x ∈ done_ ++ rest -> x.2 <= (most_common1 best rest).2).
Proof.
  revert done_ dpre dpost best.
  induction rest as [|kv rest IH]; intros done_ dpre dpost best Hd Hpre Hmax.
  { exists dpre, dpost. rewrite app_nil_r. done. }
  unfold most_common1. simpl. fold (most_common1 (if best.2 <? kv.2 then kv else best) rest).
  replace (done_ ++ kv :: rest) with ((done_ ++ [kv]) ++ rest) by by rewrite <- app_assoc.
  destruct (Nat.ltb_spec best.2 kv.2) as [Hlt|Hge].
  - apply (IH _ done_ []); [done| |].
    + intros x Hx. specialize (Hmax x Hx). lia.
    + intros x Hx. apply elem_of_app in Hx as [Hx|Hx].
      * specialize (Hmax x Hx). lia.
      * apply list_elem_of_singleton in Hx. by subst.
  - apply (IH _ dpre (dpost ++ [kv])); [|done|].
    + rewrite Hd. by rewrite <- app_assoc.
    + intros x Hx. apply elem_of_app in Hx as [Hx|Hx]; [by apply Hmax|].
      apply list_elem_of_singleton in Hx. by subst.
Qed.

Lemma choose_most_common_spec (l : list string) :
  l <> [] -> first_most_common l (choose_most_common (tally l)).
Proof.
  intros Hl. destruct (tally_spec l) as [I1 I2 I3 I4].
  destruct (tally l) as [|kv rest] eqn:Hc.
  { destruct l as [|x l]; [done|]. exfalso.
    assert (Hx : x ∈ ([] : Counter).*1) by (apply I2; left).
    by apply elem_of_nil in Hx. }
  simpl. destruct (most_common1_spec rest [kv] [] [] kv) as (cpre & cpost & Hsplit & Hpre & Hmax).
  - done.
  - intros x Hx. by apply elem_of_nil in Hx.
  - intros x Hx. apply list_elem_of_singleton in Hx. by subst.
  - simpl in Hsplit. set (m := most_common1 kv rest) in *.
    assert (Hm : m ∈ kv :: rest).
    { rewrite Hsplit. apply elem_of_app. right. left. }
    assert (Hcount : m.2 = occurrences m.1 l) by (apply I3; by destruct m).
    split.
    + intros x. destruct (decide (x ∈ l)) as [Hx|Hx].
      * apply I2, list_elem_of_fmap in Hx as ([k v] & -> & Hkv). simpl.
        rewrite <- (I3 _ _ Hkv), <- Hcount. apply (Hmax (k, v)). done.
      * rewrite occurrences_absent by done. lia.
    + destruct (I4 cpre.*1 m.1 cpost.*1) as (lp & lq & Hl' & Hnot & Hbefore).
      { rewrite Hsplit, fmap_app. done. }
      exists lp, lq. split; [done|]. split; [done|].
      intros x Hx. apply Hbefore, list_elem_of_fmap in Hx as ([k v] & -> & Hkv). simpl.
      assert (Hin : (k, v) ∈ kv :: rest).
      { rewrite Hsplit. apply elem_of_app. by left. }
      rewrite <- (I3 _ _ Hin), <- Hcount. apply (Hpre (k, v)). done.
Qed.

(** *** The scan as a fold over the observations *)

Lemma scan_rows_fold (route_id shape_id : string) (rows : list StopTime) (s : Scan) :
  scan_rows route_id shape_id rows s
  = fold_left record
      ((fun p : StopTime * StopTime => observe route_id shape_id p.1 p.2)
         <$> row_pairs rows) s.
Proof.
  revert s. induction rows as [|cur rows IH]; intros s; [done|].
  destruct rows as [|nxt rows]; [done|].
  change (scan_rows route_id shape_id (cur :: nxt :: rows) s)
    with (scan_rows route_id shape_id (nxt :: rows)
            (record s (observe route_id shape_id cur nxt))).
  rewrite IH. done.
Qed.

Lemma scan_trips_fold (trips_map : gmap string (string * string))
    (trips : list (string * list StopTime)) (s : Scan) :
  fold_left (fun s '(tid, rows) =>
               let '(route_id, shape_id) :=
                 default (EmptyString, EmptyString) (trips_map !! tid) in
               scan_rows route_id shape_id rows s) trips s
  = fold_left record (observations trips_map trips) s.
Proof.
  revert s. induction trips as [|[tid rows] trips IH]; intros s; [done|].
  unfold observations. rewrite fmap_cons. simpl concat.
  rewrite fold_left_app. simpl fold_left at 1. rewrite IH. f_equal.
  destruct (default (EmptyString, EmptyString) (trips_map !! tid)) as [r sh].
  apply scan_rows_fold.
Qed.

Lemma scan_trips_scanned (trips_map : gmap string (string * string))
    (trips : list (string * list StopTime)) :
  scan_trips trips_map trips = scanned (observations trips_map trips).
Proof. apply scan_trips_fold. Qed.

Lemma scanned_snoc (os : list Obs) (o : Obs) :
  scanned (os ++ [o]) = record (scanned os) o.
Proof. unfold scanned. by rewrite fold_left_app. Qed.

(** *** The samples kept by the scan *)

Lemma push_lookup {A} (d : gmap (Key * string) (list A)) (k k' : Key * string) (x : A) :
  default [] (push d k x !! k')
  = default [] (d !! k') ++ (if decide (k = k') then [x] else []).
Proof.
  unfold push. case_decide as Hk.
  - subst. by rewrite lookup_insert_eq.
  - rewrite lookup_insert_ne by done. by rewrite app_nil_r.
Qed.

Lemma scanned_times (os : list Obs) (key : Key) (nxt : string) :
  default [] (travel_times (scanned os) !! (key, nxt)) = time_samples key nxt os.
Proof.
  induction os as [|[[[k n] dt] dist] os IH] using rev_ind; [done|].
  rewrite scanned_snoc. unfold time_samples. rewrite omap_app. simpl.
  fold (time_samples key nxt os). rewrite <- IH.
  destruct dt as [t|]; simpl.
  - rewrite push_lookup. f_equal.
    destruct (decide ((k, n) = (key, nxt))) as [Heq|Hne].
    + inversion Heq; subst. by rewrite decide_True.
    + rewrite decide_False; [done|]. intros [-> ->]. done.
  - case_decide; by rewrite app_nil_r.
Qed.

Lemma scanned_dists (os : list Obs) (key : Key) (nxt : string) :
  default [] (travel_dists (scanned os) !! (key, nxt)) = dist_samples key nxt os.
Proof.
  induction os as [|[[[k n] dt] dist] os IH] using rev_ind; [done|].
  rewrite scanned_snoc. unfold dist_samples. rewrite omap_app. simpl.
  fold (dist_samples key nxt os). rewrite <- IH.
  destruct dist as [d|]; simpl.
  - rewrite push_lookup. f_equal.
    destruct (decide ((k, n) = (key, nxt))) as [Heq|Hne].
    + inversion Heq; subst. by rewrite decide_True.
    + rewrite decide_False; [done|]. intros [-> ->]. done.
  - case_decide; by rewrite app_nil_r.
Qed.

(** *** The dictionary of counters *)

Lemma bump_keys_in (d : list (Key * Counter)) (key : Key) (nxt : string) :
  key ∈ d.*1 -> (bump d key nxt).*1 = d.*1.
Proof.
  induction d as [|[k c] d IH]; simpl; intros Hk; [by apply elem_of_nil in Hk|].
  case_decide; simpl; [done|].
  apply elem_of_cons in Hk as [Hk|Hk]; [congruence|]. f_equal. by apply IH.
Qed.

Lemma bump_new (d : list (Key * Counter)) (key : Key) (nxt : string) :
  key ∉ d.*1 -> bump d key nxt = d ++ [(key, counter_incr [] nxt)].
Proof.
  induction d as [|[k c] d IH]; simpl; intros Hk; [done|].
  apply not_elem_of_cons in Hk as [Hne Hk].
  rewrite decide_False by done. by rewrite IH.
Qed.

Lemma bump_elem (d : list (Key * Counter)) (key k : Key) (nxt : string) (c : Counter) :
  NoDup d.*1 -> key ∈ d.*1 ->
  (k, c) ∈ bump d key nxt ->
  (k = key /\ exists c0, (key, c0) ∈ d /\ c = counter_incr c0 nxt)
  \/ (k <> key /\ (k, c) ∈ d).
Proof.
  induction d as [|[k1 c1] d IH]; simpl; intros Hnd Hk Hin;
    [by apply elem_of_nil in Hk|].
  apply NoDup_cons in Hnd as [Hk1 Hnd].
  case_decide as Heq.
  - subst k1. apply elem_of_cons in Hin as [Hin|Hin].
    + inversion Hin; subst. left. split; [done|]. exists c1. split; [left|done].
    + right. split.
      * intros ->. apply Hk1. apply list_elem_of_fmap. by exists (key, c).
      * by right.
  - apply elem_of_cons in Hk as [Hk|Hk]; [congruence|].
    apply elem_of_cons in Hin as [Hin|Hin].
    + inversion Hin; subst. right. split; [done|left].
    + destruct (IH Hnd Hk Hin) as [(-> & c0 & H0 & ->)|[Hne H0]].
      * left. split; [done|]. exists c0. split; [by right|done].
      * right. split; [done|by right].
Qed.

Lemma successors_snoc (key : Key) (os : list Obs) (o : Obs) :
  successors key (os ++ [o])
  = successors key os ++ (if decide (o.1.1.1 = key) then [o.1.1.2] else []).
Proof. unfold successors. rewrite omap_app. simpl. by case_decide. Qed.


Lemma scanned_counts (os : list Obs) : counts_inv os (next_counts (scanned os)).
Proof.
  induction os as [|[[[key nxt] dt] dist] os IH] using rev_ind.
  { split; simpl.
    - constructor.
    - intros k. split; [intros Hk; by apply elem_of_nil in Hk|done].
    - intros k c Hin. by apply elem_of_nil in Hin. }
  rewrite scanned_snoc. simpl. destruct IH as [I1 I2 I3].
  set (d := next_counts (scanned os)) in *.
  assert (Hsucc : forall k, successors k (os ++ [(key, nxt, dt, dist)])
             = successors k os ++ (if decide (key = k) then [nxt] else [])).
  { intros k. by rewrite successors_snoc. }
  destruct (decide (key ∈ d.*1)) as [Hin|Hnin].
  - split.
    + by rewrite bump_keys_in.
    + intros k. rewrite bump_keys_in by done. rewrite I2, Hsucc.
      split.
      * intros Hk Happ. by apply app_eq_nil in Happ as [? _].
      * intros Hk. case_decide; [subst; by apply I2|]. by rewrite app_nil_r in Hk.
    + intros k c Hel. rewrite Hsucc.
      destruct (bump_elem _ _ _ _ _ I1 Hin Hel) as [(-> & c0 & H0 & ->)|[Hne H0]].
      * rewrite decide_True by done. rewrite tally_snoc. f_equal. by apply I3.
      * rewrite decide_False by done. rewrite app_nil_r. by apply I3.
  - rewrite bump_new by done.
    assert (Hnone : successors key os = []).
    { destruct (successors key os) eqn:E; [done|]. exfalso. apply Hnin, I2.
      by rewrite E. }
    split.
    + rewrite fmap_app. apply NoDup_app. split; [done|]. split; [|apply NoDup_singleton].
      intros x Hx Hx'. apply list_elem_of_singleton in Hx'. simpl in Hx'. by subst.
    + intros k. rewrite fmap_app, elem_of_app, I2, Hsucc. simpl.
      rewrite list_elem_of_singleton. split.
      * intros [Hk| ->] Happ.
        -- by apply app_eq_nil in Happ as [? _].
        -- rewrite decide_True in Happ by done. by apply app_eq_nil in Happ as [_ ?].
      * intros Hk. case_decide; [by right|left]. by rewrite app_nil_r in Hk.
    + intros k c Hel. rewrite Hsucc.
      apply elem_of_app in Hel as [Hel|Hel].
      * rewrite decide_False.
        -- rewrite app_nil_r. by apply I3.
        -- intros ->. apply Hnin. apply list_elem_of_fmap. by exists (k, c).
      * apply list_elem_of_singleton in Hel. inversion Hel; subst.
        rewrite decide_True by done. by rewrite Hnone.
Qed.

(** *** What an entry of the table records *)

Lemma build_adjacency_entry (trips_map : gmap string (string * string))
    (trips : list (string * list StopTime)) (fallback_speed : Q)
    (key : Key) (nxt : string) (tt : option Z) (td : option Q) :
  (key, (nxt, tt, td)) ∈ build_adjacency trips_map trips fallback_speed ->
  let os := observations trips_map trips in
  first_most_common (successors key os) nxt
  /\ td = median (dist_samples key nxt os)
  /\ tt = recorded_time fallback_speed (time_samples key nxt os) td.
Proof.
  unfold build_adjacency. rewrite scan_trips_scanned.
  set (os := observations trips_map trips).
  intros Hin. apply list_elem_of_fmap in Hin as ([k c] & Heq & Hkc).
  destruct (scanned_counts os) as [I1 I2 I3].
  unfold resolve in Heq. rewrite scanned_times, scanned_dists in Heq.
  inversion Heq; subst key nxt tt td; clear Heq. simpl.
  assert (Hne : successors k os <> []).
  { apply I2. apply list_elem_of_fmap. by exists (k, c). }
  rewrite (I3 _ _ Hkc). split; [by apply choose_most_common_spec|].
  split; [done|]. unfold recorded_time. f_equal.
  destruct (median (inject_Z <$> time_samples _ _ _)) eqn:E1; [done|].
  by destruct (median (dist_samples _ _ _)).
Qed.

Lemma build_adjacency_keys (trips_map : gmap string (string * string))
    (trips : list (string * list StopTime)) (fallback_speed : Q) :
  NoDup (build_adjacency trips_map trips fallback_speed).*1
  /\ forall key, key ∈ (build_adjacency trips_map trips fallback_speed).*1
                 <-> successors key (observations trips_map trips) <> [].
Proof.
  unfold build_adjacency. rewrite scan_trips_scanned.
  destruct (scanned_counts (observations trips_map trips)) as [I1 I2 I3].
  assert (Hk : forall (d : list (Key * Counter)) (f : Key -> Counter -> Edge),
             ((fun '(key, counter) => (key, f key counter)) <$> d).*1 = d.*1).
  { intros d f. induction d as [|[k c] d IH]; [done|]. simpl. f_equal. apply IH. }
  rewrite Hk. done.
Qed.

Lemma fst_unique {A B} (l : list (A * B)) (x : A) (y1 y2 : B) :
  NoDup l.*1 -> (x, y1) ∈ l -> (x, y2) ∈ l -> y1 = y2.
Proof.
  induction l as [|[a b] l IH]; simpl; intros Hnd H1 H2; [by apply elem_of_nil in H1|].
  apply NoDup_cons in Hnd as [Ha Hnd].
  apply elem_of_cons in H1 as [H1|H1]; apply elem_of_cons in H2 as [H2|H2].
  - congruence.
  - exfalso. inversion H1; subst. apply Ha. apply list_elem_of_fmap. by exists (a, y2).
  - exfalso. inversion H2; subst. apply Ha. apply list_elem_of_fmap. by exists (a, y1).
  - by apply IH.
Qed.

(** [round] returns an integer within one half of its argument. *)
Lemma round_nearest (x : Q) :
  (x - (1 # 2) <= inject_Z (Py.round x) <= x + (1 # 2))%Q.
Proof.
  unfold Py.round. pose proof (Qfloor_le x) as Hlo. pose proof (Qlt_floor x) as Hhi.
  rewrite inject_Z_plus in Hhi. change (inject_Z 1) with 1%Q in Hhi.
  destruct (Qcompare_spec (x - inject_Z (Qfloor x)) (1 # 2)) as [E|E|E].
  - destruct (Z.even (Qfloor x)); [lra|].
    rewrite inject_Z_plus. change (inject_Z 1) with 1%Q. lra.
  - lra.
  - rewrite inject_Z_plus. change (inject_Z 1) with 1%Q. lra.
Qed.

(** [sorted] returns its argument in non-decreasing order. *)
Lemma insert_sorted_perm (x : Q) (l : list Q) : Py.insert_sorted x l ≡ₚ x :: l.
Proof.
  induction l as [|y l IH]; simpl; [done|].
  destruct (Qle_bool x y); [done|]. rewrite IH. apply perm_swap.
Qed.

Lemma sorted_perm (l : list Q) : Py.sorted l ≡ₚ l.
Proof.
  induction l as [|x l IH]; simpl; [done|]. by rewrite insert_sorted_perm, IH.
Qed.

Lemma insert_sorted_sorted (x : Q) (l : list Q) :
  Sorted Qle l -> Sorted Qle (Py.insert_sorted x l).
Proof.
  induction l as [|y l IH]; simpl; intros Hs.
  { repeat constructor. }
  destruct (Qle_bool x y) eqn:E.
  - constructor; [done|]. constructor. by apply Qle_bool_iff.
  - apply Sorted_inv in Hs as [Hs Hhd]. constructor; [by apply IH|].
    assert (Hyx : (y <= x)%Q).
    { apply Qlt_le_weak, Qnot_le_lt. intros Hle. apply Qle_bool_iff in Hle. congruence. }
    destruct l as [|z l]; simpl.
    + by constructor.
    + destruct (Qle_bool x z); constructor; [done|]. by inversion Hhd.
Qed.

Lemma sorted_sorted (l : list Q) : Sorted Qle (Py.sorted l).
Proof.
  induction l as [|x l IH]; simpl; [constructor|]. by apply insert_sorted_sorted.
Qed.

End BuilderFacts.

(** * Properties of the traversal of scripts/compute_bus_areas.py *)

Module BusAreasFacts.
Import BusAreas.

Lemma ltb_lt (a b : Q) : ltb a b = true <-> (a < b)%Q.
Proof.
  unfold ltb. rewrite negb_true_iff, <- not_true_iff_false, Qle_bool_iff.
  split; [apply Qnot_le_lt | apply Qlt_not_le].
Qed.


Lemma unvisited_shrinks (m : gmap string Entry) (visited : gset string) cur e :
  m !! cur = Some e -> cur ∉ visited ->
  size (dom m ∖ ({[cur]} ∪ visited)) < size (dom m ∖ visited).
Proof.
  intros Hm Hv. apply subset_size.
  assert (Hd : cur ∈ dom m) by (apply elem_of_dom; eauto).
  split.
  - intros x. rewrite !elem_of_difference, elem_of_union, elem_of_singleton. tauto.
  - intros Hsub. specialize (Hsub cur).
    rewrite !elem_of_difference, elem_of_union, elem_of_singleton in Hsub. tauto.
Qed.

Lemma traverse_loop_total fuel :
  forall (m : gmap string Entry) total cur acc visited results log,
    size (dom m ∖ visited) < fuel ->
    NoDup log.*1 ->
    (forall s, s ∈ log.*1 -> s ∈ visited) ->
    exists out,
      traverse_loop fuel m total cur acc visited results log = Some out
      /\ loop_post total results log out
      /\ forall fuel', size (dom m ∖ visited) < fuel' ->
           traverse_loop fuel' m total cur acc visited results log = Some out.
Proof.
  assert (Hstop : forall total results log, NoDup log.*1 ->
             loop_post total results log (results, log)).
  { intros. split; simpl; [done | by left | exists []; by rewrite app_nil_r]. }
  induction fuel as [|fuel IH]; intros m total cur acc visited results log Hf Hnd Hvis;
    [lia|].
  simpl. case_bool_decide as Hc.
  2:{ eexists. split; [done|]. split; [by apply Hstop|].
      intros [|f'] ?; [lia|]. simpl. by rewrite bool_decide_eq_false_2. }
  destruct Hc as [Hne Hnv].
  assert (Hnd' : NoDup (log ++ [(cur, acc)]).*1).
  { rewrite fmap_app. apply NoDup_app. split; [done|]. split.
    - intros s Hs Hin. apply list_elem_of_singleton in Hin. simpl in Hin. subst.
      by apply Hnv, Hvis.
    - apply NoDup_singleton. }
  assert (Hvis' : forall s, s ∈ (log ++ [(cur, acc)]).*1 -> s ∈ {[cur]} ∪ visited).
  { intros s. rewrite fmap_app, elem_of_app. intros [Hs|Hs].
    - apply elem_of_union_r. by apply Hvis.
    - apply list_elem_of_singleton in Hs. simpl in Hs. subst. set_solver. }
  assert (Hext : forall total rs,
             (forall r, r ∈ rs -> r ∈ results \/
                exists a, (r.1.1, a) ∈ log ++ [(cur, acc)] /\ (a < total)%Q
                          /\ r.2 = (total - a)%Q /\ (0 < r.2)%Q) ->
             loop_post total results log (rs, log ++ [(cur, acc)])).
  { intros t rs Hrs. split; simpl; [done | done | by eexists]. }
  destruct (m !! cur) as [[[next_stop tt_s] td]|] eqn:Hm.
  2:{ eexists. split; [done|]. split.
      - apply Hext. intros r Hr. by left.
      - intros [|f'] ?; [lia|]. simpl.
        rewrite bool_decide_eq_true_2 by done. by rewrite Hm. }
  set (results' := if ltb 0 (total - acc) then results ++ [(cur, next_stop, (total - acc)%Q)]
                   else results).
  assert (Hres' : forall r, r ∈ results' -> r ∈ results \/
                exists a, (r.1.1, a) ∈ log ++ [(cur, acc)] /\ (a < total)%Q
                          /\ r.2 = (total - a)%Q /\ (0 < r.2)%Q).
  { intros r. unfold results'. destruct (ltb 0 (total - acc)) eqn:Hlt; [|by left].
    rewrite elem_of_app. intros [Hr|Hr]; [by left|]. right.
    apply list_elem_of_singleton in Hr. subst r. simpl.
    apply ltb_lt in Hlt. exists acc. split; [|split; [|split]]; [|lra|done|done].
    apply elem_of_app. right. by apply list_elem_of_singleton. }
  destruct (edge_dt tt_s td) as [dt|] eqn:Hdt.
  2:{ eexists. split; [done|]. split; [by apply Hext|].
      intros [|f'] ?; [lia|]. simpl.
      rewrite bool_decide_eq_true_2 by done. rewrite Hm. fold results'. by rewrite Hdt. }
  destruct (ltb total (acc + dt)) eqn:Hover.
  { eexists. split; [done|]. split; [by apply Hext|].
    intros [|f'] ?; [lia|]. simpl.
    rewrite bool_decide_eq_true_2 by done. rewrite Hm. fold results'.
    by rewrite Hdt, Hover. }
  pose proof (unvisited_shrinks m visited cur _ Hm Hnv) as Hsz.
  destruct (IH m total next_stop (acc + dt)%Q ({[cur]} ∪ visited) results'
              (log ++ [(cur, acc)])) as (out & Hrun & Hpost & Hany);
    [lia | done | done |].
  exists out. split; [done|]. split.
  - destruct Hpost as [P1 P2 [more P3]]. split; [done| |].
    + intros r Hr. destruct (P2 r Hr) as [Hin|Hin]; [|by right].
      destruct (Hres' r Hin) as [?|(a & Ha & ?)]; [by left|right].
      exists a. split; [|done]. simpl in P3. rewrite P3.
      apply elem_of_app. by left.
    + exists ([(cur, acc)] ++ more). by rewrite P3, <- app_assoc.
  - intros [|f'] ?; [lia|]. simpl.
    rewrite bool_decide_eq_true_2 by done. rewrite Hm. fold results'.
    rewrite Hdt, Hover. apply Hany. lia.
Qed.

Lemma traverse_from_stop_total
    (shape_map : gmap (string * string) (gmap string Entry))
    (start_stop : string) (total_seconds : Q) (key : string * string) :
  exists results log,
    traverse_from_stop_log shape_map start_stop total_seconds key = Some (results, log)
    /\ traverse_from_stop shape_map start_stop total_seconds key = Some results
    /\ loop_post total_seconds [] [] (results, log)
    /\ forall fuel, size (default ∅ (shape_map !! key)) < fuel ->
         traverse_loop fuel (default ∅ (shape_map !! key)) total_seconds start_stop
           0 ∅ [] [] = Some (results, log).
Proof.
  set (m := default ∅ (shape_map !! key)).
  assert (Hsz : size (dom m ∖ (∅ : gset string)) = size m).
  { rewrite difference_empty_L. apply size_dom. }
  destruct (traverse_loop_total (S (size m)) m total_seconds start_stop 0%Q ∅ [] [])
    as ([results log] & Hrun & Hpost & Hany).
  - rewrite Hsz. lia.
  - constructor.
  - intros s Hs. by apply elem_of_nil in Hs.
  - exists results, log. unfold traverse_from_stop, traverse_from_stop_log. fold m.
    rewrite Hrun. split; [done|]. split; [done|]. split; [done|].
    intros fuel Hfuel. apply Hany. rewrite Hsz. done.
Qed.

(** A two-stop loop line: X -> Y -> X, 60 s per hop. *)
Example cyclic_stops_walk :
  traverse_from_stop_log cyclic_shape_map "X" 100 ("R", "S")
  = Some ([("X", "Y", 100%Q); ("Y", "X", (100 - (0 + 60))%Q)],
          [("X", 0%Q); ("Y", (0 + 60)%Q)]).
Proof. vm_compute. reflexivity. Qed.

(** The loop steps over an edge without travel time by its distance
    divided by the fallback speed. *)
Lemma traverse_loop_untimed (fuel : nat) (m : gmap string Entry) (total : Q)
    (cur nxt : string) (d acc : Q) (visited : gset string)
    (results : list Result) (log : list (string * Q)) :
  m !! cur = Some (nxt, None, Some d) -> cur <> EmptyString -> cur ∉ visited ->
  traverse_loop (S fuel) m total cur acc visited results log
  = let results' :=
      if ltb 0 (total - acc) then results ++ [(cur, nxt, (total - acc)%Q)]
      else results in
    if ltb total (acc + d / BUS_SPEED_FALLBACK)
    then Some (results', log ++ [(cur, acc)])
    else traverse_loop fuel m total nxt (acc + d / BUS_SPEED_FALLBACK)%Q
           ({[cur]} ∪ visited) results' (log ++ [(cur, acc)]).
Proof.
  intros Hm Hne Hv. simpl. rewrite bool_decide_eq_true_2 by done. by rewrite Hm.
Qed.

(** Beyond the cap, the walking time to the nearest stop is the cap. *)
Lemma group_rows_capped
    (shape_map : gmap (string * string) (gmap string Entry))
    (stops : gmap string (option Q * option Q))
    (total_seconds : Z) (route shape stop_id : string) (dist_m : Q) :
  (inject_Z total_seconds * 0.7 < dist_m / WALK_SPEED)%Q ->
  group_rows shape_map stops total_seconds route shape stop_id dist_m
  = rows_from shape_map stops route shape stop_id
      (inject_Z total_seconds - inject_Z total_seconds * 0.7 - inject_Z BOARD_TIME)%Q.
Proof.
  intros Hfar. unfold group_rows, py_min.
  by rewrite (proj2 (ltb_lt _ _) Hfar).
Qed.

Example capped_group_rows :
  group_rows cyclic_shape_map cyclic_stops 600 "R" "S" "X" 10007
  = Some [ mkOutRow "X" "R" "S" (Some 0.09%Q) (Some 0%Q) "Y" (Some 60%Z) 224;
           mkOutRow "Y" "R" "S" (Some 0.1%Q) (Some 0%Q) "X" (Some 60%Z) 140 ].
Proof. vm_compute. reflexivity. Qed.

End BusAreasFacts.

(** * The union-find of group_connected_circles *)

Module ForestFacts.
Import App.

Section walking.
Context (p : list nat).

Lemma walk_S k x : walk (S k) p x = par p (walk k p x).
Proof. done. Qed.

Lemma walk_shift k x : walk (S k) p x = walk k p (par p x).
Proof. unfold walk. apply Nat.iter_succ_r. Qed.

Lemma walk_add a b x : walk (a + b) p x = walk a p (walk b p x).
Proof. unfold walk. apply Nat.iter_add. Qed.

Lemma walk_root k x : is_root p x -> walk k p x = x.
Proof. intros Hx. induction k as [|k IH]; [done|]. by rewrite walk_S, IH. Qed.

Lemma walk_stable k m x : is_root p (walk k p x) -> k <= m -> walk m p x = walk k p x.
Proof.
  intros Hr Hle. replace m with ((m - k) + k) by lia.
  rewrite walk_add. by apply walk_root.
Qed.

Lemma par_out x : length p <= x -> par p x = x.
Proof. intros Hx. unfold par. by rewrite lookup_ge_None_2. Qed.

Lemma par_lookup x y : p !! x = Some y -> par p x = y.
Proof. intros Hx. unfold par. by rewrite Hx. Qed.

Lemma nonroots_from_le i : nonroots_from i p <= length p.
Proof.
  revert i. induction p as [|y q IH]; intros i; simpl; [done|].
  specialize (IH (S i)). case_decide; lia.
Qed.

Lemma nonroots_le : nonroots p <= length p.
Proof. apply nonroots_from_le. Qed.

Context (Hp : forest p).

Lemma root_of_depth x : root_of p x = walk (nonroots p) p x.
Proof. apply walk_stable; [apply Hp | apply nonroots_le]. Qed.

Lemma root_of_is_root x : is_root p (root_of p x).
Proof. rewrite root_of_depth. apply Hp. Qed.

Lemma root_of_walk k x : root_of p (walk k p x) = root_of p x.
Proof.
  unfold root_of. rewrite <- walk_add, Nat.add_comm, walk_add.
  apply walk_root, root_of_is_root.
Qed.

Lemma root_of_par x : root_of p (par p x) = root_of p x.
Proof. apply (root_of_walk 1). Qed.

Lemma root_of_root x : is_root p x -> root_of p x = x.
Proof. apply walk_root. Qed.

Lemma walk_lt k x : x < length p -> walk k p x < length p.
Proof.
  intros Hx. induction k as [|k IH]; [done|]. rewrite walk_S. by apply Hp.
Qed.

Lemma root_of_lt x : x < length p -> root_of p x < length p.
Proof. apply walk_lt. Qed.
End walking.

Lemma nonroots_from_insert (p : list nat) (i x y r : nat) :
  p !! x = Some y ->
  nonroots_from i (<[x := r]> p) + (if decide (y = i + x) then 0 else 1)
  = nonroots_from i p + (if decide (r = i + x) then 0 else 1).
Proof.
  revert i x. induction p as [|z q IH]; intros i x Hx; [done|].
  destruct x as [|x]; simpl in *.
  - inversion Hx; subst. rewrite Nat.add_0_r. repeat case_decide; lia.
  - specialize (IH (S i) x Hx). replace (i + S x) with (S i + x) by lia. lia.
Qed.

Lemma par_insert (p : list nat) (x r z : nat) :
  x < length p -> par (<[x := r]> p) z = if decide (z = x) then r else par p z.
Proof.
  intros Hx. unfold par. case_decide as Hz.
  - subst. by rewrite list_lookup_insert_eq.
  - by rewrite list_lookup_insert_ne.
Qed.

(** Path compression: pointing [x] at its root keeps the forest and every
    root. *)
Lemma compress_forest (p : list nat) (x : nat) :
  forest p -> x < length p ->
  forest (<[x := root_of p x]> p)
  /\ forall y, root_of (<[x := root_of p x]> p) y = root_of p y.
Proof.
  intros Hp Hx. set (r := root_of p x). set (p' := <[x := r]> p).
  destruct (decide (par p x = x)) as [Hroot|Hnroot].
  { assert (p' = p) as ->; [|done].
    unfold p', r. rewrite root_of_root by done. apply list_insert_id.
    unfold is_root, par in Hroot. destruct (p !! x) eqn:E; simpl in *; [by subst|].
    apply lookup_ge_None in E. lia. }
  assert (Hlen : length p' = length p) by apply length_insert.
  assert (Hr : is_root p r) by by apply root_of_is_root.
  assert (Hrx : r <> x) by (intros E; by rewrite E in Hr).
  assert (Hpar : forall z, par p' z = if decide (z = x) then r else par p z).
  { intros z. by apply par_insert. }
  assert (Hnr : nonroots p' = nonroots p).
  { destruct (lookup_lt_is_Some_2 p x Hx) as [y Hy].
    pose proof (nonroots_from_insert p 0 x y r Hy) as E. simpl in E.
    rewrite decide_False in E.
    2:{ intros ->. apply Hnroot. by apply par_lookup. }
    rewrite (decide_False (P := r = x)) in E by done.
    unfold nonroots, p'. lia. }
  assert (Hwalk : forall k y, walk k p' y = walk k p y \/ walk k p' y = root_of p y).
  { induction k as [|k IH]; intros y; [by left|].
    rewrite !walk_S, Hpar. destruct (IH y) as [E|E]; rewrite E.
    - case_decide as Hz; [|by left]. right.
      rewrite <- (root_of_walk p Hp k y), Hz. done.
    - right. case_decide as Hz.
      + exfalso. apply Hnroot. rewrite <- Hz. by apply root_of_is_root.
      + by apply root_of_is_root. }
  assert (Hrootp' : forall y, is_root p' (root_of p y)).
  { intros y. unfold is_root. rewrite Hpar. case_decide as Hz.
    - exfalso. apply Hnroot. rewrite <- Hz. by apply root_of_is_root.
    - by apply root_of_is_root. }
  assert (Hdepth : forall y, walk (nonroots p') p' y = root_of p y).
  { intros y. destruct (Hwalk (nonroots p') y) as [E|E]; [|done].
    rewrite E, Hnr. symmetry. by apply root_of_depth. }
  assert (Hf : forest p').
  { split.
    - intros z Hz. rewrite Hlen in *. rewrite Hpar. case_decide.
      + by apply root_of_lt.
      + by apply Hp.
    - intros y. rewrite Hdepth. apply Hrootp'. }
  split; [done|]. intros y. rewrite (root_of_depth p' Hf). apply Hdepth.
Qed.

(** Linking the root [px] under another root [py] merges the two trees. *)
Lemma link_forest (p : list nat) (px py : nat) :
  forest p -> px < length p -> py < length p ->
  is_root p px -> is_root p py -> px <> py ->
  forest (<[px := py]> p)
  /\ forall y, root_of (<[px := py]> p) y
               = if decide (root_of p y = px) then py else root_of p y.
Proof.
  intros Hp Hx Hy Hrx Hry Hne. set (p' := <[px := py]> p).
  assert (Hlen : length p' = length p) by apply length_insert.
  assert (Hpar : forall z, par p' z = if decide (z = px) then py else par p z).
  { intros z. by apply par_insert. }
  assert (Hnr : nonroots p' = S (nonroots p)).
  { assert (Hl : p !! px = Some px).
    { unfold is_root, par in Hrx. destruct (p !! px) eqn:E; simpl in *; [by subst|].
      apply lookup_ge_None in E. lia. }
    pose proof (nonroots_from_insert p 0 px px py Hl) as E. simpl in E.
    rewrite decide_True in E by done. rewrite decide_False in E by done.
    unfold nonroots, p'. lia. }
  assert (Hwalk : forall k y, walk k p' y = walk k p y
                              \/ (root_of p y = px /\ walk k p' y = py)).
  { induction k as [|k IH]; intros y; [by left|].
    rewrite !walk_S, Hpar. destruct (IH y) as [E|[E1 E2]].
    - rewrite E. case_decide as Hz; [|by left]. right. split; [|done].
      rewrite <- (root_of_walk p Hp k y), Hz. by apply root_of_root.
    - rewrite E2. right. split; [done|]. rewrite decide_False by congruence. apply Hry. }
  assert (Hnew : forall y, walk (nonroots p') p' y
                           = if decide (root_of p y = px) then py else root_of p y).
  { intros y. rewrite Hnr, walk_S, Hpar.
    destruct (Hwalk (nonroots p) y) as [E|[E1 E2]].
    - rewrite E, <- (root_of_depth p Hp). case_decide; [done|].
      by apply root_of_is_root.
    - rewrite E2, decide_False by congruence. rewrite decide_True by done. apply Hry. }
  assert (Hf : forest p').
  { split.
    - intros z Hz. rewrite Hlen in *. rewrite Hpar. case_decide; [done|]. by apply Hp.
    - intros y. rewrite Hnew. unfold is_root.
      destruct (decide (root_of p y = px)) as [E|E]; rewrite Hpar.
      + rewrite decide_False by congruence. apply Hry.
      + rewrite decide_False by done. by apply root_of_is_root. }
  split; [done|]. intros y. rewrite (root_of_depth p' Hf). apply Hnew.
Qed.

(** [find] returns the root and leaves a forest with the same roots. *)
Lemma find_depth (fuel : nat) :
  forall (p : list nat) (x k : nat),
    forest p -> x < length p -> is_root p (walk k p x) -> k < fuel ->
    exists p', find fuel p x = Some (p', root_of p x)
               /\ forest p' /\ length p' = length p
               /\ forall y, root_of p' y = root_of p y.
Proof.
  induction fuel as [|fuel IH]; intros p x k Hp Hx Hk Hfuel; [lia|].
  simpl. destruct (lookup_lt_is_Some_2 p x Hx) as [px Hpx]. rewrite Hpx.
  pose proof (par_lookup p x px Hpx) as Hpar.
  case_decide as Hne.
  2:{ exists p. assert (Hroot : is_root p x) by (unfold is_root; congruence).
      rewrite root_of_root by done. rewrite Hne. by split_and!. }
  destruct k as [|k]; [simpl in Hk; unfold is_root in Hk; congruence|].
  rewrite walk_shift, Hpar in Hk.
  assert (Hpx_lt : px < length p) by (rewrite <- Hpar; by apply Hp).
  destruct (IH p px k Hp Hpx_lt Hk) as (p1 & Hfind & Hp1 & Hlen1 & Hroots1); [lia|].
  rewrite Hfind.
  assert (Hrx : root_of p px = root_of p x) by (rewrite <- Hpar; by apply root_of_par).
  rewrite Hrx. rewrite <- (Hroots1 x).
  destruct (compress_forest p1 x Hp1) as [Hp2 Hroots2]; [lia|].
  eexists. split; [done|]. split; [done|]. split.
  - by rewrite length_insert.
  - intros y. by rewrite Hroots2.
Qed.

Lemma find_spec (p : list nat) (x : nat) :
  forest p -> x < length p ->
  exists p', find (find_fuel p) p x = Some (p', root_of p x)
             /\ forest p' /\ length p' = length p
             /\ forall y, root_of p' y = root_of p y.
Proof.
  intros Hp Hx. apply (find_depth _ p x (nonroots p)); [done|done|apply Hp|].
  unfold find_fuel. pose proof (nonroots_le p). lia.
Qed.

(** [union] merges the classes of [x] and [y] and no others. *)
Lemma union_spec (p : list nat) (x y : nat) :
  forest p -> x < length p -> y < length p ->
  exists p', union p x y = Some p'
             /\ forest p' /\ length p' = length p
             /\ forall a, root_of p' a
                  = if decide (root_of p a = root_of p x) then root_of p y
                    else root_of p a.
Proof.
  intros Hp Hx Hy. unfold union.
  destruct (find_spec p x Hp Hx) as (p1 & -> & Hp1 & Hlen1 & Hr1).
  destruct (find_spec p1 y Hp1) as (p2 & -> & Hp2 & Hlen2 & Hr2); [lia|].
  rewrite Hr1. case_decide as Hne.
  - destruct (link_forest p2 (root_of p x) (root_of p y)) as [Hp3 Hr3]; try done.
    + rewrite Hlen2, Hlen1. by apply root_of_lt.
    + rewrite Hlen2, Hlen1. by apply root_of_lt.
    + unfold is_root. rewrite <- (Hr1 x), <- (Hr2 x). by apply root_of_is_root.
    + unfold is_root. rewrite <- (Hr1 y), <- (Hr2 y). by apply root_of_is_root.
    + eexists. split; [done|]. split; [done|]. split.
      * rewrite length_insert. lia.
      * intros a. rewrite Hr3, Hr2, Hr1. done.
  - exists p2. split; [done|]. split; [done|]. split; [lia|].
    intros a. rewrite Hr2, Hr1. case_decide as E; [|done].
    by rewrite E.
Qed.

(** [list(range(n))]: every element is its own root. *)
Lemma par_range (n x : nat) : par (seq 0 n) x = x.
Proof.
  unfold par. destruct (decide (x < n)) as [Hx|Hx].
  - by rewrite lookup_seq_lt.
  - rewrite lookup_seq_ge by lia. done.
Qed.

Lemma walk_range (n k x : nat) : walk k (seq 0 n) x = x.
Proof. apply walk_root, par_range. Qed.

Lemma forest_range (n : nat) : forest (seq 0 n).
Proof.
  split.
  - intros x Hx. by rewrite par_range.
  - intros x. unfold is_root. by rewrite walk_range, par_range.
Qed.

Lemma root_of_range (n x : nat) : root_of (seq 0 n) x = x.
Proof. apply walk_range. Qed.

End ForestFacts.

(** * What group_connected_circles computes *)

Module GroupingFacts.
Import App ForestFacts.

Section closure.
Context {A : Type} (E : relation A).

Lemma rtsc_subrel (E' : relation A) (a b : A) :
  (forall u v, E u v -> E' u v) -> rtsc E a b -> rtsc E' a b.
Proof.
  intros Hsub H. induction H as [a|a c b Hac _ IH]; [done|].
  etrans; [|exact IH]. apply rtc_once. destruct Hac; [left|right]; by apply Hsub.
Qed.

(** Adding one edge joins the two classes it links, and nothing else. *)
Lemma rtsc_add_edge (i j a b : A) :
  rtsc (fun u v => E u v \/ (u = i /\ v = j)) a b
  <-> rtsc E a b \/ (rtsc E a i /\ rtsc E j b) \/ (rtsc E a j /\ rtsc E i b).
Proof.
  split.
  - intros H. induction H as [a|a c b Hac _ IH]; [by left|].
    assert (Hstep : rtsc E a c \/ (a = i /\ c = j) \/ (a = j /\ c = i)).
    { destruct Hac as [[?|?]|[?|[-> ->]]]; [left; by apply rtc_once; left
        | by right; left | left; by apply rtc_once; right | by right; right]. }
    destruct Hstep as [Hr|[[-> ->]|[-> ->]]].
    + destruct IH as [?|[[??]|[??]]].
      * left. by etrans.
      * right; left. split; [by etrans|done].
      * right; right. split; [by etrans|done].
    + destruct IH as [?|[[??]|[??]]].
      * right; left. done.
      * left. etrans; [symmetry; eassumption|done].
      * left. done.
    + destruct IH as [?|[[??]|[??]]].
      * right; right. done.
      * left. done.
      * left. etrans; [symmetry; eassumption|done].
  - assert (Hin : forall u v, rtsc E u v -> rtsc (fun u v => E u v \/ (u = i /\ v = j)) u v).
    { intros u v. apply rtsc_subrel. by left. }
    assert (Hij : rtsc (fun u v => E u v \/ (u = i /\ v = j)) i j).
    { apply rtc_once. left. by right. }
    intros [?|[[??]|[??]]].
    + by apply Hin.
    + etrans; [by apply Hin|]. etrans; [exact Hij|]. by apply Hin.
    + etrans; [by apply Hin|]. etrans; [symmetry; exact Hij|]. by apply Hin.
Qed.

Lemma rtsc_no_edge (a b : A) : (forall u v, ~ E u v) -> rtsc E a b -> a = b.
Proof.
  intros Hno H. induction H as [a|a c b Hac _ IH]; [done|].
  destruct Hac as [Hac|Hac]; by apply Hno in Hac.
Qed.
End closure.

Section grouping.
Context (circles : list Circle).


Lemma linked_inv_start : linked_inv circles [] (seq 0 (length circles)).
Proof.
  split.
  - apply forest_range.
  - apply length_seq.
  - intros a b. unfold same_root. rewrite !root_of_range. split.
    + by intros ->.
    + apply rtsc_no_edge. intros u v [_ Hin]. by apply elem_of_nil in Hin.
Qed.

Lemma connect_pair_spec (done_ : list (nat * nat)) (p : list nat) (i j : nat) :
  linked_inv circles done_ p -> i < j < length circles ->
  exists p', connect_pair circles i (Some p) j = Some p'
             /\ linked_inv circles (done_ ++ [(i, j)]) p'.
Proof.
  intros [Hp Hlen Hroots] [Hij Hj].
  destruct (lookup_lt_is_Some_2 circles i) as [c1 Hc1]; [lia|].
  destruct (lookup_lt_is_Some_2 circles j) as [c2 Hc2]; [lia|].
  unfold connect_pair. rewrite Hc1, Hc2.
  destruct (touching c1 c2) eqn:Htouch.
  - destruct (union_spec p i j Hp) as (p' & Hu & Hp' & Hlen' & Hr'); [lia|lia|].
    exists p'. split; [done|]. split; [done|lia|].
    intros a b.
    assert (Hedge : edge circles i j) by (split; [done|]; by exists c1, c2).
    assert (Hrel : rtsc (edge_in circles (done_ ++ [(i, j)])) a b
              <-> rtsc (fun u v => edge_in circles done_ u v \/ (u = i /\ v = j)) a b).
    { split; apply rtsc_subrel; intros u v.
      - intros [He Hin]. apply elem_of_app in Hin as [Hin|Hin]; [by left|right].
        apply list_elem_of_singleton in Hin. by inversion Hin.
      - intros [[He Hin]|[-> ->]]; split; try done; apply elem_of_app;
          [by left|right; by apply list_elem_of_singleton]. }
    rewrite Hrel, rtsc_add_edge, <- !Hroots. unfold same_root. rewrite !Hr'.
    clear. repeat case_decide; split; intros; intuition congruence.
  - exists p. split; [done|]. split; [done|done|].
    intros a b. rewrite Hroots. split; apply rtsc_subrel; intros u v [He Hin].
    + split; [done|]. apply elem_of_app. by left.
    + split; [done|]. apply elem_of_app in Hin as [Hin|Hin]; [done|].
      apply list_elem_of_singleton in Hin. inversion Hin; subst.
      destruct He as (_ & d1 & d2 & Hd1 & Hd2 & Ht). congruence.
Qed.

Lemma connect_pairs_spec (pairs done_ : list (nat * nat)) (p : list nat) :
  (forall ij, ij ∈ pairs -> ij.1 < ij.2 < length circles) ->
  linked_inv circles done_ p ->
  exists p', connect_pairs circles pairs (Some p) = Some p'
             /\ linked_inv circles (done_ ++ pairs) p'.
Proof.
  revert done_ p. induction pairs as [|[i j] pairs IH]; intros done_ p Hpairs Hinv.
  { exists p. by rewrite app_nil_r. }
  destruct (connect_pair_spec done_ p i j Hinv) as (p1 & Hstep & Hinv1).
  { apply (Hpairs (i, j)). left. }
  destruct (IH (done_ ++ [(i, j)]) p1) as (p2 & Hrest & Hinv2); [|done|].
  { intros ij Hin. apply Hpairs. by right. }
  exists p2. unfold connect_pairs in *. cbn [fold_left fst snd]. rewrite Hstep.
  split; [done|]. by rewrite <- app_assoc in Hinv2.
Qed.

Lemma elem_of_all_pairs (n i j : nat) : (i, j) ∈ all_pairs n <-> i < j < n.
Proof.
  unfold all_pairs. rewrite list_elem_of_bind. split.
  - intros (i' & Hin & Hi'). apply list_elem_of_fmap in Hin as (j' & Heq & Hj').
    inversion Heq; subst. apply elem_of_seq in Hi', Hj'. lia.
  - intros Hij. exists i. split.
    + apply list_elem_of_fmap. exists j. split; [done|]. apply elem_of_seq. lia.
    + apply elem_of_seq. lia.
Qed.

Lemma connect_all_pairs :
  connect_all circles
  = connect_pairs circles (all_pairs (length circles)) (Some (seq 0 (length circles))).
Proof.
  unfold connect_all, connect_pairs, all_pairs.
  generalize (Some (seq 0 (length circles))) as init.
  generalize (length circles) at 1 3 as n.
  generalize (seq 0 (length circles)) as is_.
  intros is_ n. induction is_ as [|i is_ IH]; intros init; [done|].
  simpl. rewrite fold_left_app, <- IH. f_equal.
  unfold connect_row. generalize (seq (S i) (n - S i)) as js. clear.
  intros js. revert init. induction js as [|j js IH]; intros init; [done|].
  simpl. apply IH.
Qed.

Lemma connect_all_spec :
  exists p, connect_all circles = Some p
            /\ forest p /\ length p = length circles
            /\ forall a b, same_root p a b <-> linked circles a b.
Proof.
  rewrite connect_all_pairs.
  destruct (connect_pairs_spec (all_pairs (length circles)) [] (seq 0 (length circles)))
    as (p & Hrun & [Hp Hlen Hroots]).
  - intros [i j] Hin. by apply elem_of_all_pairs in Hin.
  - apply linked_inv_start.
  - exists p. split; [done|]. split; [done|]. split; [done|].
    intros a b. rewrite Hroots. split; apply rtsc_subrel; intros u v.
    + by intros [He _].
    + intros He. split; [done|]. apply elem_of_all_pairs.
      destruct He as (Huv & c1 & c2 & _ & Hv & _).
      apply lookup_lt_Some in Hv. lia.
Qed.
(** *** The dictionary of groups *)

Lemma groups_append_keys_in (G : list (nat * list Circle)) (r : nat) (c : Circle) :
  r ∈ G.*1 -> (groups_append G r c).*1 = G.*1.
Proof.
  induction G as [|[r1 g1] G IH]; simpl; intros Hr; [by apply elem_of_nil in Hr|].
  case_decide; simpl; [done|].
  apply elem_of_cons in Hr as [Hr|Hr]; [congruence|]. f_equal. by apply IH.
Qed.

Lemma groups_append_new (G : list (nat * list Circle)) (r : nat) (c : Circle) :
  r ∉ G.*1 -> groups_append G r c = G ++ [(r, [c])].
Proof.
  induction G as [|[r1 g1] G IH]; simpl; intros Hr; [done|].
  apply not_elem_of_cons in Hr as [Hne Hr].
  rewrite decide_False by done. by rewrite IH.
Qed.

Lemma groups_append_elem (G : list (nat * list Circle)) (r r' : nat)
    (c : Circle) (g : list Circle) :
  NoDup G.*1 -> r ∈ G.*1 ->
  (r', g) ∈ groups_append G r c ->
  (r' = r /\ exists g0, (r, g0) ∈ G /\ g = g0 ++ [c]) \/ (r' <> r /\ (r', g) ∈ G).
Proof.
  induction G as [|[r1 g1] G IH]; simpl; intros Hnd Hr Hin;
    [by apply elem_of_nil in Hr|].
  apply NoDup_cons in Hnd as [Hr1 Hnd].
  case_decide as Heq.
  - subst r1. apply elem_of_cons in Hin as [Hin|Hin].
    + inversion Hin; subst. left. split; [done|]. exists g1. split; [left|done].
    + right. split.
      * intros ->. apply Hr1. apply list_elem_of_fmap. by exists (r, g).
      * by right.
  - apply elem_of_cons in Hr as [Hr|Hr]; [congruence|].
    apply elem_of_cons in Hin as [Hin|Hin].
    + inversion Hin; subst. right. split; [done|left].
    + destruct (IH Hnd Hr Hin) as [(-> & g0 & H0 & ->)|[Hne H0]].
      * left. split; [done|]. exists g0. split; [by right|done].
      * right. split; [done|by right].
Qed.

Lemma members_snoc (p0 : list nat) (is_ : list nat) (i r : nat) (c : Circle) :
  circles !! i = Some c ->
  members circles p0 (is_ ++ [i]) r
  = members circles p0 is_ r ++ (if decide (root_of p0 i = r) then [c] else []).
Proof.
  intros Hc. unfold members. rewrite omap_app. simpl.
  case_decide; [by rewrite Hc|done].
Qed.

Lemma members_none (p0 : list nat) (is_ : list nat) (r : nat) :
  (forall i, i ∈ is_ -> root_of p0 i <> r) -> members circles p0 is_ r = [].
Proof.
  intros Hno. unfold members. induction is_ as [|i is_ IH]; [done|].
  simpl. rewrite decide_False by (apply Hno; left). apply IH.
  intros j Hj. apply Hno. by right.
Qed.


Lemma collect_step_spec (p0 : list nat) (is_ : list nat) (i : nat)
    (st : list nat * list (nat * list Circle)) :
  collect_inv circles p0 is_ st -> i < length circles ->
  exists st', collect_step circles (Some st) i = Some st'
              /\ collect_inv circles p0 (is_ ++ [i]) st'.
Proof.
  destruct st as [p G]. intros [Hp Hlen Hroots Hnd Hkeys Hgroups] Hi.
  cbn [fst snd] in *. unfold collect_step.
  destruct (lookup_lt_is_Some_2 circles i Hi) as [c Hc]. rewrite Hc.
  destruct (find_spec p i Hp) as (p' & -> & Hp' & Hlen' & Hr'); [lia|].
  rewrite Hroots. set (r := root_of p0 i).
  eexists. split; [done|].
  assert (Hkeys' : forall r', (exists k, k ∈ is_ ++ [i] /\ root_of p0 k = r')
             <-> (exists k, k ∈ is_ /\ root_of p0 k = r') \/ r' = r).
  { intros r'. split.
    - intros (k & Hk & Hkr). apply elem_of_app in Hk as [Hk|Hk]; [left; eauto|right].
      apply list_elem_of_singleton in Hk. by subst.
    - intros [(k & Hk & Hkr)| ->].
      + exists k. split; [apply elem_of_app; by left|done].
      + exists i. split; [apply elem_of_app; right; by apply list_elem_of_singleton|done]. }
  destruct (decide (r ∈ G.*1)) as [Hin|Hnin].
  - split; simpl.
    + done.
    + lia.
    + intros y. by rewrite Hr'.
    + by rewrite groups_append_keys_in.
    + intros r'. rewrite groups_append_keys_in by done. rewrite Hkeys', Hkeys.
      split; [by left|]. intros [?| ->]; [done|]. by apply Hkeys.
    + intros r' g Hel. rewrite (members_snoc _ _ _ _ c) by done. fold r.
      destruct (groups_append_elem _ _ _ _ _ Hnd Hin Hel) as [(-> & g0 & H0 & ->)|[Hne H0]].
      * rewrite decide_True by done. f_equal. by apply Hgroups.
      * rewrite decide_False by done. rewrite app_nil_r. by apply Hgroups.
  - rewrite groups_append_new by done. split; simpl.
    + done.
    + lia.
    + intros y. by rewrite Hr'.
    + rewrite fmap_app. apply NoDup_app. split; [done|]. split; [|apply NoDup_singleton].
      intros x Hx Hx'. apply list_elem_of_singleton in Hx'. simpl in Hx'. by subst.
    + intros r'. rewrite fmap_app, elem_of_app, Hkeys', Hkeys. simpl.
      by rewrite list_elem_of_singleton.
    + intros r' g Hel. rewrite (members_snoc _ _ _ _ c) by done. fold r.
      apply elem_of_app in Hel as [Hel|Hel].
      * rewrite decide_False.
        -- rewrite app_nil_r. by apply Hgroups.
        -- intros <-. apply Hnin. apply list_elem_of_fmap. by exists (r, g).
      * apply list_elem_of_singleton in Hel. inversion Hel; subst.
        rewrite decide_True by done. rewrite members_none; [done|].
        intros k Hk Hkr. apply Hnin, Hkeys. by exists k.
Qed.

Lemma collect_spec (p0 : list nat) (more is_ : list nat)
    (st : list nat * list (nat * list Circle)) :
  (forall i, i ∈ more -> i < length circles) ->
  collect_inv circles p0 is_ st ->
  exists st', fold_left (collect_step circles) more (Some st) = Some st'
              /\ collect_inv circles p0 (is_ ++ more) st'.
Proof.
  revert is_ st. induction more as [|i more IH]; intros is_ st Hmore Hinv.
  { exists st. by rewrite app_nil_r. }
  destruct (collect_step_spec p0 is_ i st Hinv) as (st1 & Hstep & Hinv1).
  { apply Hmore. left. }
  destruct (IH (is_ ++ [i]) st1) as (st2 & Hrest & Hinv2); [|done|].
  { intros k Hk. apply Hmore. by right. }
  exists st2. cbn [fold_left]. rewrite Hstep. split; [done|].
  by rewrite <- app_assoc in Hinv2.
Qed.

(** The groups are the classes of positions joined by chains of edges. *)
Lemma group_connected_circles_spec :
  exists groups,
    group_connected_circles circles = Some groups
    /\ forall a b,
         (exists g, g ∈ groups /\ a ∈ g /\ b ∈ g)
         <-> exists i j, circles !! i = Some a /\ circles !! j = Some b
                         /\ linked circles i j.
Proof.
  unfold group_connected_circles.
  destruct (decide (circles = [])) as [Hnil|Hne].
  { rewrite Hnil. exists []. split; [done|]. intros a b. split.
    - intros (g & Hg & _). by apply elem_of_nil in Hg.
    - intros (i & j & Hi & _). by rewrite lookup_nil in Hi. }
  destruct connect_all_spec as (p0 & Hrun & Hp0 & Hlen0 & Hlinked).
  destruct (collect_spec p0 (seq 0 (length circles)) [] (p0, [])) as ([p G] & Hfold & Hinv).
  { intros i Hi. apply elem_of_seq in Hi. lia. }
  { split; simpl; try done.
    - constructor.
    - intros r. split; [intros Hr; by apply elem_of_nil in Hr|].
      intros (i & Hi & _). by apply elem_of_nil in Hi.
    - intros r g Hel. by apply elem_of_nil in Hel. }
  destruct Hinv as [_ _ _ Hnd Hkeys Hgroups]. simpl in *.
  exists G.*2. split.
  { destruct circles; [done|]. by rewrite Hrun, Hfold. }
  assert (Hmem : forall a r, a ∈ members circles p0 (seq 0 (length circles)) r
             <-> exists i, circles !! i = Some a /\ root_of p0 i = r).
  { intros a r. unfold members. rewrite list_elem_of_omap. split.
    - intros (i & _ & Hi). case_decide; [eauto|done].
    - intros (i & Hi & Hr). exists i. split.
      + apply elem_of_seq. apply lookup_lt_Some in Hi. lia.
      + by rewrite decide_True. }
  intros a b. split.
  - intros (g & Hg & Ha & Hb). apply list_elem_of_fmap in Hg as ([r g'] & -> & Hel).
    simpl in *. rewrite (Hgroups _ _ Hel) in Ha, Hb.
    apply Hmem in Ha as (i & Hi & Hri). apply Hmem in Hb as (j & Hj & Hrj).
    exists i, j. split; [done|]. split; [done|]. apply Hlinked.
    unfold same_root. congruence.
  - intros (i & j & Hi & Hj & Hij). apply Hlinked in Hij. unfold same_root in Hij.
    assert (Hr : root_of p0 i ∈ G.*1).
    { apply Hkeys. exists i. split; [|done]. apply elem_of_seq.
      apply lookup_lt_Some in Hi. lia. }
    apply list_elem_of_fmap in Hr as ([r g] & Hr & Hel). simpl in Hr.
    exists g. split; [apply list_elem_of_fmap; by exists (r, g)|].
    rewrite (Hgroups _ _ Hel). split; apply Hmem; [exists i|exists j]; split; congruence.
Qed.
End grouping.

(** A pair that passes the test ends in one group. *)
Lemma touching_same_group (circles : list Circle) (i j : nat) (c1 c2 : Circle) :
  i < j -> circles !! i = Some c1 -> circles !! j = Some c2 ->
  touching c1 c2 = true -> same_group circles c1 c2.
Proof.
  intros Hij H1 H2 Ht.
  destruct (group_connected_circles_spec circles) as (groups & Hrun & Hspec).
  destruct (proj2 (Hspec c1 c2)) as (g & Hg & Ha & Hb).
  - exists i, j. split; [done|]. split; [done|]. apply rtc_once. left.
    split; [done|]. by exists c1, c2.
  - by exists groups, g.
Qed.

(** One direction of the transport along a permutation. *)
Lemma same_group_permuted (circles circles' : list Circle) (a b : Circle) :
  circles ≡ₚ circles' ->
  (forall x y, x ∈ circles -> y ∈ circles -> touching x y = touching y x) ->
  same_group circles a b -> same_group circles' a b.
Proof.
  intros Hperm Hsym (groups & g & Hrun & Hg & Ha & Hb).
  apply Permutation_inj in Hperm as (Hlen & f & Hinj & Hf).
  destruct (group_connected_circles_spec circles) as (groups0 & Hrun0 & Hspec).
  rewrite Hrun in Hrun0. inversion Hrun0; subst groups0; clear Hrun0.
  destruct (proj1 (Hspec a b)) as (i & j & Hi & Hj & Hlink); [by exists g|].
  assert (Hmove : forall u v, linked circles u v -> linked circles' (f u) (f v)).
  { intros u v H. induction H as [u|u w v Huw _ IH]; [done|].
    etrans; [|exact IH]. apply rtc_once.
    assert (Hedge : forall s t, edge circles s t -> sc (edge circles') (f s) (f t)).
    { intros s t (Hst & c1 & c2 & Hs & Ht & Htouch).
      assert (Hne : f s <> f t) by (intros E; apply Hinj in E; lia).
      destruct (decide (f s < f t)) as [Hlt|Hge].
      - left. split; [done|]. exists c1, c2. by rewrite <- !Hf.
      - right. split; [lia|]. exists c2, c1. rewrite <- !Hf.
        split; [done|]. split; [done|]. rewrite <- Htouch. symmetry.
        apply Hsym; eapply list_elem_of_lookup_2; eassumption. }
    destruct Huw as [Huw|Huw]; [by apply Hedge|].
    apply Hedge in Huw. by symmetry. }
  destruct (group_connected_circles_spec circles') as (groups' & Hrun' & Hspec').
  destruct (proj2 (Hspec' a b)) as (g' & Hg' & Ha' & Hb').
  - exists (f i), (f j). rewrite <- !Hf. split; [done|]. split; [done|]. by apply Hmove.
  - by exists groups', g'.
Qed.

(** On one latitude the test of line 761 is symmetric. *)
Lemma touching_same_latitude (a b : Circle) :
  (c_center a).2 = (c_center b).2 -> touching a b = touching b a.
Proof.
  intros Hlat. unfold touching, center_distance. rewrite Hlat.
  apply bool_decide_ext.
  replace (((c_center a).1 - (c_center b).1) * 111000
           * Rabs (cos (radians (c_center b).2))
           * (((c_center a).1 - (c_center b).1) * 111000
              * Rabs (cos (radians (c_center b).2)))
           + ((c_center b).2 - (c_center b).2) * 111000
             * (((c_center b).2 - (c_center b).2) * 111000))%R
    with (((c_center b).1 - (c_center a).1) * 111000
          * Rabs (cos (radians (c_center b).2))
          * (((c_center b).1 - (c_center a).1) * 111000
             * Rabs (cos (radians (c_center b).2)))
          + ((c_center b).2 - (c_center b).2) * 111000
            * (((c_center b).2 - (c_center b).2) * 111000))%R by ring.
  replace (c_radius a + c_radius b)%R with (c_radius b + c_radius a)%R by ring.
  done.
Qed.

(** The two disks of the fixture: the test depends on which comes first. *)
Lemma disk_A_B_apart : touching disk_A disk_B = false.
Proof.
  apply bool_decide_eq_false. unfold center_distance, disk_A, disk_B,
    CONNECTION_TOLERANCE, radians. simpl.
  replace (0 * (PI / 180))%R with 0%R by ring.
  rewrite cos_0, Rabs_R1. apply Rle_not_lt.
  replace (0 + 6660355 + 200)%R with 6660555%R by lra.
  rewrite <- (sqrt_square 6660555) at 1 by lra.
  apply sqrt_le_1_alt. lra.
Qed.

Lemma disk_B_A_touch : touching disk_B disk_A = true.
Proof.
  apply bool_decide_eq_true. unfold center_distance, disk_A, disk_B,
    CONNECTION_TOLERANCE, radians. simpl.
  replace (60 * (PI / 180))%R with (PI / 3)%R by lra.
  rewrite cos_PI3, Rabs_pos_eq by lra.
  replace (6660355 + 0 + 200)%R with 6660555%R by lra.
  rewrite <- (sqrt_square 6660555) at 1 by lra.
  apply sqrt_lt_1_alt. lra.
Qed.

Lemma disk_C_D_distance : center_distance disk_C disk_D = 111%R.
Proof.
  unfold center_distance, disk_C, disk_D, radians. simpl.
  replace (0 * (PI / 180))%R with 0%R by ring. rewrite cos_0, Rabs_R1.
  replace ((0 - 0.001) * 111000 * 1 * ((0 - 0.001) * 111000 * 1)
           + (0 - 0) * 111000 * ((0 - 0) * 111000))%R with (111 * 111)%R by lra.
  apply sqrt_square. lra.
Qed.

Lemma disks_C_D_symmetric (x y : Circle) :
  x ∈ [disk_C; disk_D] -> y ∈ [disk_C; disk_D] -> touching x y = touching y x.
Proof.
  intros Hx Hy. apply touching_same_latitude.
  repeat (apply elem_of_cons in Hx as [->|Hx]); [| |by apply elem_of_nil in Hx];
    repeat (apply elem_of_cons in Hy as [->|Hy]); try (by apply elem_of_nil in Hy); done.
Qed.

Lemma disk_A_B_different : disk_A <> disk_B.
Proof. unfold disk_A, disk_B. intros E. discriminate E. Qed.

Example groups_A_then_B :
  group_connected_circles [disk_A; disk_B] = Some [[disk_A]; [disk_B]].
Proof.
  unfold group_connected_circles, connect_all, connect_row, connect_pair.
  cbn -[touching]. rewrite disk_A_B_apart.
  reflexivity.
Qed.

Example groups_B_then_A :
  group_connected_circles [disk_B; disk_A] = Some [[disk_B; disk_A]].
Proof.
  unfold group_connected_circles, connect_all, connect_row, connect_pair.
  cbn -[touching]. rewrite disk_B_A_touch.
  reflexivity.
Qed.

End GroupingFacts.

(** * The transit isochrone of app.py *)

Module IsochroneFacts.
Import App.

(** *** Riding along a line *)

Lemma ride_emits (fuel : nat) :
  forall stops w minutes direction idx prev acc l,
    ride fuel stops w minutes direction idx prev acc = Some l ->
    Forall (emitted_ok minutes) l.
Proof.
  induction fuel as [|fuel IH]; intros stops w minutes direction idx prev acc l; simpl.
  { case_bool_decide; [done|]. intros [= <-]. constructor. }
  case_bool_decide; [|intros [= <-]; constructor].
  destruct (stops !! Z.to_nat (idx + direction)) as [cur|]; [|done].
  case_decide as Hlt; [|intros [= <-]; constructor].
  destruct (ride fuel _ _ _ _ _ _ _) as [l'|] eqn:Hrest; [|done].
  intros [= <-]. constructor; [|by eapply IH].
  unfold emitted_ok. simpl. split; [done|]. split; [done|]. split; [lra|done].
Qed.

Lemma ride_total (fuel : nat) :
  forall stops w minutes direction idx prev acc,
    (direction = 1 /\ 0 <= idx /\ Z.of_nat (length stops) - 1 - idx <= Z.of_nat fuel
     \/ direction = -1 /\ idx <= Z.of_nat (length stops) /\ idx <= Z.of_nat fuel)%Z ->
    exists l, ride fuel stops w minutes direction idx prev acc = Some l.
Proof.
  induction fuel as [|fuel IH]; intros stops w minutes direction idx prev acc Hb; simpl.
  { rewrite bool_decide_eq_false_2 by lia. by eexists. }
  case_bool_decide as Hc; [|by eexists].
  destruct (lookup_lt_is_Some_2 stops (Z.to_nat (idx + direction))) as [cur ->]; [lia|].
  case_decide; [|by eexists].
  destruct (IH stops w minutes direction (idx + direction)%Z cur
              (acc + planar_distance (stop_lat prev) (stop_lat prev) (stop_lon prev)
                       (stop_lat cur) (stop_lon cur))%R) as [l ->]; [lia|].
  by eexists.
Qed.

(** A larger budget lets a ride emit at least as many stops. *)
Lemma ride_mono (fuel : nat) :
  forall stops w direction idx prev acc (m1 m2 : R) l1 l2,
    (m1 <= m2)%R ->
    ride fuel stops w m1 direction idx prev acc = Some l1 ->
    ride fuel stops w m2 direction idx prev acc = Some l2 ->
    length l1 <= length l2.
Proof.
  induction fuel as [|fuel IH]; intros stops w direction idx prev acc m1 m2 l1 l2 Hm; simpl.
  { case_bool_decide; [done|]. intros [= <-] _. simpl. lia. }
  case_bool_decide; [|intros [= <-] _; simpl; lia].
  destruct (stops !! Z.to_nat (idx + direction)) as [cur|]; [|done].
  repeat case_decide; try lra.
  - destruct (ride fuel _ _ m1 _ _ _ _) as [l1'|] eqn:Hr1; [|done].
    destruct (ride fuel _ _ m2 _ _ _ _) as [l2'|] eqn:Hr2; [|done].
    intros [= <-] [= <-]. simpl. apply le_n_S. by eapply IH.
  - intros [= <-] _. simpl. lia.
  - intros [= <-] _. simpl. lia.
Qed.

(** *** The closest stop *)

Lemma closest_fold_index (center_lat center_lon : R) (items : list (nat * Stop))
    (n : nat) (best : option (Stop * R * nat)) :
  (forall item, item ∈ items -> item.1 < n) ->
  (forall s d i, best = Some (s, d, i) -> i < n) ->
  forall s d i,
    fold_left (closest_step center_lat center_lon) items best = Some (s, d, i) -> i < n.
Proof.
  revert best. induction items as [|[k stop] items IH]; intros best Hitems Hbest s d i;
    simpl; [by apply Hbest|].
  apply IH.
  - intros item Hin. apply Hitems. by right.
  - assert (Hk : k < n) by (apply (Hitems (k, stop)); left).
    intros s' d' i'. destruct best as [[[s0 d0] i0]|].
    + case_decide; [by intros [= _ _ <-]|]. apply Hbest.
    + by intros [= _ _ <-].
Qed.

Lemma closest_stop_index (center_lat center_lon : R) (stops : list Stop) s d i :
  closest_stop center_lat center_lon stops = Some (s, d, i) -> i < length stops.
Proof.
  apply closest_fold_index; [|done].
  intros [k stop] Hin. simpl.
  apply list_elem_of_lookup in Hin as [j Hj].
  apply lookup_zip_with_Some in Hj as (a & b & [= <- <-] & Ha & _).
  apply lookup_seq in Ha. lia.
Qed.

(** *** One route, all routes *)

Lemma ride_directions_total (dirs : list Z) stops w minutes (i : nat) closest :
  i < length stops -> (forall d, d ∈ dirs -> d = 1%Z \/ d = (-1)%Z) ->
  exists l, ride_directions dirs stops w minutes i closest = Some l.
Proof.
  intros Hi. induction dirs as [|d dirs IH]; intros Hd; simpl; [by eexists|].
  destruct (ride_total (length stops) stops w minutes d (Z.of_nat i) closest 0%R)
    as [here ->].
  { destruct (Hd d) as [->| ->]; [left|left|right]; lia. }
  destruct IH as [more ->]; [intros d' Hd'; apply Hd; by right|].
  by eexists.
Qed.

Lemma directions_unit (i : nat) (stops : list Stop) d :
  d ∈ directions i stops -> d = 1%Z \/ d = (-1)%Z.
Proof.
  unfold directions. rewrite elem_of_app.
  intros [H|H]; case_decide; try (by apply elem_of_nil in H);
    apply list_elem_of_singleton in H; auto.
Qed.

Lemma process_route_total (lat lon minutes : R) (route : Route) :
  exists o, process_route lat lon minutes route = Some o.
Proof.
  unfold process_route.
  destruct (closest_stop lat lon (route_stops route)) as [[[s d] i]|] eqn:Hc;
    [|by eexists].
  repeat case_decide; try by eexists.
  destruct (ride_directions_total (directions i (route_stops route)) (route_stops route)
              (d / WALK_SPEED)%R minutes i s) as [l ->].
  - by eapply closest_stop_index.
  - apply directions_unit.
  - by eexists.
Qed.

Lemma process_routes_total (lat lon minutes : R) (routes : list (string * Route)) :
  exists os, process_routes lat lon minutes routes = Some os.
Proof.
  induction routes as [|[id route] routes [os IH]]; simpl; [by eexists|].
  destruct (process_route_total lat lon minutes route) as [o ->]. rewrite IH.
  by eexists.
Qed.

Lemma ride_directions_emits (dirs : list Z) stops w minutes (i : nat) closest l :
  ride_directions dirs stops w minutes i closest = Some l ->
  Forall (emitted_ok minutes) l.
Proof.
  revert l. induction dirs as [|d dirs IH]; intros l; simpl; [intros [= <-]; constructor|].
  destruct (ride _ _ _ _ _ _ _ _) as [here|] eqn:Hh; [|done].
  destruct (ride_directions _ _ _ _ _ _) as [more|]; [|done].
  intros [= <-]. apply Forall_app. split; [by eapply ride_emits|by apply IH].
Qed.

Lemma ride_directions_mono (dirs : list Z) stops w (m1 m2 : R) (i : nat) closest l1 l2 :
  (m1 <= m2)%R ->
  ride_directions dirs stops w m1 i closest = Some l1 ->
  ride_directions dirs stops w m2 i closest = Some l2 ->
  length l1 <= length l2.
Proof.
  intros Hm. revert l1 l2. induction dirs as [|d dirs IH]; intros l1 l2; simpl.
  { intros [= <-] [= <-]. done. }
  destruct (ride _ _ _ m1 _ _ _ _) as [h1|] eqn:H1; [|done].
  destruct (ride_directions _ _ _ m1 _ _) as [r1|]; [|done].
  destruct (ride _ _ _ m2 _ _ _ _) as [h2|] eqn:H2; [|done].
  destruct (ride_directions _ _ _ m2 _ _) as [r2|]; [|done].
  intros [= <-] [= <-]. rewrite !length_app.
  pose proof (ride_mono _ _ _ _ _ _ _ _ _ _ _ Hm H1 H2).
  specialize (IH r1 r2 eq_refl eq_refl). lia.
Qed.

Lemma process_route_emits (lat lon minutes : R) (route : Route) o :
  process_route lat lon minutes route = Some o ->
  Forall (emitted_ok minutes) (route_reached (route, o)).
Proof.
  unfold process_route, route_reached.
  destruct (closest_stop lat lon (route_stops route)) as [[[s d] i]|];
    [|intros [= <-]; constructor].
  repeat case_decide; try (intros [= <-]; constructor).
  destruct (ride_directions _ _ _ _ _ _) as [l|] eqn:Hl; [|done].
  intros [= <-]. simpl. by eapply ride_directions_emits.
Qed.

Lemma process_route_mono (lat lon m1 m2 : R) (route : Route) o1 o2 :
  (m1 <= m2)%R ->
  process_route lat lon m1 route = Some o1 ->
  process_route lat lon m2 route = Some o2 ->
  length (route_reached (route, o1)) <= length (route_reached (route, o2)).
Proof.
  intros Hm. unfold process_route, route_reached, MAX_WALK_TO_STATION.
  destruct (closest_stop lat lon (route_stops route)) as [[[s d] i]|];
    [|intros [= <-] [= <-]; done].
  repeat case_decide; try lra; try (intros [= <-] _; simpl; lia).
  destruct (ride_directions _ _ _ m1 _ _) as [l1|] eqn:Hd1; [|done].
  destruct (ride_directions _ _ _ m2 _ _) as [l2|] eqn:Hd2; [|done].
  intros [= <-] [= <-]. simpl. by eapply ride_directions_mono.
Qed.

(** A route whose closest stop is too far on foot is skipped. *)
Lemma process_route_far (lat lon minutes : R) (route : Route) s d i :
  closest_stop lat lon (route_stops route) = Some (s, d, i) ->
  (MAX_WALK_TO_STATION minutes < d / WALK_SPEED)%R ->
  process_route lat lon minutes route = Some Skipped.
Proof.
  intros Hc Hfar. unfold process_route. rewrite Hc. by rewrite decide_True.
Qed.

Lemma reachable_stops_emits (routes : list (string * Route)) (lat lon minutes : R) l :
  reachable_stops routes lat lon minutes = Some l -> Forall (emitted_ok minutes) l.
Proof.
  unfold reachable_stops.
  destruct (process_routes lat lon minutes routes) as [os|] eqn:Hos; [|done].
  intros [= <-]. revert os Hos.
  induction routes as [|[id route] routes IH]; intros os; simpl.
  { intros [= <-]. constructor. }
  destruct (process_route lat lon minutes route) as [o|] eqn:Ho; [|done].
  destruct (process_routes lat lon minutes routes) as [os'|]; [|done].
  intros [= <-]. rewrite fmap_cons. simpl. apply Forall_app. split.
  - by eapply process_route_emits.
  - by apply IH.
Qed.

Lemma reachable_stops_mono (routes : list (string * Route)) (lat lon m1 m2 : R) l1 l2 :
  (m1 <= m2)%R ->
  reachable_stops routes lat lon m1 = Some l1 ->
  reachable_stops routes lat lon m2 = Some l2 ->
  length l1 <= length l2.
Proof.
  intros Hm. unfold reachable_stops.
  destruct (process_routes lat lon m1 routes) as [os1|] eqn:H1; [|done].
  destruct (process_routes lat lon m2 routes) as [os2|] eqn:H2; [|done].
  intros [= <-] [= <-]. revert os1 os2 H1 H2.
  induction routes as [|[id route] routes IH]; intros os1 os2; simpl.
  { intros [= <-] [= <-]. done. }
  destruct (process_route lat lon m1 route) as [o1|] eqn:Ho1; [|done].
  destruct (process_routes lat lon m1 routes) as [os1'|]; [|done].
  destruct (process_route lat lon m2 route) as [o2|] eqn:Ho2; [|done].
  destruct (process_routes lat lon m2 routes) as [os2'|]; [|done].
  intros [= <-] [= <-]. rewrite !fmap_cons. simpl. rewrite !length_app.
  pose proof (process_route_mono _ _ _ _ _ _ _ Hm Ho1 Ho2).
  specialize (IH os1' os2' eq_refl eq_refl). lia.
Qed.

(** *** The returned circle *)

Lemma create_circle_geometry_closed (center : Point) (radius : R) (n : nat) :
  exists first rest,
    create_circle_geometry center radius (S n) = Some ((first :: rest) ++ [first])
    /\ length (first :: rest) = S n.
Proof.
  unfold create_circle_geometry. rewrite <- cons_seq, map_cons.
  eexists _, _. split; [done|]. simpl. by rewrite length_map, length_seq.
Qed.

Lemma create_circle_geometry_point (center : Point) (radius : R) (n i : nat) ring :
  create_circle_geometry center radius n = Some ring -> i < n ->
  ring !! i
  = Some ((center.1 + radius / (111000 * Rabs (cos (radians center.2)))
                      * sin (2 * PI * INR i / INR n))%R,
          (center.2 + radius / 111000 * cos (2 * PI * INR i / INR n))%R).
Proof.
  unfold create_circle_geometry. intros Hring Hi.
  set (f := fun i : nat =>
              ((center.1 + radius / (111000 * Rabs (cos (radians center.2)))
                           * sin (2 * PI * INR i / INR n))%R,
               (center.2 + radius / 111000 * cos (2 * PI * INR i / INR n))%R)) in *.
  destruct (map f (seq 0 n)) as [|first rest] eqn:Hpts; [done|].
  assert (Hring' : ring = map f (seq 0 n) ++ [first]).
  { rewrite Hpts. by injection Hring as <-. }
  rewrite Hring', lookup_app_l by (by rewrite length_map, length_seq).
  change (map f (seq 0 n)) with (f <$> seq 0 n).
  by rewrite list_lookup_fmap, lookup_seq_lt.
Qed.


Lemma transit_run_total (routes : list (string * Route)) (lat lon minutes : R) :
  exists run ring,
    transit_run routes lat lon minutes = Some run
    /\ create_circle_geometry (lon, lat) (MAX_WALK_DISTANCE minutes) 32 = Some ring
    /\ f_coordinates (run_feature run) = ring
    /\ f_debug_info (run_feature run)
       = Some (mkDebugInfo (MAX_WALK_TO_STATION minutes) (MAX_WALK_DISTANCE minutes)
                 minutes WALK_SPEED SUBTE_SPEED
                 (default [] ((fun os => concat (route_debug <$> os))
                                <$> process_routes lat lon minutes routes))).
Proof.
  unfold transit_run.
  destruct (process_routes_total lat lon minutes routes) as [os ->].
  destruct (create_circle_geometry_closed (lon, lat) (MAX_WALK_DISTANCE minutes) 31)
    as (first & rest & Hring & _).
  simpl di_max_walk_distance. rewrite Hring. by eexists _, _.
Qed.

(** *** The synthetic lines *)

Lemma planar_distance_north (ref la lo la' : R) :
  (la <= la')%R -> planar_distance ref la lo la' lo = ((la' - la) * 111000)%R.
Proof.
  intros Hle. unfold planar_distance.
  replace (((la' - la) * 111000) ^ 2 + ((lo - lo) * 111000 * Rabs (cos (radians ref))) ^ 2)%R
    with (((la' - la) * 111000) * ((la' - la) * 111000))%R by ring.
  apply sqrt_square. nra.
Qed.


Lemma meridian_closest :
  closest_stop 0 0 (route_stops meridian_line) = Some (mkStop "M0" 0 0, 0%R, 0).
Proof.
  unfold closest_stop, meridian_line.
  cbn [route_stops length seq zip zip_with fold_left closest_step stop_lat stop_lon].
  rewrite !planar_distance_north by lra.
  replace ((0 - 0) * 111000)%R with 0%R by lra.
  by settle.
Qed.

Lemma meridian_ride :
  reachable_stops [("M", meridian_line)] 0 0 30
  = Some [ mkReached (mkStop "M1" 0.01 0) 2.22 27.78 2222.4;
           mkReached (mkStop "M2" 0.02 0) 4.44 25.56 2044.8 ].
Proof.
  unfold reachable_stops, process_routes, process_route. rewrite meridian_closest.
  unfold MAX_WALK_TO_STATION, WALK_SPEED. settle.
  unfold directions, meridian_line.
  cbn [route_stops length]. settle.
  cbn [app ride_directions length ride]. settle.
  change (Z.to_nat (Z.of_nat 0 + 1)) with 1.
  change (Z.to_nat (Z.of_nat 0 + 1 + 1)) with 2.
  cbn [lookup list_lookup stop_lat stop_lon].
  rewrite !planar_distance_north by lra. unfold SUBTE_SPEED, WALK_SPEED. settle.
  cbn [fmap option_fmap option_map app concat list_fmap route_reached snd].
  do 2 f_equal; [|f_equal]; f_equal; lra.
Qed.

Lemma remote_closest :
  closest_stop 0 0 (route_stops remote_line) = Some (mkStop "N" 1 0, 111000%R, 0).
Proof.
  unfold closest_stop, remote_line.
  cbn [route_stops length seq zip zip_with fold_left closest_step stop_lat stop_lon].
  rewrite planar_distance_north by lra. do 3 f_equal. lra.
Qed.

(** *** Rounding to one decimal, and the records of the reached stops *)

Lemma round_half_even_near (x : R) :
  (- (1 / 2) <= IZR (round_half_even x) - x <= 1 / 2)%R.
Proof.
  unfold round_half_even. destruct (base_Int_part x) as [Hle Hgt].
  repeat case_decide; try destruct (Z.even _);
    rewrite ?plus_IZR; lra.
Qed.

Lemma round_half_even_nonneg (x : R) : (0 <= x)%R -> (0 <= round_half_even x)%Z.
Proof.
  intros Hx. unfold round_half_even.
  destruct (base_Int_part x) as [_ Hlo].
  assert (Hf : (0 <= Int_part x)%Z).
  { assert (H : (IZR (-1) < IZR (Int_part x))%R) by lra.
    apply lt_IZR in H. lia. }
  repeat case_decide; try lia. destruct (Z.even _); lia.
Qed.

(** A number less than one half above an integer is rounded down to it. *)
Lemma round_half_even_down (x : R) (z : Z) :
  (IZR z <= x < IZR z + 1 / 2)%R -> round_half_even x = z.
Proof.
  intros Hx. unfold round_half_even.
  assert (E : Int_part x = z) by (symmetry; apply Int_part_spec; lra).
  rewrite E. by rewrite decide_True by lra.
Qed.

(** A number more than one half above an integer is rounded up. *)
Lemma round_half_even_up (x : R) (z : Z) :
  (IZR z + 1 / 2 < x < IZR z + 1)%R -> round_half_even x = (z + 1)%Z.
Proof.
  intros Hx. unfold round_half_even.
  assert (E : Int_part x = z) by (symmetry; apply Int_part_spec; lra).
  rewrite E. rewrite decide_False by lra. by rewrite decide_True by lra.
Qed.

Lemma py_round_nonneg (x : R) (ndigits : nat) :
  (0 <= x)%R -> (0 <= py_round x ndigits)%R.
Proof.
  intros Hx. unfold py_round.
  assert (Hp : (0 < 10 ^ ndigits)%R) by (apply pow_lt; lra).
  assert (H : (0 <= round_half_even (x * 10 ^ ndigits))%Z).
  { apply round_half_even_nonneg. nra. }
  apply IZR_le in H. apply Rmult_le_pos; [done|].
  left. by apply Rinv_0_lt_compat.
Qed.

(** [round(x, 1)] is within one twentieth of [x]. *)
Lemma py_round_1_near (x : R) : (Rabs (py_round x 1 - x) <= 0.05)%R.
Proof.
  unfold py_round. pose proof (round_half_even_near (x * 10 ^ 1)) as H.
  apply Rabs_le. simpl pow in *. lra.
Qed.

(** The debug records of a run are those of the stops it reaches. *)
Lemma stops_reached_of_outcomes (os : list (Route * RouteOutcome)) :
  (route_d ← concat (route_debug <$> os); rd_stops_reached route_d)
  = stop_debug <$> concat (route_reached <$> os).
Proof.
  induction os as [|[route o] os IH]; [done|].
  rewrite !fmap_cons. cbn [concat]. rewrite bind_app, fmap_app. f_equal; [|apply IH].
  unfold route_debug, route_reached. simpl. destruct o as [|closest w reached]; [done|].
  simpl. by rewrite app_nil_r.
Qed.

(** The line of [late_line] seen from the origin with a budget of ten
    minutes: the second stop is reached after 9.99 minutes. *)
Lemma late_closest :
  closest_stop 0 0 (route_stops RideSpec.late_line) = Some (mkStop "L0" 0 0, 0%R, 0).
Proof.
  unfold closest_stop, RideSpec.late_line.
  cbn [route_stops length seq zip zip_with fold_left closest_step stop_lat stop_lon].
  rewrite !planar_distance_north by lra.
  replace ((0 - 0) * 111000)%R with 0%R by lra.
  by settle.
Qed.

Lemma late_ride :
  reachable_stops [("L", RideSpec.late_line)] 0 0 10
  = Some [ mkReached (mkStop "L1" 0.045 0) 9.99 0.01 0.8 ].
Proof.
  unfold reachable_stops, process_routes, process_route. rewrite late_closest.
  unfold MAX_WALK_TO_STATION, WALK_SPEED. settle.
  unfold directions, RideSpec.late_line.
  cbn [route_stops length]. settle.
  cbn [app ride_directions length ride]. settle.
  change (Z.to_nat (Z.of_nat 0 + 1)) with 1.
  cbn [lookup list_lookup stop_lat stop_lon].
  rewrite !planar_distance_north by lra. unfold SUBTE_SPEED, WALK_SPEED. settle.
  cbn [fmap option_fmap option_map app concat list_fmap route_reached snd].
  do 2 f_equal. f_equal; lra.
Qed.

End IsochroneFacts.

(** * The claims of the specification *)

Module Claims.
Import Builder BusAreas App.
Import BuilderFacts BusAreasFacts ForestFacts GroupingFacts IsochroneFacts.


(** The scenario of the specification: a budget of 30 minutes gives an
    origin disk of radius 30 x 0.7 x 80 = 1680 m. *)
Example origin_radius_30 : MAX_WALK_DISTANCE 30 = 1680%R.
Proof. unfold MAX_WALK_DISTANCE, MAX_WALK_TO_STATION, App.WALK_SPEED. lra. Qed.

(** C2. A reachable stop is emitted only while the elapsed time is
    strictly below the budget, with the remaining time equal to budget
    minus elapsed, hence strictly positive: in the ride along a line of the
    web application and in the traversal of the offline script (where the
    elapsed time is the one logged when the stop is visited).  The record
    the web application keeps of a reached stop holds these times rounded
    to one decimal: the records of a run are those of the stops it
    reaches, and the remaining time of a record is the rounded exact one,
    within 0.05 of it and never negative. *)
Theorem emitted_stop_has_time_left :
  (forall (routes : list (string * Route)) (lat lon minutes : R) l r,
      reachable_stops routes lat lon minutes = Some l -> r ∈ l ->
      (r_total_time r < minutes)%R
      /\ r_time_remaining r = (minutes - r_total_time r)%R
      /\ (0 < r_time_remaining r)%R
      /\ sd_time_spent (stop_debug r) = py_round (r_total_time r) 1
      /\ sd_time_remaining (stop_debug r) = py_round (minutes - r_total_time r) 1
      /\ (0 <= sd_time_remaining (stop_debug r))%R
      /\ (Rabs (sd_time_remaining (stop_debug r) - (minutes - r_total_time r))
          <= 0.05)%R)
  /\ (forall (routes : list (string * Route)) (lat lon minutes : R),
        exists run debug_info l,
          transit_run routes lat lon minutes = Some run
          /\ f_debug_info (run_feature run) = Some debug_info
          /\ reachable_stops routes lat lon minutes = Some l
          /\ (route_d ← di_routes_used debug_info; rd_stops_reached route_d)
             = stop_debug <$> l)
  /\ (forall (shape_map : gmap (string * string) (gmap string Entry))
        start_stop total_seconds key results log (r : Result),
        traverse_from_stop_log shape_map start_stop total_seconds key
        = Some (results, log) -> r ∈ results ->
        exists acc, (r.1.1, acc) ∈ log /\ (acc < total_seconds)%Q
                    /\ r.2 = (total_seconds - acc)%Q /\ (0 < r.2)%Q).
Proof.
  split; [|split].
  - intros routes lat lon minutes l r Hl Hr.
    pose proof (reachable_stops_emits _ _ _ _ _ Hl) as Hall.
    rewrite Forall_forall in Hall. destruct (Hall r Hr) as (H1 & H2 & H3 & _).
    split; [done|]. split; [done|]. split; [done|]. split; [done|].
    unfold stop_debug. cbn [sd_time_remaining]. rewrite H2.
    split; [done|]. split; [|apply py_round_1_near].
    apply py_round_nonneg. lra.
  - intros routes lat lon minutes.
    destruct (transit_run_total routes lat lon minutes)
      as (run & ring & Hrun & _ & _ & Hdebug).
    destruct (process_routes_total lat lon minutes routes) as [os Hos].
    rewrite Hos in Hdebug. simpl in Hdebug.
    eexists run, _, (concat (route_reached <$> os)).
    split; [done|]. split; [exact Hdebug|].
    split; [unfold reachable_stops; by rewrite Hos|].
    cbn [di_routes_used]. apply stops_reached_of_outcomes.
  - intros shape_map start total key results log r Hrun Hr.
    destruct (traverse_from_stop_total shape_map start total key)
      as (results' & log' & Hrun' & _ & Hpost & _).
    rewrite Hrun in Hrun'. injection Hrun' as <- <-.
    destruct (post_results _ _ _ _ Hpost r Hr) as [Hnil|Hacc]; [|done].
    by apply elem_of_nil in Hnil.
Qed.

Lemma emitted_stop_has_time_left_witness :
  ((2.22 < 30)%R /\ 27.78%R = (30 - 2.22)%R /\ (0 < 27.78)%R
   /\ sd_time_spent (stop_debug (mkReached (mkStop "M1" 0.01 0) 2.22 27.78 2222.4))
      = py_round 2.22 1
   /\ sd_time_remaining (stop_debug (mkReached (mkStop "M1" 0.01 0) 2.22 27.78 2222.4))
      = py_round (30 - 2.22) 1
   /\ (0 <= sd_time_remaining
              (stop_debug (mkReached (mkStop "M1" 0.01 0) 2.22 27.78 2222.4)))%R
   /\ (Rabs (sd_time_remaining
               (stop_debug (mkReached (mkStop "M1" 0.01 0) 2.22 27.78 2222.4))
             - (30 - 2.22)) <= 0.05)%R)
  /\ exists acc, ("Y", acc) ∈ [("X", 0%Q); ("Y", (0 + 60)%Q)] /\ (acc < 100)%Q
                 /\ (100 - (0 + 60))%Q = (100 - acc)%Q /\ (0 < 100 - (0 + 60))%Q.
Proof.
  split.
  - apply (proj1 emitted_stop_has_time_left [("M", meridian_line)] 0%R 0%R 30%R _
             (mkReached (mkStop "M1" 0.01 0) 2.22 27.78 2222.4) meridian_ride).
    left.
  - apply (proj2 (proj2 emitted_stop_has_time_left) cyclic_shape_map "X" 100%Q
             ("R", "S") _ _ ("Y", "X", (100 - (0 + 60))%Q) cyclic_stops_walk).
    right. left.
Defined.

(** A reached stop whose record shows no time left: on the line of
    [late_line] with a budget of ten minutes the second stop is reached
    after 9.99 minutes, with 0.01 minutes left, and its record reads
    10.0 minutes spent, 0.0 minutes remaining. *)
Lemma recorded_time_left_can_be_zero :
  exists r,
    reachable_stops [("L", RideSpec.late_line)] 0 0 10 = Some [r]
    /\ (0 < r_time_remaining r)%R
    /\ sd_time_remaining (stop_debug r) = 0%R
    /\ sd_time_spent (stop_debug r) = 10%R.
Proof.
  exists (mkReached (mkStop "L1" 0.045 0) 9.99 0.01 0.8).
  split; [apply late_ride|]. cbn [r_time_remaining]. split; [lra|].
  unfold stop_debug, py_round.
  cbn [sd_time_remaining sd_time_spent r_time_remaining r_total_time].
  split.
  - rewrite (round_half_even_down _ 0) by (simpl pow; lra). simpl pow. lra.
  - rewrite (round_half_even_up _ 99) by (simpl pow; lra).
    change (99 + 1)%Z with 100%Z. simpl pow. lra.
Qed.

(** C3. For every adjacency map, starting stop and time budget, cycles
    included, the traversal terminates (with any fuel above the number of
    stops of the group it returns the same result) and visits each stop at
    most once. *)
Theorem traversal_terminates_visiting_once
    (shape_map : gmap (string * string) (gmap string Entry))
    (start_stop : string) (total_seconds : Q) (key : string * string) :
  exists results log,
    traverse_from_stop_log shape_map start_stop total_seconds key = Some (results, log)
    /\ traverse_from_stop shape_map start_stop total_seconds key = Some results
    /\ NoDup log.*1
    /\ forall fuel, size (default ∅ (shape_map !! key)) < fuel ->
         traverse_loop fuel (default ∅ (shape_map !! key)) total_seconds start_stop
           0 ∅ [] [] = Some (results, log).
Proof.
  destruct (traverse_from_stop_total shape_map start_stop total_seconds key)
    as (results & log & Hlog & Hres & Hpost & Hfuel).
  exists results, log. split_and!; try done. apply (post_log_nodup _ _ _ _ Hpost).
Qed.

(** C4, as the code has it.  In the web application a route whose nearest
    stop needs more than 70% of the budget on foot is skipped: it
    contributes no reachable stop, no point and no debug entry.  In the
    offline script the walking time is capped at 70% of the budget instead,
    and the group contributes the rows of the traversal run with what is
    left after the capped walk and the boarding time. *)
Theorem far_group_skipped_or_capped :
  (forall (lat lon minutes : R) (route : Route) s d i,
      closest_stop lat lon (route_stops route) = Some (s, d, i) ->
      (MAX_WALK_TO_STATION minutes < d / App.WALK_SPEED)%R ->
      process_route lat lon minutes route = Some Skipped
      /\ route_reached (route, Skipped) = []
      /\ route_points (route, Skipped) = []
      /\ route_debug (route, Skipped) = [])
  /\ (forall (shape_map : gmap (string * string) (gmap string Entry))
        (stops : gmap string (option Q * option Q))
        (total_seconds : Z) (route shape stop_id : string) (dist_m : Q),
        (inject_Z total_seconds * 0.7 < dist_m / BusAreas.WALK_SPEED)%Q ->
        group_rows shape_map stops total_seconds route shape stop_id dist_m
        = rows_from shape_map stops route shape stop_id
            (inject_Z total_seconds - inject_Z total_seconds * 0.7
             - inject_Z BOARD_TIME)%Q).
Proof.
  split.
  - intros lat lon minutes route s d i Hc Hfar.
    split; [by eapply process_route_far|done].
  - apply group_rows_capped.
Qed.

Lemma far_group_skipped_or_capped_witness :
  (process_route 0 0 30 remote_line = Some Skipped
   /\ route_reached (remote_line, Skipped) = []
   /\ route_points (remote_line, Skipped) = []
   /\ route_debug (remote_line, Skipped) = [])
  /\ group_rows cyclic_shape_map cyclic_stops 600 "R" "S" "X" 10007
     = rows_from cyclic_shape_map cyclic_stops "R" "S" "X"
         (inject_Z 600 - inject_Z 600 * 0.7 - inject_Z BOARD_TIME)%Q.
Proof.
  split.
  - apply (proj1 far_group_skipped_or_capped 0%R 0%R 30%R remote_line
             (mkStop "N" 1 0) 111000%R 0 remote_closest).
    unfold MAX_WALK_TO_STATION, App.WALK_SPEED. lra.
  - apply (proj2 far_group_skipped_or_capped cyclic_shape_map cyclic_stops 600%Z
             "R" "S" "X" 10007%Q).
    reflexivity.
Defined.

(** C4 as stated fails on the offline script: with a budget of 600 s and
    the nearest stop 10 km away, the walk alone (7147 s) exceeds 70% of the
    budget (420 s), and the group still contributes two rows. *)
Lemma capped_walk_group_contributes :
  (inject_Z 600 * 0.7 < 10007 / BusAreas.WALK_SPEED)%Q
  /\ group_rows cyclic_shape_map cyclic_stops 600 "R" "S" "X" 10007
     = Some [ mkOutRow "X" "R" "S" (Some 0.09%Q) (Some 0%Q) "Y" (Some 60%Z) 224;
              mkOutRow "Y" "R" "S" (Some 0.1%Q) (Some 0%Q) "X" (Some 60%Z) 140 ].
Proof. split; [reflexivity|apply capped_group_rows]. Qed.

(** C5. Two disks of a grouping input whose centres are no farther apart
    than the sum of their radii, equality included, come out in the same
    group. *)
Theorem overlapping_disks_same_group (circles : list Circle) (i j : nat)
    (c1 c2 : Circle) :
  i < j -> circles !! i = Some c1 -> circles !! j = Some c2 ->
  (center_distance c1 c2 <= c_radius c1 + c_radius c2)%R ->
  exists groups g,
    group_connected_circles circles = Some groups
    /\ g ∈ groups /\ c1 ∈ g /\ c2 ∈ g.
Proof.
  intros Hij H1 H2 Hd. apply (touching_same_group circles i j c1 c2); try done.
  apply bool_decide_eq_true. unfold CONNECTION_TOLERANCE. lra.
Qed.

Lemma overlapping_disks_same_group_witness :
  exists groups g,
    group_connected_circles [disk_C; disk_D] = Some groups
    /\ g ∈ groups /\ disk_C ∈ g /\ disk_D ∈ g.
Proof.
  apply (overlapping_disks_same_group [disk_C; disk_D] 0 1 disk_C disk_D).
  - lia.
  - reflexivity.
  - reflexivity.
  - rewrite disk_C_D_distance. simpl. lra.
Defined.

(** C6, as the code has it.  When the test of line 761 is symmetric on
    the disks of the list (as it is when their centres share a latitude),
    every permutation of the list yields the same partition: two disks come
    out in one group of the one list exactly when they do in the other. *)
Theorem grouping_order_independent_if_symmetric (circles circles' : list Circle) :
  circles ≡ₚ circles' ->
  (forall x y, x ∈ circles -> y ∈ circles -> touching x y = touching y x) ->
  forall a b, same_group circles a b <-> same_group circles' a b.
Proof.
  intros Hperm Hsym a b. split.
  - by apply same_group_permuted.
  - apply same_group_permuted; [done|].
    intros x y Hx Hy. apply Hsym; by rewrite Hperm.
Qed.

Lemma grouping_order_independent_if_symmetric_witness :
  same_group [disk_C; disk_D] disk_C disk_D
  <-> same_group [disk_D; disk_C] disk_C disk_D.
Proof.
  apply (grouping_order_independent_if_symmetric [disk_C; disk_D] [disk_D; disk_C]).
  - apply perm_swap.
  - apply disks_C_D_symmetric.
Defined.

(** C6 as stated fails: the distance of a pair is scaled by the cosine of
    the latitude of its first disk, so the disks A (equator) and B (60
    degrees north) are grouped together when B comes first and kept apart
    when A comes first. *)
Lemma grouping_depends_on_order :
  [disk_A; disk_B] ≡ₚ [disk_B; disk_A]
  /\ group_connected_circles [disk_A; disk_B] = Some [[disk_A]; [disk_B]]
  /\ group_connected_circles [disk_B; disk_A] = Some [[disk_B; disk_A]]
  /\ same_group [disk_B; disk_A] disk_A disk_B
  /\ ~ same_group [disk_A; disk_B] disk_A disk_B.
Proof.
  split; [apply perm_swap|]. split; [apply groups_A_then_B|].
  split; [apply groups_B_then_A|]. split.
  - exists [[disk_B; disk_A]], [disk_B; disk_A]. split; [apply groups_B_then_A|].
    split; [left|]. split; [right; left|left].
  - intros (groups & g & Hrun & Hg & Ha & Hb).
    rewrite groups_A_then_B in Hrun. injection Hrun as <-.
    apply elem_of_cons in Hg as [->|Hg].
    + apply list_elem_of_singleton in Hb. by apply disk_A_B_different.
    + apply list_elem_of_singleton in Hg. subst g.
      apply list_elem_of_singleton in Ha. by apply disk_A_B_different.
Qed.

(** C7. With the origin and the routes fixed, a larger time budget emits
    at least as many reachable stops and gives an origin disk of at least
    the same radius. *)
Theorem larger_budget_reaches_no_less (routes : list (string * Route))
    (lat lon b1 b2 : R) :
  (b1 <= b2)%R ->
  exists l1 l2,
    reachable_stops routes lat lon b1 = Some l1
    /\ reachable_stops routes lat lon b2 = Some l2
    /\ length l1 <= length l2
    /\ (MAX_WALK_DISTANCE b1 <= MAX_WALK_DISTANCE b2)%R.
Proof.
  intros Hb. unfold reachable_stops.
  destruct (process_routes_total lat lon b1 routes) as [os1 H1].
  destruct (process_routes_total lat lon b2 routes) as [os2 H2].
  exists (concat (route_reached <$> os1)), (concat (route_reached <$> os2)).
  rewrite H1, H2. split; [done|]. split; [done|]. split.
  - apply (reachable_stops_mono routes lat lon b1 b2); [done| |];
      unfold reachable_stops; [by rewrite H1|by rewrite H2].
  - unfold MAX_WALK_DISTANCE, MAX_WALK_TO_STATION, App.WALK_SPEED. lra.
Qed.

Lemma larger_budget_reaches_no_less_witness :
  exists l1 l2,
    reachable_stops get_transport_routes (-34.6037) (-58.3816) 15 = Some l1
    /\ reachable_stops get_transport_routes (-34.6037) (-58.3816) 30 = Some l2
    /\ length l1 <= length l2
    /\ (MAX_WALK_DISTANCE 15 <= MAX_WALK_DISTANCE 30)%R.
Proof.
  apply (larger_budget_reaches_no_less get_transport_routes (-34.6037) (-58.3816) 15 30).
  lra.
Defined.

(** C8, as the code has it.  An entry of the table resolves its key to
    the most frequent observed successor, the first seen among equally
    frequent ones; its distance is the median of the distances observed for
    that key and successor; its travel time is the median of the observed
    times rounded to the nearest integer, ties to even (with no time sample,
    the rounded estimate from the distance); and the key has no other
    entry. *)
Theorem adjacency_majority_and_median
    (trips_map : gmap string (string * string))
    (trips : list (string * list StopTime)) (fallback_speed : Q)
    (key : Key) (nxt : string) (tt : option Z) (td : option Q) :
  (key, (nxt, tt, td)) ∈ build_adjacency trips_map trips fallback_speed ->
  first_most_common (successors key (observations trips_map trips)) nxt
  /\ td = median (dist_samples key nxt (observations trips_map trips))
  /\ tt = recorded_time fallback_speed
            (time_samples key nxt (observations trips_map trips)) td
  /\ forall edge, (key, edge) ∈ build_adjacency trips_map trips fallback_speed ->
                  edge = (nxt, tt, td).
Proof.
  intros Hin.
  destruct (build_adjacency_entry _ _ _ _ _ _ _ Hin) as (Hmost & Hd & Ht).
  split; [done|]. split; [done|]. split; [done|].
  intros edge Hedge.
  destruct (build_adjacency_keys trips_map trips fallback_speed) as [Hnd _].
  by apply (fst_unique _ key _ _ Hnd Hedge Hin).
Qed.

Lemma adjacency_majority_and_median_witness :
  first_most_common
    (successors ("R", "S", "A") (observations two_trip_map two_trips)) "B"
  /\ None = median (dist_samples ("R", "S", "A") "B"
                      (observations two_trip_map two_trips))
  /\ Some 2%Z = recorded_time default_fallback_speed
                  (time_samples ("R", "S", "A") "B"
                     (observations two_trip_map two_trips)) None
  /\ forall edge,
       (("R", "S", "A"), edge)
         ∈ build_adjacency two_trip_map two_trips default_fallback_speed ->
       edge = ("B", Some 2%Z, None).
Proof.
  apply (adjacency_majority_and_median two_trip_map two_trips default_fallback_speed
           ("R", "S", "A") "B" (Some 2%Z) None).
  rewrite two_trips_build. left.
Defined.

(** C8 as stated fails for the travel time: two trips take 1 s and 2 s
    from A to B, the median is 3/2, and the table records 2. *)
Lemma recorded_time_is_not_the_median :
  build_adjacency two_trip_map two_trips default_fallback_speed
  = [(("R", "S", "A"), ("B", Some 2%Z, None))]
  /\ median (inject_Z <$> time_samples ("R", "S", "A") "B"
                            (observations two_trip_map two_trips))
     = Some (3 # 2)%Q
  /\ ~ (inject_Z 2 == 3 # 2)%Q.
Proof.
  split; [apply two_trips_build|]. split; [by vm_compute|]. by vm_compute.
Qed.

(** C9, as the code has it.  For an edge without time samples and with a
    distance, the builder records the distance divided by the fallback
    speed rounded to the nearest integer (within one half of the quotient),
    and the traversal advances over such an edge by exactly the distance
    divided by its own fallback speed. *)
Theorem fallback_time_rounded_then_exact :
  (forall (trips_map : gmap string (string * string))
      (trips : list (string * list StopTime)) (fallback_speed : Q)
      (key : Key) (nxt : string) (tt : option Z) (d : Q),
      (key, (nxt, tt, Some d)) ∈ build_adjacency trips_map trips fallback_speed ->
      time_samples key nxt (observations trips_map trips) = [] ->
      ~ (fallback_speed == 0)%Q ->
      tt = Some (Py.round (d / fallback_speed))
      /\ (d / fallback_speed - (1 # 2)
          <= inject_Z (Py.round (d / fallback_speed))
          <= d / fallback_speed + (1 # 2))%Q)
  /\ (forall (fuel : nat) (m : gmap string Entry) (total : Q) (cur nxt : string)
        (d acc : Q) (visited : gset string) (results : list Result)
        (log : list (string * Q)),
        m !! cur = Some (nxt, None, Some d) -> cur <> EmptyString -> cur ∉ visited ->
        traverse_loop (S fuel) m total cur acc visited results log
        = let results' :=
            if ltb 0 (total - acc) then results ++ [(cur, nxt, (total - acc)%Q)]
            else results in
          if ltb total (acc + d / BUS_SPEED_FALLBACK)
          then Some (results', log ++ [(cur, acc)])
          else traverse_loop fuel m total nxt (acc + d / BUS_SPEED_FALLBACK)%Q
                 ({[cur]} ∪ visited) results' (log ++ [(cur, acc)])).
Proof.
  split.
  - intros trips_map trips speed key nxt tt d Hin Hnone Hspeed.
    destruct (build_adjacency_entry _ _ _ _ _ _ _ Hin) as (_ & _ & Ht).
    split; [|apply round_nearest].
    rewrite Ht, Hnone. unfold recorded_time. simpl.
    destruct (Qeq_bool speed 0) eqn:E; [|done].
    by apply Qeq_bool_iff in E.
  - apply traverse_loop_untimed.
Qed.

Lemma fallback_time_rounded_then_exact_witness :
  (Some 2%Z = Some (Py.round ((10 - 0) / default_fallback_speed))
   /\ ((10 - 0) / default_fallback_speed - (1 # 2)
       <= inject_Z (Py.round ((10 - 0) / default_fallback_speed))
       <= (10 - 0) / default_fallback_speed + (1 # 2))%Q)
  /\ traverse_loop 2 untimed_stops_map 100 "X" 0 ∅ [] []
     = let results' :=
         if ltb 0 (100 - 0) then [] ++ [("X", "Y", (100 - 0)%Q)] else [] in
       if ltb 100 (0 + 80 / BUS_SPEED_FALLBACK)
       then Some (results', [] ++ [("X", 0%Q)])
       else traverse_loop 1 untimed_stops_map 100 "Y" (0 + 80 / BUS_SPEED_FALLBACK)%Q
              ({[ "X" ]} ∪ ∅) results' ([] ++ [("X", 0%Q)]).
Proof.
  split.
  - apply (proj1 fallback_time_rounded_then_exact two_trip_map untimed_trip
             default_fallback_speed ("R", "S", "A") "B" (Some 2%Z) (10 - 0)%Q).
    + rewrite untimed_trip_build. left.
    + reflexivity.
    + discriminate.
  - apply (proj2 fallback_time_rounded_then_exact 1 untimed_stops_map 100%Q "X" "Y"
             80%Q 0%Q ∅ [] []).
    + reflexivity.
    + discriminate.
    + apply not_elem_of_empty.
Defined.

(** C9 as stated fails in the builder: an edge 10 m long without time
    samples gets the travel time 2, while 10 m at 4 m/s is 5/2 s. *)
Lemma fallback_time_is_rounded :
  build_adjacency two_trip_map untimed_trip default_fallback_speed
  = [(("R", "S", "A"), ("B", Some 2%Z, Some (10 - 0)%Q))]
  /\ time_samples ("R", "S", "A") "B" (observations two_trip_map untimed_trip) = []
  /\ ~ (inject_Z 2 == (10 - 0) / default_fallback_speed)%Q.
Proof.
  split; [apply untimed_trip_build|]. split; [reflexivity|]. by vm_compute.
Qed.

(** C10. For every origin, time budget and route table, the geometry the
    generator returns is the origin walking circle of radius
    0.7 x budget x walking speed: the 32 points at the angles
    2 pi i / 32 around the origin, at that radius north-south and at the
    radius divided by the cosine of the latitude east-west, followed by
    the first point again; the merged, sorted boundary points are computed
    from the routes and left out, so the geometry is the same for every
    route table. *)
Theorem returned_geometry_is_origin_circle (routes : list (string * Route))
    (lat lon minutes : R) :
  exists run ring outcomes,
    ring
    = ((fun i : nat =>
          ((lon + minutes * 0.70 * 80 / (111000 * Rabs (cos (radians lat)))
                  * sin (2 * PI * INR i / INR 32))%R,
           (lat + minutes * 0.70 * 80 / 111000 * cos (2 * PI * INR i / INR 32))%R))
         <$> seq 0 32)
      ++ [((lon + minutes * 0.70 * 80 / (111000 * Rabs (cos (radians lat)))
                  * sin (2 * PI * INR 0 / INR 32))%R,
           (lat + minutes * 0.70 * 80 / 111000 * cos (2 * PI * INR 0 / INR 32))%R)]
    /\ transit_run routes lat lon minutes = Some run
    /\ f_coordinates (run_feature run) = ring
    /\ length ring = 33
    /\ process_routes lat lon minutes routes = Some outcomes
    /\ run_all_reachable_points run
       = close_sorted lat lon
           (degree_ring lat lon (MAX_WALK_DISTANCE minutes) 15 24
            ++ concat (route_points <$> outcomes))
    /\ forall routes',
         f_coordinates <$> generate_transit_isochrone_on routes' lat lon minutes
         = Some ring.
Proof.
  destruct (transit_run_total routes lat lon minutes) as (run & ring & Hrun & Hring & Hc & _).
  destruct (process_routes_total lat lon minutes routes) as [outcomes Hos].
  destruct (create_circle_geometry_closed (lon, lat) (MAX_WALK_DISTANCE minutes) 31)
    as (first & rest & Hclosed & Hlen).
  exists run, ring, outcomes. split.
  { clear -Hring. unfold create_circle_geometry in Hring.
    rewrite <- cons_seq, map_cons in Hring. injection Hring as <-.
    rewrite <- cons_seq, fmap_cons.
    unfold MAX_WALK_DISTANCE, MAX_WALK_TO_STATION, WALK_SPEED. reflexivity. }
  split; [done|]. split; [done|]. split.
  { assert (Hr : ring = (first :: rest) ++ [first]) by congruence.
    rewrite Hr, length_app, Hlen. done. }
  split; [done|]. split.
  - unfold transit_run in Hrun. rewrite Hos in Hrun. simpl in Hrun.
    destruct (create_circle_geometry _ _ _); [|done]. by injection Hrun as <-.
  - intros routes'. unfold generate_transit_isochrone_on.
    destruct (transit_run_total routes' lat lon minutes) as (run' & ring' & -> & Hring' & Hc' & _).
    simpl. rewrite Hc', <- Hring'. exact Hring.
Qed.

End Claims.

(** * Further properties of scripts/build_adjacency_by_route.py *)

Module BuilderMore.
Import Builder BuilderFacts.

(** *** The median lies among its samples *)

Lemma nth_sorted_elem (l : list Q) (k : nat) :
  k < length (Py.sorted l) -> nth k (Py.sorted l) 0%Q ∈ l.
Proof.
  intros Hk. apply (elem_of_Permutation_proper _ _ _ (sorted_perm l)).
  apply list_elem_of_In. by apply nth_In.
Qed.

Lemma median_nonempty (l : list Q) :
  l <> [] ->
  median l =
    if (length (Py.sorted l) mod 2 =? 1)%nat
    then Some (nth (length (Py.sorted l) / 2) (Py.sorted l) 0%Q)
    else Some ((nth (length (Py.sorted l) / 2 - 1) (Py.sorted l) 0
                + nth (length (Py.sorted l) / 2) (Py.sorted l) 0) / 2)%Q.
Proof. by destruct l. Qed.

Lemma sorted_length_pos (l : list Q) : l <> [] -> 0 < length (Py.sorted l).
Proof.
  intros Hne. rewrite (Permutation_length (sorted_perm l)).
  destruct l; [done|simpl; lia].
Qed.

Lemma median_some (l : list Q) : l <> [] -> exists m, median l = Some m.
Proof.
  destruct l as [|x l]; [done|]. intros _. unfold median.
  destruct (_ =? 1)%nat; eauto.
Qed.

Lemma median_none (l : list Q) : median l = None <-> l = [].
Proof.
  split; [|by intros ->].
  destruct l as [|x l]; [done|]. unfold median. by destruct (_ =? 1)%nat.
Qed.

Lemma even_half_bounds (n : nat) :
  0 < n -> (n mod 2 =? 1)%nat = false -> n / 2 - 1 < n /\ n / 2 < n /\ 0 < n / 2.
Proof.
  intros Hn Hm. apply Nat.eqb_neq in Hm.
  pose proof (Nat.div_mod_eq n 2). pose proof (Nat.mod_upper_bound n 2). lia.
Qed.

Lemma median_lower (l : list Q) (lo m : Q) :
  (forall x, x ∈ l -> (lo <= x)%Q) -> median l = Some m -> (lo <= m)%Q.
Proof.
  intros Hl. destruct (decide (l = [])) as [->|Hne]; [done|].
  rewrite (median_nonempty l Hne).
  pose proof (sorted_length_pos l Hne) as Hn.
  destruct (_ =? 1)%nat eqn:Hm; intros Heq; apply (inj Some) in Heq; subst m.
  - apply Hl, nth_sorted_elem. apply Nat.div_lt; lia.
  - destruct (even_half_bounds _ Hn Hm) as (H1 & H2 & _).
    pose proof (Hl _ (nth_sorted_elem l _ H1)) as B1.
    pose proof (Hl _ (nth_sorted_elem l _ H2)) as B2.
    apply Qle_shift_div_l; lra.
Qed.

Lemma median_upper (l : list Q) (hi m : Q) :
  (forall x, x ∈ l -> (x <= hi)%Q) -> median l = Some m -> (m <= hi)%Q.
Proof.
  intros Hl. destruct (decide (l = [])) as [->|Hne]; [done|].
  rewrite (median_nonempty l Hne).
  pose proof (sorted_length_pos l Hne) as Hn.
  destruct (_ =? 1)%nat eqn:Hm; intros Heq; apply (inj Some) in Heq; subst m.
  - apply Hl, nth_sorted_elem. apply Nat.div_lt; lia.
  - destruct (even_half_bounds _ Hn Hm) as (H1 & H2 & _).
    pose proof (Hl _ (nth_sorted_elem l _ H1)) as B1.
    pose proof (Hl _ (nth_sorted_elem l _ H2)) as B2.
    apply Qle_shift_div_r; lra.
Qed.

(** X1.  [median] answers [None] for the empty list only; for a list with
    at least one sample it returns a number that lies between any lower and
    any upper bound of the samples. *)
Theorem median_between (l : list Q) (lo hi : Q) :
  l <> [] ->
  (forall x, x ∈ l -> (lo <= x <= hi)%Q) ->
  exists m, median l = Some m /\ (lo <= m <= hi)%Q.
Proof.
  intros Hne Hb. destruct (median_some l Hne) as [m Hm]. exists m.
  split; [done|]. split.
  - apply (median_lower l); [|done]. intros x Hx. by apply Hb.
  - apply (median_upper l); [|done]. intros x Hx. by apply Hb.
Qed.

Lemma median_between_witness :
  exists m, median [3; 1; 2]%Q = Some m /\ (1 <= m <= 3)%Q.
Proof.
  apply (median_between [3; 1; 2]%Q 1 3); [done|].
  intros x Hx. repeat (apply elem_of_cons in Hx as [->|Hx]; [split; discriminate|]).
  by apply elem_of_nil in Hx.
Defined.

(** *** The median does not depend on the order of the samples *)

Lemma count_perm (f : Q -> bool) (l l' : list Q) :
  l ≡ₚ l' -> length (List.filter f l) = length (List.filter f l').
Proof.
  induction 1 as [|x l l' _ IH|x y l|l l' l'' _ IH1 _ IH2]; simpl.
  - done.
  - destruct (f x); simpl; congruence.
  - destruct (f x), (f y); simpl; congruence.
  - congruence.
Qed.

Lemma sorted_head_least (x : Q) (t : list Q) :
  Sorted Qle (x :: t) -> forall y, y ∈ t -> (x <= y)%Q.
Proof.
  intros Hs. apply Sorted_StronglySorted in Hs; [|intros a b c; apply Qle_trans].
  apply StronglySorted_inv in Hs as [_ Hall]. intros y Hy.
  rewrite Forall_forall in Hall. by apply Hall.
Qed.

(** In a sorted list fewer than [k + 1] elements are below the one at
    index [k], and more than [k] are not above it. *)
Lemma sorted_rank (s : list Q) :
  Sorted Qle s -> forall k, k < length s ->
    length (List.filter (fun x => negb (Qle_bool (nth k s 0%Q) x)) s) <= k
    /\ k < length (List.filter (fun x => Qle_bool x (nth k s 0%Q)) s).
Proof.
  induction s as [|x t IH]; intros Hs k Hk; simpl in Hk; [lia|].
  pose proof (sorted_head_least x t Hs) as Hleast.
  apply Sorted_inv in Hs as [Hs _].
  destruct k as [|k]; simpl nth.
  - split.
    + assert (E : List.filter (fun y => negb (Qle_bool x y)) (x :: t) = []).
      { simpl. assert (Hxx : Qle_bool x x = true) by (apply Qle_bool_iff; lra).
        rewrite Hxx. simpl.
        clear -Hleast. induction t as [|y t IHt]; [done|]. simpl.
        assert (Hxy : Qle_bool x y = true).
        { apply Qle_bool_iff, Hleast. left. }
        rewrite Hxy. simpl. apply IHt. intros z Hz. apply Hleast. by right. }
      rewrite E. simpl. lia.
    + simpl. assert (Hxx : Qle_bool x x = true) by (apply Qle_bool_iff; lra).
      rewrite Hxx. simpl. lia.
  - destruct (IH Hs k ltac:(lia)) as [I1 I2].
    assert (Hxv : Qle_bool x (nth k t 0%Q) = true).
    { apply Qle_bool_iff, Hleast, list_elem_of_In, nth_In. lia. }
    split; simpl.
    + destruct (negb (Qle_bool (nth k t 0%Q) x)); simpl; lia.
    + rewrite Hxv. simpl. lia.
Qed.

Lemma filter_length_le (f g : Q -> bool) (l : list Q) :
  (forall x, f x = true -> g x = true) ->
  length (List.filter f l) <= length (List.filter g l).
Proof.
  intros Hfg. induction l as [|x l IH]; simpl; [lia|].
  destruct (f x) eqn:Ef.
  - rewrite (Hfg _ Ef). simpl. lia.
  - destruct (g x); simpl; lia.
Qed.

Lemma sorted_nth_perm (s s' : list Q) (k : nat) :
  Sorted Qle s -> Sorted Qle s' -> s ≡ₚ s' -> k < length s ->
  (nth k s 0 == nth k s' 0)%Q.
Proof.
  intros Hs Hs' Hp Hk.
  assert (Hk' : k < length s') by (by rewrite <- (Permutation_length Hp)).
  destruct (sorted_rank s Hs k Hk) as [A1 A2].
  destruct (sorted_rank s' Hs' k Hk') as [B1 B2].
  set (v := nth k s 0%Q) in *. set (w := nth k s' 0%Q) in *.
  destruct (Qlt_le_dec v w) as [Hvw|Hwv].
  - exfalso. rewrite (count_perm _ s s' Hp) in A2.
    pose proof (filter_length_le (fun x => Qle_bool x v)
                  (fun x => negb (Qle_bool w x)) s') as Hle.
    assert (length (List.filter (fun x => Qle_bool x v) s')
            <= length (List.filter (fun x => negb (Qle_bool w x)) s')); [|lia].
    apply Hle. intros x Hx. apply Qle_bool_iff in Hx.
    apply negb_true_iff, not_true_iff_false. rewrite Qle_bool_iff. lra.
  - destruct (Qlt_le_dec w v) as [Hwv'|Hvw]; [|lra].
    exfalso. rewrite <- (count_perm _ s s' Hp) in B2.
    assert (length (List.filter (fun x => Qle_bool x w) s)
            <= length (List.filter (fun x => negb (Qle_bool v x)) s)); [|lia].
    apply filter_length_le. intros x Hx. apply Qle_bool_iff in Hx.
    apply negb_true_iff, not_true_iff_false. rewrite Qle_bool_iff. lra.
Qed.

(** X2.  The median of the samples does not depend on the order in which
    they were collected: two lists with the same samples have equal
    medians (as numbers), or both have none. *)
Theorem median_order_independent (l l' : list Q) :
  l ≡ₚ l' ->
  match median l, median l' with
  | Some m, Some m' => (m == m')%Q
  | None, None => True
  | _, _ => False
  end.
Proof.
  intros Hp.
  destruct (decide (l = [])) as [->|Hne].
  { apply Permutation_nil_l in Hp. by subst. }
  assert (Hne' : l' <> []).
  { intros ->. by apply Permutation_nil_r in Hp. }
  assert (Hps : Py.sorted l ≡ₚ Py.sorted l').
  { etrans; [apply sorted_perm|]. etrans; [apply Hp|]. symmetry. apply sorted_perm. }
  pose proof (sorted_sorted l) as Hs. pose proof (sorted_sorted l') as Hs'.
  rewrite (median_nonempty l Hne), (median_nonempty l' Hne').
  rewrite <- (Permutation_length Hps).
  pose proof (sorted_length_pos l Hne) as Hn.
  destruct (_ =? 1)%nat eqn:Hm.
  - apply sorted_nth_perm; [done..|]. apply Nat.div_lt; lia.
  - destruct (even_half_bounds _ Hn Hm) as (H1 & H2 & _).
    pose proof (sorted_nth_perm _ _ _ Hs Hs' Hps H1) as E1.
    pose proof (sorted_nth_perm _ _ _ Hs Hs' Hps H2) as E2.
    rewrite E1, E2. reflexivity.
Qed.

Lemma median_order_independent_witness :
  match median [3; 1; 2]%Q, median [2; 3; 1]%Q with
  | Some m, Some m' => (m == m')%Q
  | None, None => True
  | _, _ => False
  end.
Proof.
  apply (median_order_independent [3; 1; 2]%Q [2; 3; 1]%Q).
  change ([3; 1; 2]%Q) with ([3%Q] ++ [1; 2]%Q).
  change ([2; 3; 1]%Q) with (([2%Q] ++ [3%Q]) ++ [1%Q]).
  rewrite (Permutation_app_comm [2%Q] [3%Q]). rewrite <- app_assoc.
  apply Permutation_app_head. apply perm_swap.
Defined.

(** *** What the table never records *)

Lemma observation_dist_nonneg (trips_map : gmap string (string * string))
    (trips : list (string * list StopTime)) (o : Obs) (d : Q) :
  o ∈ observations trips_map trips -> o.2 = Some d -> (0 <= d)%Q.
Proof.
  unfold observations. intros Ho Hd.
  apply list_elem_of_In, in_concat in Ho as (l & Hl & Ho). apply list_elem_of_In in Hl, Ho.
  apply list_elem_of_fmap in Hl as ([tid rows] & -> & _).
  simpl in Ho. destruct (default _ _) as [route_id shape_id].
  apply list_elem_of_fmap in Ho as ([cur nxt] & -> & _).
  simpl in Hd. unfold pair_dist in Hd.
  destruct (st_shape_dist cur) as [a|]; [|done].
  destruct (st_shape_dist nxt) as [b|]; [|done].
  destruct (Qle_bool 0 (b - a)) eqn:E; [|done].
  injection Hd as <-. by apply Qle_bool_iff.
Qed.

(** X3.  The table never holds a negative distance: a recorded
    [travel_distance_to_next] is the median of differences of
    [shape_dist_traveled] that were kept only when not negative. *)
Theorem table_distance_nonneg (trips_map : gmap string (string * string))
    (trips : list (string * list StopTime)) (fallback_speed : Q)
    (key : Key) (nxt : string) (tt : option Z) (d : Q) :
  (key, (nxt, tt, Some d)) ∈ build_adjacency trips_map trips fallback_speed ->
  (0 <= d)%Q.
Proof.
  intros Hin. apply build_adjacency_entry in Hin as (_ & Hd & _).
  apply (median_lower (dist_samples key nxt (observations trips_map trips))); [|done].
  intros x Hx. unfold dist_samples in Hx.
  apply list_elem_of_omap in Hx as (o & Ho & Hx).
  case_decide; [|done]. by apply (observation_dist_nonneg trips_map trips o).
Qed.

Lemma table_distance_nonneg_witness : (0 <= 10 - 0)%Q.
Proof.
  apply (table_distance_nonneg two_trip_map untimed_trip default_fallback_speed
           ("R", "S", "A") "B" (Some 2%Z) (10 - 0)%Q).
  rewrite untimed_trip_build. apply list_elem_of_singleton. reflexivity.
Defined.

Lemma round_between (x : Q) (lo hi : Z) :
  (inject_Z lo <= x <= inject_Z hi)%Q -> (lo <= Py.round x <= hi)%Z.
Proof.
  intros [Hlo Hhi]. pose proof (round_nearest x) as [R1 R2].
  assert (H1 : (inject_Z (lo + -1) < inject_Z (Py.round x))%Q).
  { rewrite inject_Z_plus. change (inject_Z (-1)) with (-1)%Q. lra. }
  assert (H2 : (inject_Z (Py.round x) < inject_Z (hi + 1))%Q).
  { rewrite inject_Z_plus. change (inject_Z 1) with 1%Q. lra. }
  rewrite <- Zlt_Qlt in H1, H2. lia.
Qed.

(** X4.  When travel times were observed for the recorded successor, the
    recorded [travel_time_to_next] lies between the smallest and the
    largest of them: taking the median and rounding it never leaves the
    range of the samples. *)
Theorem table_time_within_samples (trips_map : gmap string (string * string))
    (trips : list (string * list StopTime)) (fallback_speed : Q)
    (key : Key) (nxt : string) (tt : option Z) (td : option Q) (lo hi : Z) :
  (key, (nxt, tt, td)) ∈ build_adjacency trips_map trips fallback_speed ->
  time_samples key nxt (observations trips_map trips) <> [] ->
  (forall t, t ∈ time_samples key nxt (observations trips_map trips) ->
             (lo <= t <= hi)%Z) ->
  exists t, tt = Some t /\ (lo <= t <= hi)%Z.
Proof.
  intros Hin Hne Hb. apply build_adjacency_entry in Hin as (_ & _ & Ht).
  set (ts := time_samples key nxt (observations trips_map trips)) in *.
  assert (Hne' : inject_Z <$> ts <> []) by (by destruct ts).
  destruct (median_some (inject_Z <$> ts) Hne') as [m Hm].
  assert (Hrange : (inject_Z lo <= m <= inject_Z hi)%Q).
  { split.
    - apply (median_lower (inject_Z <$> ts)); [|done].
      intros x Hx. apply list_elem_of_fmap in Hx as (t & -> & Ht').
      destruct (Hb t Ht'). by rewrite <- Zle_Qle.
    - apply (median_upper (inject_Z <$> ts)); [|done].
      intros x Hx. apply list_elem_of_fmap in Hx as (t & -> & Ht').
      destruct (Hb t Ht'). by rewrite <- Zle_Qle. }
  unfold recorded_time in Ht. rewrite Hm in Ht. simpl in Ht.
  exists (Py.round m). split; [done|]. by apply round_between.
Qed.

Lemma table_time_within_samples_witness :
  exists t, Some 2%Z = Some t /\ (1 <= t <= 2)%Z.
Proof.
  apply (table_time_within_samples two_trip_map two_trips default_fallback_speed
           ("R", "S", "A") "B" (Some 2%Z) None 1 2).
  - rewrite two_trips_build. apply list_elem_of_singleton. reflexivity.
  - vm_compute. discriminate.
  - intros t Ht. vm_compute in Ht.
    apply elem_of_cons in Ht as [->|Ht]; [lia|].
    apply elem_of_cons in Ht as [->|Ht]; [lia|].
    by apply elem_of_nil in Ht.
Defined.

(** *** Which stops get a row *)

Lemma row_pairs_lookup (rows : list StopTime) (cur nxt : StopTime) :
  (cur, nxt) ∈ row_pairs rows
  <-> exists i, rows !! i = Some cur /\ rows !! S i = Some nxt.
Proof.
  induction rows as [|a rows IH]; simpl.
  { split; [intros H; by apply elem_of_nil in H|by intros (i & H & _)]. }
  destruct rows as [|b rows].
  { split; [intros H; by apply elem_of_nil in H|].
    intros ([|i] & H1 & H2); simpl in *; [done|by destruct i]. }
  rewrite elem_of_cons, IH. split.
  - intros [[= -> ->]|(i & H1 & H2)]; [by exists 0|by exists (S i)].
  - intros ([|i] & H1 & H2); simpl in *.
    + left. congruence.
    + right. by exists i.
Qed.

Lemma successors_nonempty (key : Key) (os : list Obs) :
  successors key os <> [] <-> exists o, o ∈ os /\ o.1.1.1 = key.
Proof.
  unfold successors. split.
  - intros Hne. destruct (omap _ os) as [|s l] eqn:E; [done|].
    assert (Hs : s ∈ omap (fun o : Obs =>
                   if decide (o.1.1.1 = key) then Some o.1.1.2 else None) os)
      by (rewrite E; left).
    apply list_elem_of_omap in Hs as (o & Ho & Hs). exists o.
    split; [done|]. by case_decide.
  - intros (o & Ho & Hk) E.
    assert (Hs : o.1.1.2 ∈ omap (fun o : Obs =>
                   if decide (o.1.1.1 = key) then Some o.1.1.2 else None) os).
    { apply list_elem_of_omap. exists o. split; [done|]. by rewrite decide_True. }
    rewrite E in Hs. by apply elem_of_nil in Hs.
Qed.

(** X5.  The table has exactly one row for each (route, shape, stop)
    such that the stop is followed by another stop in some trip of that
    route and shape; a trip that is missing from [trips.txt] counts under
    the empty route and shape. *)
Theorem table_rows_are_departure_stops (trips_map : gmap string (string * string))
    (trips : list (string * list StopTime)) (fallback_speed : Q) :
  NoDup (build_adjacency trips_map trips fallback_speed).*1
  /\ forall key,
       key ∈ (build_adjacency trips_map trips fallback_speed).*1
       <-> exists tid rows i cur nxt,
             (tid, rows) ∈ trips
             /\ rows !! i = Some cur /\ rows !! S i = Some nxt
             /\ key = ((default (EmptyString, EmptyString) (trips_map !! tid)).1,
                       (default (EmptyString, EmptyString) (trips_map !! tid)).2,
                       st_stop_id cur).
Proof.
  destruct (build_adjacency_keys trips_map trips fallback_speed) as [Hnd Hkeys].
  split; [done|]. intros key. rewrite Hkeys, successors_nonempty.
  unfold observations. split.
  - intros (o & Ho & Hk).
    apply list_elem_of_In, in_concat in Ho as (l & Hl & Ho).
    apply list_elem_of_In in Hl, Ho.
    apply list_elem_of_fmap in Hl as ([tid rows] & -> & Htrip).
    simpl in Ho. destruct (default _ _) as [route_id shape_id] eqn:Ed.
    apply list_elem_of_fmap in Ho as ([cur nxt] & -> & Hp).
    apply row_pairs_lookup in Hp as (i & H1 & H2).
    exists tid, rows, i, cur, nxt. rewrite Ed. simpl in *. by subst key.
  - intros (tid & rows & i & cur & nxt & Htrip & H1 & H2 & ->).
    destruct (default _ _) as [route_id shape_id] eqn:Ed. simpl.
    exists (observe route_id shape_id cur nxt). split; [|done].
    apply list_elem_of_In, in_concat.
    eexists. split; apply list_elem_of_In.
    + apply list_elem_of_fmap. exists (tid, rows). split; [reflexivity|done].
    + simpl. rewrite Ed. apply list_elem_of_fmap. exists (cur, nxt).
      split; [done|]. apply row_pairs_lookup. by exists i.
Qed.

End BuilderMore.

(** * The staging of the two input files *)

Module BuilderInputFacts.
Import BuilderInput.

Lemma read_trips_snoc (rows : list TripRow) (r : TripRow) :
  read_trips (rows ++ [r])
  = if decide (tr_trip_id r = EmptyString) then read_trips rows
    else <[tr_trip_id r := (tr_route_id r, tr_shape_id r)]> (read_trips rows).
Proof. unfold read_trips. by rewrite fold_left_app. Qed.

(** X6.  [read_trips] maps a trip id to the route and the shape of the
    last row of the file that carries this id; rows without a trip id are
    skipped, so the empty id is never a key. *)
Theorem read_trips_last_row_wins (rows : list TripRow) (trip_id : string) :
  read_trips rows !! trip_id
  = if decide (trip_id = EmptyString) then None
    else (fun r => (tr_route_id r, tr_shape_id r))
           <$> last (filter (fun r => tr_trip_id r = trip_id) rows).
Proof.
  induction rows as [|r rows IH] using rev_ind.
  { unfold read_trips. simpl. rewrite lookup_empty. by case_decide. }
  rewrite read_trips_snoc, filter_app.
  destruct (decide (tr_trip_id r = EmptyString)) as [He|He].
  - rewrite IH. case_decide; [done|].
    rewrite filter_cons_False by congruence. by rewrite filter_nil, app_nil_r.
  - destruct (decide (tr_trip_id r = trip_id)) as [<-|Hne].
    + rewrite lookup_insert_eq, decide_False by done.
      rewrite filter_cons_True by done. rewrite filter_nil. by rewrite last_snoc.
    + rewrite lookup_insert_ne by done. rewrite IH.
      rewrite filter_cons_False by done. by rewrite filter_nil, app_nil_r.
Qed.

Lemma insert_step_none (py_int : string -> option Z) (py_float : string -> option Q)
    (rows : list RawStopTime) :
  fold_left (insert_step py_int py_float) rows None = None.
Proof. induction rows as [|r rows IH]; [done|]. apply IH. Qed.

(** The state of the loop after some rows: nothing staged so far is lost,
    and the loop has failed exactly when a staged row cannot be stored. *)
Lemma insert_steps (py_int : string -> option Z) (py_float : string -> option Q)
    (rows : list RawStopTime) :
  forall table to_insert,
    Forall storable table ->
    match fold_left (insert_step py_int py_float) rows (Some (table, to_insert)) with
    | Some (table', to_insert') =>
        table' ++ to_insert'
        = table ++ to_insert ++ omap (stage py_int py_float) rows
        /\ Forall storable table'
    | None => ~ Forall storable (to_insert ++ omap (stage py_int py_float) rows)
    end.
Proof.
  induction rows as [|r rows IH]; intros table to_insert Ht.
  { simpl. by rewrite app_nil_r. }
  cbn [fold_left omap list_omap]. unfold insert_step at 2.
  destruct (stage py_int py_float r) as [row|] eqn:E; [|by apply IH].
  destruct (10000 <=? _)%Z.
  - unfold executemany. case_decide as Hfit; cbn [fmap option_fmap option_map].
    + specialize (IH (table ++ to_insert ++ [row]) [] ltac:(by apply Forall_app)).
      destruct (fold_left _ rows _) as [[table' to_insert']|].
      * destruct IH as [IH1 IH2]. split; [|done].
        rewrite IH1. simpl. by rewrite <- !app_assoc.
      * intros Hall. apply IH. simpl.
        apply Forall_app in Hall as [_ Hall]. by apply Forall_cons in Hall as [_ Hall].
    + rewrite insert_step_none. intros Hall. apply Hfit.
      apply Forall_app in Hall as [H1 Hall]. apply Forall_cons in Hall as [H2 _].
      apply Forall_app. split; [done|]. by constructor.
  - specialize (IH table (to_insert ++ [row]) Ht).
    destruct (fold_left _ rows _) as [[table' to_insert']|].
    + destruct IH as [IH1 IH2]. split; [|done]. rewrite IH1. by rewrite <- !app_assoc.
    + by rewrite <- app_assoc in IH.
Qed.

(** X7.  [build_sqlite] returns exactly when every stop sequence it
    staged fits in 64 bits ([executemany] raises for another one), and
    then the table [st] holds, in the order of the file, exactly the rows
    that have a trip id and a stop id, each converted on its own:
    committing in batches of 10000 neither drops, repeats nor reorders a
    row, and a stop sequence that [int] rejects is stored as 0. *)
Theorem build_sqlite_keeps_every_row (py_int : string -> option Z)
    (py_float : string -> option Q) (rows : list RawStopTime) :
  build_sqlite py_int py_float rows
  = (if decide (Forall storable (omap (stage py_int py_float) rows))
     then Some (omap (stage py_int py_float) rows) else None)
  /\ forall row, row ∈ omap (stage py_int py_float) rows ->
       sr_trip_id row <> EmptyString /\ sr_stop_id row <> EmptyString
       /\ exists r, r ∈ rows
            /\ sr_trip_id row = raw_trip_id r /\ sr_stop_id row = raw_stop_id r
            /\ sr_stop_sequence row = default 0%Z (py_int (raw_stop_sequence r)).
Proof.
  split.
  - unfold build_sqlite.
    pose proof (insert_steps py_int py_float rows [] [] ltac:(constructor)) as H.
    simpl in H. destruct (fold_left _ _ _) as [[table to_insert]|].
    + destruct H as [H1 H2]. rewrite <- H1.
      destruct to_insert as [|row to_insert].
      * rewrite app_nil_r. by rewrite decide_True.
      * unfold executemany. case_decide as Hfit.
        -- rewrite decide_True; [done|]. by apply Forall_app.
        -- rewrite decide_False; [done|]. intros Hall.
           by apply Forall_app in Hall as [_ Hall].
    + by rewrite decide_False.
  - intros row Hrow.
    apply list_elem_of_omap in Hrow as (r & Hr & Hst).
    unfold stage in Hst. case_decide as Hd; [done|].
    injection Hst as <-. simpl. split; [tauto|]. split; [tauto|]. by exists r.
Qed.

End BuilderInputFacts.

(** * Further properties of scripts/compute_bus_areas.py *)

Module BusAreasMore.
Import BusAreas BusPath BusAreasFacts.

Lemma loop_adds_nil (m : gmap string Entry) (visited : gset string) :
  loop_adds m visited [].
Proof.
  split; [constructor|..]; intros r Hr; by apply elem_of_nil in Hr.
Qed.

Lemma loop_chain_nil (total : Q) (cur : string) (acc : Q) :
  loop_chain total cur acc [].
Proof.
  split; [done|done| |constructor]. intros r Hr. by apply elem_of_nil in Hr.
Qed.

(** What one run of the loop appends to [results]. *)
Lemma traverse_loop_adds fuel :
  forall (m : gmap string Entry) total cur acc visited results log out,
    traverse_loop fuel m total cur acc visited results log = Some out ->
    exists added,
      out.1 = results ++ added
      /\ loop_adds m visited added
      /\ (nonneg_edges m -> loop_chain total cur acc added).
Proof.
  induction fuel as [|fuel IH]; intros m total cur acc visited results log out; [done|].
  simpl. case_bool_decide as Hc.
  2:{ intros [= <-]. exists []. rewrite app_nil_r.
      split; [done|]. split; [apply loop_adds_nil|]. intros _. apply loop_chain_nil. }
  destruct Hc as [Hne Hnv].
  destruct (m !! cur) as [[[next_stop tt_s] td]|] eqn:Hm.
  2:{ intros [= <-]. exists []. rewrite app_nil_r.
      split; [done|]. split; [apply loop_adds_nil|]. intros _. apply loop_chain_nil. }
  set (r0 := (cur, next_stop, (total - acc)%Q) : Result).
  set (results' := if ltb 0 (total - acc) then results ++ [r0] else results).
  set (here := if ltb 0 (total - acc) then [r0] else []).
  assert (Hres : results' = results ++ here).
  { unfold results', here. destruct (ltb 0 (total - acc)); [done|by rewrite app_nil_r]. }
  assert (Hhere : forall r, r ∈ here -> r = r0 /\ (0 < total - acc)%Q).
  { intros r. unfold here. destruct (ltb 0 (total - acc)) eqn:E.
    - intros Hr. apply list_elem_of_singleton in Hr. split; [done|]. by apply ltb_lt.
    - intros Hr. by apply elem_of_nil in Hr. }
  assert (Hadds : loop_adds m visited here).
  { split.
    - unfold here. destruct (ltb 0 (total - acc)); simpl; [apply NoDup_singleton|constructor].
    - intros r Hr. destruct (Hhere r Hr) as [-> _]. done.
    - intros r Hr. destruct (Hhere r Hr) as [-> _]. simpl. eauto.
    - intros r Hr. destruct (Hhere r Hr) as [-> ?]. done. }
  assert (Hchain : loop_chain total cur acc here).
  { split.
    - unfold here. destruct (ltb 0 (total - acc)); simpl; done.
    - intros Hsp. unfold here. destruct (ltb 0 (total - acc)) eqn:E; [|done].
      apply ltb_lt in E. lra.
    - intros r Hr. destruct (Hhere r Hr) as [-> _]. simpl. lra.
    - unfold here. destruct (ltb 0 (total - acc)); repeat constructor. }
  destruct (edge_dt tt_s td) as [dt|] eqn:Hdt.
  2:{ intros [= <-]. exists here. simpl. done. }
  destruct (ltb total (acc + dt)) eqn:Hover.
  { intros [= <-]. exists here. simpl. done. }
  intros Hrun.
  destruct (IH _ _ _ _ _ _ _ _ Hrun) as (more & Hout & [A1 A2 A3 A4] & Hch).
  exists (here ++ more). split; [rewrite Hout; change (results' ++ more = results ++ here ++ more); by rewrite Hres, app_assoc|]. split.
  - split.
    + rewrite !fmap_app. apply NoDup_app. split; [apply Hadds|]. split; [|done].
      intros s Hs Hs'.
      apply list_elem_of_fmap in Hs as (k & -> & Hk).
      apply list_elem_of_fmap in Hk as (r & -> & Hr).
      destruct (Hhere r Hr) as [-> _]. simpl in Hs'.
      apply list_elem_of_fmap in Hs' as (k' & Hk1 & Hk').
      apply list_elem_of_fmap in Hk' as (r' & -> & Hr').
      apply (A2 r' Hr'). rewrite <- Hk1. apply elem_of_union_l, elem_of_singleton. done.
    + intros r. rewrite elem_of_app. intros [Hr|Hr]; [by apply Hadds|].
      intros Hv. apply (A2 r Hr). by apply elem_of_union_r.
    + intros r. rewrite elem_of_app. intros [Hr|Hr]; [by apply Hadds|by apply A3].
    + intros r. rewrite elem_of_app. intros [Hr|Hr]; [by apply Hadds|by apply A4].
  - intros Hnn. destruct (Hch Hnn) as [C1 C2 C3 C4].
    pose proof (Hnn _ _ _ _ _ Hm Hdt) as Hdt0.
    assert (Hdead : ltb 0 (total - acc) = false -> more = []).
    { intros E. apply C2. apply not_true_iff_false in E. rewrite ltb_lt in E.
      apply Qnot_lt_le in E. lra. }
    split.
    + unfold here in *. destruct (ltb 0 (total - acc)) eqn:E; simpl.
      * done.
      * by rewrite (Hdead eq_refl).
    + intros Hsp. rewrite (chain_spent _ _ _ _ Hchain Hsp).
      simpl. apply C2. lra.
    + intros r. rewrite elem_of_app. intros [Hr|Hr]; [by apply Hchain|].
      pose proof (C3 r Hr). lra.
    + unfold here in *. destruct (ltb 0 (total - acc)) eqn:E; simpl; [|done].
      constructor; [done|]. apply Forall_forall. intros r Hr.
      pose proof (C3 r Hr). simpl. lra.
Qed.

Lemma nodup_keys_bounded (m : gmap string Entry) (l : list string) :
  NoDup l -> (forall s, s ∈ l -> is_Some (m !! s)) -> length l <= size m.
Proof.
  intros Hnd Hin. rewrite <- (size_list_to_set (C := gset string) l Hnd), <- size_dom.
  apply subseteq_size. intros s Hs. apply elem_of_list_to_set in Hs.
  apply elem_of_dom. by apply Hin.
Qed.

Lemma traverse_from_stop_results
    (shape_map : gmap (string * string) (gmap string Entry))
    (start_stop : string) (total_seconds : Q) (key : string * string) :
  exists results,
    traverse_from_stop shape_map start_stop total_seconds key = Some results
    /\ NoDup results.*1.*1
    /\ (forall r, r ∈ results ->
          (0 < r.2)%Q
          /\ exists tt_s td,
               default ∅ (shape_map !! key) !! r.1.1 = Some (r.1.2, tt_s, td))
    /\ length results <= size (default ∅ (shape_map !! key)).
Proof.
  destruct (traverse_from_stop_total shape_map start_stop total_seconds key)
    as (results & log & Hlog & Hrun & _ & _).
  exists results. split; [done|].
  unfold traverse_from_stop_log in Hlog.
  destruct (traverse_loop_adds _ _ _ _ _ _ _ _ _ Hlog) as (added & Hout & [A1 A2 A3 A4] & _).
  assert (added = results) as -> by done. split; [done|]. split.
  - intros r Hr. split; [by apply A4|by apply A3].
  - trans (length results.*1.*1); [by rewrite !length_fmap|].
    apply nodup_keys_bounded; [done|].
    intros s Hs. apply list_elem_of_fmap in Hs as (k & -> & Hk).
    apply list_elem_of_fmap in Hk as (r & -> & Hr).
    destruct (A3 r Hr) as (tt_s & td & E). eexists. apply E.
Qed.

(** X8.  [traverse_from_stop] returns, and no stop occurs twice among its
    results: each result is a stop of the (route, shape) group with a
    positive time left, paired with the successor the table gives it, so
    there are at most as many results as the group has stops. *)
Theorem traversal_results_are_distinct_stops
    (shape_map : gmap (string * string) (gmap string Entry))
    (start_stop : string) (total_seconds : Q) (key : string * string) :
  exists results,
    traverse_from_stop shape_map start_stop total_seconds key = Some results
    /\ NoDup results.*1.*1
    /\ (forall r, r ∈ results ->
          (0 < r.2)%Q
          /\ exists tt_s td,
               default ∅ (shape_map !! key) !! r.1.1 = Some (r.1.2, tt_s, td))
    /\ length results <= size (default ∅ (shape_map !! key)).
Proof. apply traverse_from_stop_results. Qed.

(** X9.  When no edge of the group takes a negative time, the results of
    [traverse_from_stop] follow the successor links from the start stop
    without a gap, the time left never grows along them, and it never
    exceeds the time the traversal was given. *)
Theorem traversal_follows_links
    (shape_map : gmap (string * string) (gmap string Entry))
    (start_stop : string) (total_seconds : Q) (key : string * string) :
  nonneg_edges (default ∅ (shape_map !! key)) ->
  exists results,
    traverse_from_stop shape_map start_stop total_seconds key = Some results
    /\ path_from start_stop results
    /\ StronglySorted (fun a b : Result => (b.2 <= a.2)%Q) results
    /\ forall r, r ∈ results -> (r.2 <= total_seconds)%Q.
Proof.
  intros Hnn.
  destruct (traverse_from_stop_total shape_map start_stop total_seconds key)
    as (results & log & Hlog & Hrun & _ & _).
  exists results. split; [done|].
  unfold traverse_from_stop_log in Hlog.
  destruct (traverse_loop_adds _ _ _ _ _ _ _ _ _ Hlog) as (added & Hout & _ & Hch).
  assert (added = results) as -> by done. destruct (Hch Hnn) as [C1 C2 C3 C4].
  split; [done|]. split; [done|]. intros r Hr. pose proof (C3 r Hr). lra.
Qed.

Lemma cyclic_edges_nonneg :
  nonneg_edges (default ∅ (cyclic_shape_map !! ("R", "S"))).
Proof.
  unfold cyclic_shape_map. rewrite lookup_singleton_eq. simpl.
  intros s nxt tt td dt Hs Hdt.
  apply lookup_insert_Some in Hs as [[_ Hs]|[_ Hs]].
  - inversion Hs; subst. inversion Hdt; subst. discriminate.
  - apply lookup_singleton_Some in Hs as [_ Hs].
    inversion Hs; subst. inversion Hdt; subst. discriminate.
Defined.

Lemma traversal_follows_links_witness :
  exists results,
    traverse_from_stop cyclic_shape_map "X" 100 ("R", "S") = Some results
    /\ path_from "X" results
    /\ StronglySorted (fun a b : Result => (b.2 <= a.2)%Q) results
    /\ forall r, r ∈ results -> (r.2 <= 100)%Q.
Proof.
  apply (traversal_follows_links cyclic_shape_map "X" 100 ("R", "S")).
  apply cyclic_edges_nonneg.
Defined.

(** *** The rows of one group *)

Lemma round_nonneg (x : Q) : (0 <= x)%Q -> (0 <= Py.round x)%Z.
Proof.
  intros Hx. pose proof (BuilderFacts.round_nearest x) as [Hlo _].
  assert (H : (inject_Z (-1) < inject_Z (Py.round x))%Q).
  { change (inject_Z (-1)) with (-1)%Q. lra. }
  rewrite <- Zlt_Qlt in H. lia.
Qed.

Lemma group_rows_spec
    (shape_map : gmap (string * string) (gmap string Entry))
    (stops : gmap string (option Q * option Q))
    (total_seconds : Z) (route shape stop_id : string) (dist_m : Q) :
  exists rows,
    group_rows shape_map stops total_seconds route shape stop_id dist_m = Some rows
    /\ NoDup (out_stop_id <$> rows)
    /\ length rows <= size (default ∅ (shape_map !! (route, shape)))
    /\ forall row, row ∈ rows ->
         (0 <= out_area_radius_m row)%Z
         /\ out_route_id row = route /\ out_shape_id row = shape
         /\ exists td,
              default ∅ (shape_map !! (route, shape)) !! out_stop_id row
              = Some (out_next_stop_id row, out_travel_time_to_next row, td).
Proof.
  unfold group_rows, rows_from.
  destruct (Qle_bool _ 0).
  { exists []. split; [done|]. split; [constructor|]. split; [simpl; lia|].
    intros row Hrow. by apply elem_of_nil in Hrow. }
  match goal with |- context [traverse_from_stop _ _ ?t _] => set (remaining := t) end.
  destruct (traverse_from_stop_results shape_map stop_id remaining (route, shape))
    as (results & Hrun & Hnd & Hres & Hlen).
  rewrite Hrun. eexists. split; [done|].
  set (m := default ∅ (shape_map !! (route, shape))) in *.
  split; [|split].
  - match goal with
    | |- NoDup (out_stop_id <$> map ?f results) =>
        assert (E : forall l : list Result, out_stop_id <$> map f l = l.*1.*1)
    end.
    { induction l as [|[[a b] c] l IHl]; [done|]. simpl. f_equal. apply IHl. }
    by rewrite E.
  - by rewrite length_map.
  - intros row Hrow. apply list_elem_of_In, in_map_iff in Hrow as ([[sid nxt] tl] & <- & Hr).
    apply list_elem_of_In in Hr. destruct (Hres _ Hr) as (Hpos & tt_s & td & E).
    simpl in *. split; [|split; [done|split; [done|]]].
    + apply round_nonneg. apply Qmult_le_0_compat; [lra|discriminate].
    + exists td. fold m. by rewrite E.
Qed.

(** X10.  The rows a (route, shape) group contributes to the output name
    each stop at most once, carry the route and the shape of the group,
    repeat the successor and the travel time of the table, and never have
    a negative radius. *)
Theorem group_rows_one_row_per_stop
    (shape_map : gmap (string * string) (gmap string Entry))
    (stops : gmap string (option Q * option Q))
    (total_seconds : Z) (route shape stop_id : string) (dist_m : Q) :
  exists rows,
    group_rows shape_map stops total_seconds route shape stop_id dist_m = Some rows
    /\ NoDup (out_stop_id <$> rows)
    /\ length rows <= size (default ∅ (shape_map !! (route, shape)))
    /\ forall row, row ∈ rows ->
         (0 <= out_area_radius_m row)%Z
         /\ out_route_id row = route /\ out_shape_id row = shape
         /\ exists td,
              default ∅ (shape_map !! (route, shape)) !! out_stop_id row
              = Some (out_next_stop_id row, out_travel_time_to_next row, td).
Proof. apply group_rows_spec. Qed.

(** X11.  When the nearest stops are listed for distinct (route, shape)
    groups, as the keys of a dictionary are, the whole run does not fail
    and its output has at most one row for each (route, shape, stop);
    every row belongs to a listed group and has a non-negative radius. *)
Theorem main_rows_one_row_per_group_stop
    (shape_map : gmap (string * string) (gmap string Entry))
    (stops : gmap string (option Q * option Q)) (total_seconds : Z)
    (nearest : list ((string * string) * (string * Q))) :
  NoDup nearest.*1 ->
  exists rows,
    main_rows shape_map stops total_seconds nearest = Some rows
    /\ NoDup ((fun row => (out_route_id row, out_shape_id row, out_stop_id row))
                <$> rows)
    /\ forall row, row ∈ rows ->
         (0 <= out_area_radius_m row)%Z
         /\ (out_route_id row, out_shape_id row) ∈ nearest.*1.
Proof.
  induction nearest as [|[[route shape] [stop_id dist_m]] rest IH]; intros Hnd.
  { exists []. split; [done|]. split; [constructor|].
    intros row Hrow. by apply elem_of_nil in Hrow. }
  simpl in Hnd. apply NoDup_cons in Hnd as [Hfresh Hnd].
  destruct (IH Hnd) as (more & Hmore & Hnd' & Hin').
  destruct (group_rows_spec shape_map stops total_seconds route shape stop_id dist_m)
    as (rows & Hrows & Hndr & _ & Hin).
  exists (rows ++ more). cbn [main_rows]. rewrite Hrows, Hmore.
  split; [done|]. split.
  - rewrite fmap_app. apply NoDup_app. split; [|split; [|done]].
    + assert (E : (fun row => (out_route_id row, out_shape_id row, out_stop_id row))
                    <$> rows = pair (route, shape) <$> (out_stop_id <$> rows)).
      { rewrite <- list_fmap_compose. apply Forall_fmap_ext, Forall_forall.
        intros row Hrow. destruct (Hin row Hrow) as (_ & -> & -> & _). done. }
      rewrite E. apply NoDup_fmap; [|done]. by intros a b [= ->].
    + intros k Hk Hk'.
      apply list_elem_of_fmap in Hk as (row & -> & Hrow).
      apply list_elem_of_fmap in Hk' as (row' & Heq & Hrow').
      destruct (Hin row Hrow) as (_ & E1 & E2 & _).
      destruct (Hin' row' Hrow') as (_ & Hkey).
      injection Heq as E3 E4 _. apply Hfresh. simpl.
      rewrite <- E1, <- E2, E3, E4. exact Hkey.
  - intros row Hrow. apply elem_of_app in Hrow as [Hrow|Hrow].
    + destruct (Hin row Hrow) as (Hr & -> & -> & _). split; [done|]. left.
    + destruct (Hin' row Hrow) as (Hr & Hkey). split; [done|]. by right.
Qed.

Lemma main_rows_one_row_per_group_stop_witness :
  exists rows,
    main_rows two_group_shape_map cyclic_stops 600
      [(("R", "S"), ("X", 10007%Q)); (("Q", "T"), ("X", 0%Q))]
    = Some rows
    /\ NoDup ((fun row => (out_route_id row, out_shape_id row, out_stop_id row))
                <$> rows)
    /\ forall row, row ∈ rows ->
         (0 <= out_area_radius_m row)%Z
         /\ (out_route_id row, out_shape_id row)
            ∈ [(("R", "S"), ("X", 10007%Q)); (("Q", "T"), ("X", 0%Q))].*1.
Proof.
  apply (main_rows_one_row_per_group_stop two_group_shape_map cyclic_stops 600
           [(("R", "S"), ("X", 10007%Q)); (("Q", "T"), ("X", 0%Q))]).
  simpl. apply NoDup_cons. split; [|apply NoDup_singleton].
  intros H. apply list_elem_of_singleton in H. discriminate.
Defined.

(** The run of the witness: the stop X gets a row in each of the two
    groups. *)
Example two_group_rows :
  main_rows two_group_shape_map cyclic_stops 600
    [(("R", "S"), ("X", 10007%Q)); (("Q", "T"), ("X", 0%Q))]
  = Some [ mkOutRow "X" "R" "S" (Some 0.09%Q) (Some 0%Q) "Y" (Some 60%Z) 224;
           mkOutRow "Y" "R" "S" (Some 0.1%Q) (Some 0%Q) "X" (Some 60%Z) 140;
           mkOutRow "X" "Q" "T" (Some 0.09%Q) (Some 0%Q) "Z" (Some 30%Z) 812 ].
Proof. vm_compute. reflexivity. Qed.

(** X12.  A budget of at most the boarding time (20 s) yields no row,
    however near the stop is. *)
Theorem group_rows_short_budget
    (shape_map : gmap (string * string) (gmap string Entry))
    (stops : gmap string (option Q * option Q))
    (total_seconds : Z) (route shape stop_id : string) (dist_m : Q) :
  (total_seconds <= 20)%Z -> (0 <= dist_m)%Q ->
  group_rows shape_map stops total_seconds route shape stop_id dist_m = Some [].
Proof.
  intros Ht Hd. unfold group_rows, rows_from.
  set (t := inject_Z total_seconds).
  assert (Ht' : (t <= 20)%Q).
  { unfold t. change 20%Q with (inject_Z 20). by rewrite <- Zle_Qle. }
  assert (Hw : (0 <= dist_m / WALK_SPEED)%Q).
  { apply Qle_shift_div_l; [reflexivity|]. lra. }
  assert (Hrem : (t - py_min (dist_m / WALK_SPEED) (t * 0.7) - inject_Z BOARD_TIME <= 0)%Q).
  { change (inject_Z BOARD_TIME) with 20%Q. unfold py_min.
    destruct (ltb (t * 0.7) (dist_m / WALK_SPEED)) eqn:E; [|lra].
    apply ltb_lt in E. lra. }
  apply Qle_bool_iff in Hrem. by rewrite Hrem.
Qed.

Lemma group_rows_short_budget_witness :
  group_rows cyclic_shape_map cyclic_stops 20 "R" "S" "X" 0 = Some [].
Proof.
  apply (group_rows_short_budget cyclic_shape_map cyclic_stops 20 "R" "S" "X" 0).
  - lia.
  - discriminate.
Defined.

End BusAreasMore.

(** * The nearest stop of scripts/compute_bus_areas.py *)

Module BusNearestFacts.
Import App BusNearest.

Local Open Scope R_scope.

Lemma atan2_quadrant (y x : R) : 0 <= y -> 0 <= x -> 0 <= atan2 y x <= PI / 2.
Proof.
  intros Hy Hx. pose proof PI_RGT_0. unfold atan2.
  destruct (decide (0 < x)) as [Hpos|Hnpos].
  - pose proof (atan_bound (y / x)) as [_ Hub].
    assert (Hq : 0 <= y / x).
    { apply Rmult_le_pos; [done|]. left. by apply Rinv_0_lt_compat. }
    split; [|lra]. destruct Hq as [Hq|<-]; [|rewrite atan_0; lra].
    pose proof (atan_increasing _ _ Hq) as Hinc. rewrite atan_0 in Hinc. lra.
  - rewrite decide_False by lra.
    destruct (decide (0 < y)); [lra|].
    destruct (decide (y < 0)); lra.
Qed.

Lemma haversine_of_term_spec (a : R) :
  match haversine_of_term a with
  | None => a < 0 \/ 1 < a
  | Some d => 0 <= a <= 1 /\ 0 <= d <= PI * 6371000
  end.
Proof.
  unfold haversine_of_term. cbv zeta. case_decide as Ha.
  - destruct Ha; [by left|right; lra].
  - split; [lra|].
    pose proof (atan2_quadrant (sqrt a) (sqrt (1 - a)) (sqrt_pos _) (sqrt_pos _)).
    pose proof PI_RGT_0. nra.
Qed.

(** X13.  [haversine_m] fails exactly when the term it computes at line 34
    is below 0 or above 1, where [math.sqrt] raises; whenever it returns,
    the distance lies between 0 and half the circumference of the sphere
    of radius 6371 km. *)
Theorem haversine_fails_or_in_range (lat1 lon1 lat2 lon2 : R) :
  match haversine_m lat1 lon1 lat2 lon2 with
  | None =>
      haversine_term lat1 lon1 lat2 lon2 < 0 \/ 1 < haversine_term lat1 lon1 lat2 lon2
  | Some d =>
      0 <= haversine_term lat1 lon1 lat2 lon2 <= 1 /\ 0 <= d <= PI * 6371000
  end.
Proof. unfold haversine_m. apply haversine_of_term_spec. Qed.

Lemma haversine_zero (lat lon : R) : haversine_m lat lon lat lon = Some 0.
Proof.
  unfold haversine_m, haversine_term. cbv zeta.
  assert (E : sin (radians (lat - lat) / 2) ^ 2
              + cos (radians lat) * cos (radians lat)
                * sin (radians (lon - lon) / 2) ^ 2 = 0).
  { replace (radians (lat - lat) / 2) with 0 by (unfold radians; field).
    replace (radians (lon - lon) / 2) with 0 by (unfold radians; field).
    rewrite sin_0. ring. }
  rewrite E. unfold haversine_of_term. cbv zeta.
  rewrite decide_False by lra. f_equal.
  rewrite sqrt_0, Rminus_0_r, sqrt_1. unfold atan2.
  rewrite decide_True by lra. replace (0 / 1) with 0 by field.
  rewrite atan_0. ring.
Qed.

(** X14.  [haversine_m] is symmetric in its two points, and the distance
    from a point to itself is 0. *)
Theorem haversine_symmetric_and_zero (lat1 lon1 lat2 lon2 : R) :
  haversine_m lat1 lon1 lat2 lon2 = haversine_m lat2 lon2 lat1 lon1
  /\ haversine_m lat1 lon1 lat1 lon1 = Some 0.
Proof.
  split; [|apply haversine_zero].
  unfold haversine_m. f_equal. unfold haversine_term. cbv zeta.
  replace (radians (lat1 - lat2) / 2) with (- (radians (lat2 - lat1) / 2))
    by (unfold radians; field).
  replace (radians (lon1 - lon2) / 2) with (- (radians (lon2 - lon1) / 2))
    by (unfold radians; field).
  rewrite !sin_neg. ring.
Qed.

(** *** The search *)

Lemma located_snoc (stops : StopTable) (ids : list string) (x : string) :
  located stops (ids ++ [x])
  = located stops ids
    ++ match stops !! x with Some (Some c) => [(x, c)] | _ => [] end.
Proof.
  unfold located. rewrite omap_app. f_equal. simpl.
  by destruct (stops !! x) as [[c|]|].
Qed.

(** The state of a search that went through the stops [ids] without a
    failure: no stop with coordinates so far, or the first of the nearest
    ones. *)
Lemma nearest_in_spec (stops : StopTable) (work_lat work_lon : R) (ids : list string) :
  forall res,
    nearest_in stops work_lat work_lon ids = Some res ->
    match res with
    | None => located stops ids = []
    | Some (id, d) =>
        exists pre post lat lon,
          located stops ids = pre ++ (id, (lat, lon)) :: post
          /\ haversine_m work_lat work_lon lat lon = Some d
          /\ (forall x, x ∈ pre ->
                exists d', haversine_m work_lat work_lon x.2.1 x.2.2 = Some d'
                           /\ d < d')
          /\ (forall x, x ∈ post ->
                exists d', haversine_m work_lat work_lon x.2.1 x.2.2 = Some d'
                           /\ d <= d')
    end.
Proof.
  induction ids as [|x ids IH] using rev_ind; intros res Hrun.
  { injection Hrun as <-. done. }
  unfold nearest_in in *. rewrite fold_left_app in Hrun. cbn [fold_left] in Hrun.
  destruct (fold_left _ ids _) as [res0|]; [|done].
  specialize (IH res0 eq_refl). unfold nearest_step in Hrun.
  rewrite located_snoc.
  destruct (stops !! x) as [[[lat lon]|]|] eqn:Hx.
  2,3: injection Hrun as <-; by rewrite app_nil_r.
  destruct (haversine_m work_lat work_lon lat lon) as [d'|] eqn:Hd'; [|done].
  destruct res0 as [[id d]|].
  2:{ injection Hrun as <-. rewrite IH. simpl.
      exists [], [], lat, lon. split; [done|]. split; [done|].
      split; intros y Hy; by apply elem_of_nil in Hy. }
  destruct IH as (pre & post & blat & blon & Hloc & Hd & Hpre & Hpost).
  destruct (decide (d' < d)) as [Hlt|Hge]; injection Hrun as <-.
  - exists (located stops ids), [], lat, lon. split; [done|]. split; [done|]. split.
    + intros y Hy. rewrite Hloc in Hy.
      apply elem_of_app in Hy as [Hy|Hy].
      * destruct (Hpre y Hy) as (dy & E & ?). exists dy. split; [done|lra].
      * apply elem_of_cons in Hy as [->|Hy].
        -- exists d. split; [done|lra].
        -- destruct (Hpost y Hy) as (dy & E & ?). exists dy. split; [done|lra].
    + intros y Hy. by apply elem_of_nil in Hy.
  - exists pre, (post ++ [(x, (lat, lon))]), blat, blon.
    split; [by rewrite Hloc, <- app_assoc|]. split; [done|]. split; [done|].
    intros y Hy. apply elem_of_app in Hy as [Hy|Hy]; [by apply Hpost|].
    apply list_elem_of_singleton in Hy as ->. exists d'. split; [done|lra].
Qed.

Lemma elem_of_located (stops : StopTable) (ids : list string) (id : string) (c : R * R) :
  (id, c) ∈ located stops ids <-> id ∈ ids /\ stops !! id = Some (Some c).
Proof.
  unfold located. rewrite list_elem_of_omap. split.
  - intros (x & Hx & E). destruct (stops !! x) as [[c'|]|] eqn:Hs; try done.
    injection E as <- <-. done.
  - intros [Hid Hs]. exists id. by rewrite Hs.
Qed.

(** X15.  When [find_nearest_stop_for_shape] returns, each entry names a
    stop of its group that has coordinates, with its distance to the work
    point, and no stop of the group with coordinates is nearer; a group
    has an entry exactly when one of its stops has coordinates.  Stops
    that are missing from the stop table or have no coordinates are
    ignored. *)
Theorem nearest_stop_is_nearest (stops : StopTable)
    (shape_map : list ((string * string) * list string)) (work_lat work_lon : R)
    (nearest : list ((string * string) * (string * R))) :
  find_nearest_stop_for_shape stops shape_map work_lat work_lon = Some nearest ->
  nearest.*1 = (filter (fun g => located stops g.2 <> []) shape_map).*1
  /\ forall key id d, (key, (id, d)) ∈ nearest ->
       exists ids lat lon,
         (key, ids) ∈ shape_map /\ id ∈ ids
         /\ stops !! id = Some (Some (lat, lon))
         /\ haversine_m work_lat work_lon lat lon = Some d
         /\ forall id' lat' lon',
              id' ∈ ids -> stops !! id' = Some (Some (lat', lon')) ->
              exists d', haversine_m work_lat work_lon lat' lon' = Some d'
                         /\ d <= d'.
Proof.
  revert nearest. induction shape_map as [|[key ids] rest IH]; intros nearest Hrun.
  { injection Hrun as <-. split; [done|]. intros ??? H. by apply elem_of_nil in H. }
  cbn [find_nearest_stop_for_shape] in Hrun.
  destruct (nearest_in stops work_lat work_lon ids) as [res|] eqn:Hin; [|done].
  pose proof (nearest_in_spec stops work_lat work_lon ids res Hin) as Hres.
  destruct (find_nearest_stop_for_shape stops rest work_lat work_lon)
    as [more|] eqn:Hrest; [|by destruct res].
  destruct (IH more eq_refl) as [Hkeys Hall].
  assert (Hkeep : forall key' id d, (key', (id, d)) ∈ more ->
            exists ids' lat lon,
              (key', ids') ∈ (key, ids) :: rest /\ id ∈ ids'
              /\ stops !! id = Some (Some (lat, lon))
              /\ haversine_m work_lat work_lon lat lon = Some d
              /\ forall id' lat' lon',
                   id' ∈ ids' -> stops !! id' = Some (Some (lat', lon')) ->
                   exists d', haversine_m work_lat work_lon lat' lon' = Some d'
                              /\ d <= d').
  { intros key' id d Hel. destruct (Hall _ _ _ Hel) as (ids' & lat & lon & H1 & H2).
    exists ids', lat, lon. split; [by right|done]. }
  destruct res as [[id d]|]; injection Hrun as <-.
  2:{ split; [|done]. rewrite filter_cons_False; [done|].
      simpl. intros Hne. by apply Hne. }
  destruct Hres as (pre & post & lat & lon & Hloc & Hd & Hpre & Hpost).
  split.
  { rewrite filter_cons_True; [by rewrite !fmap_cons, Hkeys|].
    simpl. rewrite Hloc. by destruct pre. }
  intros key' id' d0 Hel. apply elem_of_cons in Hel as [Heq|Hel]; [|by apply Hkeep].
  injection Heq as -> -> ->.
  assert (Hbest : (id, (lat, lon)) ∈ located stops ids).
  { rewrite Hloc. apply elem_of_app. right. left. }
  apply elem_of_located in Hbest as [Hid Hs].
  exists ids, lat, lon. split; [left|]. split; [done|]. split; [done|]. split; [done|].
  intros id' lat' lon' Hid' Hs'.
  assert (Hin' : (id', (lat', lon')) ∈ located stops ids) by (by apply elem_of_located).
  rewrite Hloc in Hin'. apply elem_of_app in Hin' as [Hin'|Hin'].
  - destruct (Hpre _ Hin') as (d' & E & ?). exists d'. split; [done|]. simpl in *. lra.
  - apply elem_of_cons in Hin' as [Heq|Hin'].
    + injection Heq as -> -> ->. exists d. split; [done|lra].
    + destruct (Hpost _ Hin') as (d' & E & ?). exists d'. done.
Qed.

(** A quarter of the way round the equator. *)
Lemma haversine_quarter : haversine_m 0 0 0 90 = Some (6371000 * 2 * (PI / 4)).
Proof.
  unfold haversine_m, haversine_term. cbv zeta.
  assert (Hs2 : 0 < sqrt 2) by (apply sqrt_lt_R0; lra).
  assert (E : sin (radians (0 - 0) / 2) ^ 2
              + cos (radians 0) * cos (radians 0) * sin (radians (90 - 0) / 2) ^ 2
              = 1 / 2).
  { replace (radians (0 - 0) / 2) with 0 by (unfold radians; field).
    replace (radians 0) with 0 by (unfold radians; field).
    replace (radians (90 - 0) / 2) with (PI / 4) by (unfold radians; field).
    rewrite sin_0, cos_0, sin_PI4.
    replace ((1 / sqrt 2) ^ 2) with (1 / (sqrt 2 * sqrt 2)) by (field; lra).
    rewrite sqrt_sqrt by lra. lra. }
  rewrite E. unfold haversine_of_term. cbv zeta.
  rewrite decide_False by lra. do 2 f_equal.
  replace (1 - 1 / 2) with (1 / 2) by lra.
  assert (Hh : 0 < sqrt (1 / 2)) by (apply sqrt_lt_R0; lra).
  unfold atan2. rewrite decide_True by done.
  replace (sqrt (1 / 2) / sqrt (1 / 2)) with 1 by (field; lra).
  apply atan_1.
Qed.

(** The search over the group [Y; X] of the stops of [quarter_stops]
    keeps Y first, then replaces it by the nearer X. *)
Lemma quarter_nearest :
  find_nearest_stop_for_shape quarter_stops [(("R", "S"), ["Y"; "X"])] 0 0
  = Some [(("R", "S"), ("X", 0))].
Proof.
  assert (HX : quarter_stops !! "X" = Some (Some (0, 0))).
  { unfold quarter_stops, StopTable. by rewrite lookup_insert_eq. }
  assert (HY : quarter_stops !! "Y" = Some (Some (0, 90))).
  { unfold quarter_stops, StopTable. rewrite lookup_insert_ne by done.
    by rewrite lookup_singleton_eq. }
  cbn [find_nearest_stop_for_shape]. unfold nearest_in. cbn [fold_left].
  unfold nearest_step. rewrite HY, HX, haversine_quarter, haversine_zero.
  pose proof PI_RGT_0. rewrite decide_True by lra. done.
Qed.

Lemma nearest_stop_is_nearest_witness :
  [(("R", "S"), ("X", 0))].*1
  = (filter (fun g : (string * string) * list string => located quarter_stops g.2 <> [])
       [(("R", "S"), ["Y"; "X"])]).*1
  /\ forall key id d, (key, (id, d)) ∈ [(("R", "S"), ("X", 0))] ->
       exists ids lat lon,
         (key, ids) ∈ [(("R", "S"), ["Y"; "X"])] /\ id ∈ ids
         /\ quarter_stops !! id = Some (Some (lat, lon))
         /\ haversine_m 0 0 lat lon = Some d
         /\ forall id' lat' lon',
              id' ∈ ids -> quarter_stops !! id' = Some (Some (lat', lon')) ->
              exists d', haversine_m 0 0 lat' lon' = Some d' /\ d <= d'.
Proof.
  apply (nearest_stop_is_nearest quarter_stops [(("R", "S"), ["Y"; "X"])] 0 0
           [(("R", "S"), ("X", 0))]).
  apply quarter_nearest.
Defined.

End BusNearestFacts.

(** * Further properties of the transit isochrone of app.py *)

Module IsochroneMore.
Import App IsochroneFacts RideSpec.

(** *** The boarding stop *)

Lemma closest_stop_snoc (center_lat center_lon : R) (stops : list Stop) (x : Stop) :
  closest_stop center_lat center_lon (stops ++ [x])
  = closest_step center_lat center_lon (closest_stop center_lat center_lon stops)
      (length stops, x).
Proof.
  unfold closest_stop. rewrite length_app.
  change (length [x]) with 1. rewrite seq_app.
  change (seq (0 + length stops) 1) with [length stops].
  rewrite zip_with_app by (by rewrite length_seq).
  by rewrite fold_left_app.
Qed.

Lemma closest_stop_spec (center_lat center_lon : R) (stops : list Stop) :
  match closest_stop center_lat center_lon stops with
  | None => stops = []
  | Some (s, d, i) =>
      stops !! i = Some s
      /\ d = planar_distance center_lat center_lat center_lon (stop_lat s) (stop_lon s)
      /\ forall j s', stops !! j = Some s' ->
           (d <= planar_distance center_lat center_lat center_lon
                   (stop_lat s') (stop_lon s'))%R
           /\ (j < i ->
               (d < planar_distance center_lat center_lat center_lon
                      (stop_lat s') (stop_lon s'))%R)
  end.
Proof.
  induction stops as [|x stops IH] using rev_ind; [done|].
  rewrite closest_stop_snoc.
  destruct (closest_stop center_lat center_lon stops) as [[[s d] i]|]; simpl.
  - destruct IH as (Hi & Hd & Hmin).
    pose proof (lookup_lt_Some _ _ _ Hi) as Hlt.
    case_decide as Hcmp.
    + split; [by rewrite list_lookup_middle|]. split; [done|].
      intros j s' Hj. apply lookup_snoc_Some in Hj as [[Hjl Hj]|[-> <-]].
      * destruct (Hmin j s' Hj) as [Hle _]. split; [lra|]. intros _. lra.
      * split; [lra|lia].
    + split; [by rewrite lookup_app_l|]. split; [done|].
      intros j s' Hj. apply lookup_snoc_Some in Hj as [[Hjl Hj]|[-> <-]].
      * by apply Hmin.
      * split; [lra|lia].
  - subst stops. simpl. split; [done|]. split; [done|].
    intros j s' Hj. destruct j as [|j]; [|done]. injection Hj as <-.
    split; [lra|lia].
Qed.

(** X16.  The stop a route is boarded at is the nearest of its stops in
    the planar metric of the origin, the first of them when several are
    equally near; only a route without stops has none. *)
Theorem closest_stop_is_first_nearest (center_lat center_lon : R) (stops : list Stop) :
  match closest_stop center_lat center_lon stops with
  | None => stops = []
  | Some (s, d, i) =>
      stops !! i = Some s
      /\ d = planar_distance center_lat center_lat center_lon (stop_lat s) (stop_lon s)
      /\ forall j s', stops !! j = Some s' ->
           (d <= planar_distance center_lat center_lat center_lon
                   (stop_lat s') (stop_lon s'))%R
           /\ (j < i ->
               (d < planar_distance center_lat center_lat center_lon
                      (stop_lat s') (stop_lon s'))%R)
  end.
Proof. apply closest_stop_spec. Qed.

(** *** Riding along a line *)







(** *** The returned polygon *)

Lemma circle_point_distance (lat lon radius angle : R) :
  cos (radians lat) <> 0%R -> (0 <= radius)%R ->
  planar_distance lat lat lon
    (lat + radius / 111000 * cos angle)
    (lon + radius / (111000 * Rabs (cos (radians lat))) * sin angle)
  = radius.
Proof.
  intros Hcos Hr. unfold planar_distance.
  assert (Habs : Rabs (cos (radians lat)) <> 0%R) by (by apply Rabs_no_R0).
  set (c := Rabs (cos (radians lat))) in *.
  replace ((((lat + radius / 111000 * cos angle - lat) * 111000) ^ 2
            + ((lon + radius / (111000 * c) * sin angle - lon) * 111000 * c) ^ 2))%R
    with ((radius * radius) * ((sin angle)² + (cos angle)²))%R
    by (unfold Rsqr; field; done).
  rewrite sin2_cos2, Rmult_1_r. by apply sqrt_square.
Qed.

(** X18.  Away from the poles and for a non-negative budget, every point
    of the polygon returned for public transport lies, in the planar
    metric of the origin, exactly [minutes * 0.70 * 80] metres from the
    origin: the polygon is the walking circle of the origin. *)
Theorem transit_polygon_on_walking_circle (routes : list (string * Route))
    (lat lon minutes : R) :
  cos (radians lat) <> 0%R -> (0 <= minutes)%R ->
  exists isochrone,
    generate_transit_isochrone_on routes lat lon minutes = Some isochrone
    /\ forall p, p ∈ f_coordinates isochrone ->
         planar_distance lat lat lon p.2 p.1 = (minutes * 0.70 * 80)%R.
Proof.
  intros Hcos Hm.
  destruct (transit_run_total routes lat lon minutes)
    as (run & ring & Hrun & Hring & Hcoord & _).
  unfold generate_transit_isochrone_on. rewrite Hrun. simpl.
  eexists. split; [done|]. rewrite Hcoord. intros p Hp.
  assert (Hrad : (0 <= MAX_WALK_DISTANCE minutes)%R).
  { unfold MAX_WALK_DISTANCE, MAX_WALK_TO_STATION, WALK_SPEED. lra. }
  assert (Hpt : exists i, i < 32 /\ ring !! i = Some p).
  { destruct (create_circle_geometry_closed (lon, lat) (MAX_WALK_DISTANCE minutes) 31)
      as (first & rest & Hring' & Hlen).
    rewrite Hring in Hring'. injection Hring' as ->.
    change (p ∈ (first :: rest) ++ [first]) in Hp.
    apply elem_of_app in Hp as [Hp|Hp].
    - apply list_elem_of_lookup in Hp as [i Hi]. exists i.
      pose proof (lookup_lt_Some _ _ _ Hi) as Hlt.
      split; [rewrite <- Hlen; exact Hlt|]. change ((first :: rest ++ [first]) !! i)
        with (((first :: rest) ++ [first]) !! i). by rewrite lookup_app_l by exact Hlt.
    - apply list_elem_of_singleton in Hp as ->. exists 0. split; [lia|done]. }
  destruct Hpt as (i & Hi & Hlook).
  rewrite (create_circle_geometry_point _ _ _ i _ Hring Hi) in Hlook.
  injection Hlook as <-. simpl.
  rewrite circle_point_distance by done.
  unfold MAX_WALK_DISTANCE, MAX_WALK_TO_STATION, WALK_SPEED. done.
Qed.

Lemma transit_polygon_on_walking_circle_witness :
  exists isochrone,
    generate_transit_isochrone_on get_transport_routes 0 0 30 = Some isochrone
    /\ forall p, p ∈ f_coordinates isochrone ->
         planar_distance 0 0 0 p.2 p.1 = (30 * 0.70 * 80)%R.
Proof.
  apply (transit_polygon_on_walking_circle get_transport_routes 0 0 30).
  - unfold radians. rewrite Rmult_0_l, cos_0. lra.
  - lra.
Defined.

End IsochroneMore.

(** * Further properties of group_connected_circles *)

Module GroupingMore.
Import App ForestFacts GroupingFacts.

(** *** find and union *)

Lemma find_result (fuel : nat) :
  forall (p : list nat) (x : nat) (p' : list nat) (r : nat),
    find fuel p x = Some (p', r) ->
    length p' = length p /\ p' !! x = Some r.
Proof.
  induction fuel as [|fuel IH]; intros p x p' r; simpl; [done|].
  destruct (p !! x) as [px|] eqn:Hx; [|done].
  case_decide as Hne.
  - destruct (find fuel p px) as [[p1 r1]|] eqn:Hrec; [|done].
    intros [= <- <-]. destruct (IH _ _ _ _ Hrec) as [Hlen _].
    rewrite length_insert. split; [done|].
    apply list_lookup_insert_eq. rewrite Hlen. by eapply lookup_lt_Some.
  - intros [= <- <-]. done.
Qed.

(** X19.  [find] returns the root of its argument, keeps every root, and
    compresses the path: afterwards the argument points at its root
    directly, and a second [find] changes nothing more. *)
Theorem find_compresses_path (p : list nat) (x : nat) :
  forest p -> x < length p ->
  exists p',
    find (find_fuel p) p x = Some (p', root_of p x)
    /\ length p' = length p
    /\ p' !! x = Some (root_of p x)
    /\ (forall y, root_of p' y = root_of p y)
    /\ find (find_fuel p') p' x = Some (p', root_of p x).
Proof.
  intros Hp Hx. destruct (find_spec p x Hp Hx) as (p' & Hrun & Hp' & Hlen & Hroots).
  exists p'. destruct (find_result _ _ _ _ _ Hrun) as [_ Hlook].
  split; [done|]. split; [done|]. split; [done|]. split; [done|].
  set (r := root_of p x) in *.
  assert (Hr : p' !! r = Some r).
  { assert (Hroot : is_root p' r).
    { unfold r. rewrite <- Hroots. by apply root_of_is_root. }
    assert (Hrlt : r < length p').
    { rewrite Hlen. by apply root_of_lt. }
    destruct (lookup_lt_is_Some_2 p' r Hrlt) as [y Hy].
    unfold is_root, par in Hroot. rewrite Hy in Hroot. simpl in Hroot. by subst y. }
  unfold find_fuel. destruct (length p') as [|n] eqn:Hn; [lia|].
  cbn [find]. rewrite Hlook. case_decide as Hne; [|done].
  cbn [find]. rewrite Hr. rewrite decide_False by (intros H; by apply H).
  by rewrite list_insert_id.
Qed.

(** The chain 2 -> 1 -> 0. *)
Lemma chain_forest : forest [0; 0; 1].
Proof.
  split.
  - intros [|[|[|x]]] Hx; unfold par; simpl in *; lia.
  - intros [|[|[|x]]]; reflexivity.
Qed.

Example chain_find : find (find_fuel [0; 0; 1]) [0; 0; 1] 2 = Some ([0; 0; 0], 0).
Proof. reflexivity. Qed.

Lemma find_compresses_path_witness :
  exists p',
    find (find_fuel [0; 0; 1]) [0; 0; 1] 2 = Some (p', root_of [0; 0; 1] 2)
    /\ length p' = length [0; 0; 1]
    /\ p' !! 2 = Some (root_of [0; 0; 1] 2)
    /\ (forall y, root_of p' y = root_of [0; 0; 1] y)
    /\ find (find_fuel p') p' 2 = Some (p', root_of [0; 0; 1] 2).
Proof.
  apply (find_compresses_path [0; 0; 1] 2).
  - apply chain_forest.
  - simpl. lia.
Defined.

(** X20.  [union] merges the classes of its two arguments and nothing
    else: afterwards the two have the same root, elements that shared a
    root still do, and two elements share a root only if they did before
    or if one was in the class of [x] and the other in the class of [y]. *)
Theorem union_merges_two_classes (p : list nat) (x y : nat) :
  forest p -> x < length p -> y < length p ->
  exists p',
    union p x y = Some p'
    /\ forest p' /\ length p' = length p
    /\ same_root p' x y
    /\ forall a b,
         same_root p' a b
         <-> same_root p a b
             \/ (same_root p a x /\ same_root p b y)
             \/ (same_root p a y /\ same_root p b x).
Proof.
  intros Hp Hx Hy.
  destruct (union_spec p x y Hp Hx Hy) as (p' & Hrun & Hp' & Hlen & Hroot).
  exists p'. split; [done|]. split; [done|]. split; [done|].
  unfold same_root. split.
  - rewrite !Hroot. rewrite decide_True by done. by case_decide.
  - intros a b. rewrite !Hroot. repeat case_decide; split; intros H';
      try (intuition congruence).
Qed.

Lemma union_merges_two_classes_witness :
  exists p',
    union (seq 0 2) 0 1 = Some p'
    /\ forest p' /\ length p' = length (seq 0 2)
    /\ same_root p' 0 1
    /\ forall a b,
         same_root p' a b
         <-> same_root (seq 0 2) a b
             \/ (same_root (seq 0 2) a 0 /\ same_root (seq 0 2) b 1)
             \/ (same_root (seq 0 2) a 1 /\ same_root (seq 0 2) b 0).
Proof.
  apply (union_merges_two_classes (seq 0 2) 0 1).
  - apply forest_range.
  - simpl. lia.
  - simpl. lia.
Defined.

(** *** The groups as a partition *)

Lemma collect_none (circles : list Circle) (is_ : list nat) :
  fold_left (collect_step circles) is_ None = None.
Proof. induction is_ as [|i is_ IH]; [done|]. simpl. apply IH. Qed.

Lemma groups_append_concat (G : list (nat * list Circle)) (r : nat) (c : Circle) :
  concat (groups_append G r c).*2 ≡ₚ concat G.*2 ++ [c].
Proof.
  induction G as [|[r' g] G IH]; simpl; [done|].
  case_decide; simpl.
  - rewrite <- !app_assoc. apply Permutation_app_head. apply Permutation_app_comm.
  - rewrite IH. by rewrite app_assoc.
Qed.

Lemma collect_concat (circles : list Circle) (is_ : list nat) :
  forall st st',
    fold_left (collect_step circles) is_ (Some st) = Some st' ->
    concat st'.2.*2 ≡ₚ concat st.2.*2 ++ omap (fun i => circles !! i) is_.
Proof.
  induction is_ as [|i is_ IH]; intros [p G] st' Hrun.
  { injection Hrun as <-. simpl. by rewrite app_nil_r. }
  cbn [fold_left] in Hrun.
  destruct (collect_step circles (Some (p, G)) i) as [st1|] eqn:Hstep;
    [|by rewrite collect_none in Hrun].
  rewrite (IH _ _ Hrun). unfold collect_step in Hstep.
  destruct (circles !! i) as [c|] eqn:Hc; [|done].
  destruct (find (find_fuel p) p i) as [[p1 root]|]; [|done].
  injection Hstep as <-. simpl. rewrite Hc, groups_append_concat.
  by rewrite <- app_assoc.
Qed.

Lemma omap_lookup_seq {A} (l : list A) :
  omap (fun i => l !! i) (seq 0 (length l)) = l.
Proof.
  induction l as [|x l IH] using rev_ind; [done|].
  rewrite length_app. change (length [x]) with 1.
  rewrite seq_app, omap_app. f_equal.
  - etrans; [|exact IH]. apply list_omap_ext, Forall2_same_length_lookup_2; [done|].
    intros i a b Ha Hb. rewrite Ha in Hb. injection Hb as <-.
    apply lookup_seq in Ha as [-> Hlt]. by rewrite lookup_app_l by lia.
  - simpl. by rewrite list_lookup_middle.
Qed.

Lemma omap_sublist {A B} (f g : A -> option B) (l : list A) :
  (forall x y, f x = Some y -> g x = Some y) -> omap f l `sublist_of` omap g l.
Proof.
  intros Hfg. induction l as [|x l IH]; simpl; [done|].
  destruct (f x) as [y|] eqn:E.
  - rewrite (Hfg _ _ E). by apply sublist_skip.
  - destruct (g x); [by apply sublist_cons|done].
Qed.

(** X21.  [group_connected_circles] returns a partition of its input:
    every circle is in exactly one group (the groups, put end to end, are
    a rearrangement of the input), no group is empty, and within a group
    the circles keep the order of the input. *)
Theorem groups_partition_the_circles (circles : list Circle) :
  exists groups,
    group_connected_circles circles = Some groups
    /\ concat groups ≡ₚ circles
    /\ forall g, g ∈ groups -> g <> [] /\ g `sublist_of` circles.
Proof.
  unfold group_connected_circles.
  destruct (decide (circles = [])) as [Hnil|Hne].
  { rewrite Hnil. exists []. split; [done|]. split; [done|].
    intros g Hg. by apply elem_of_nil in Hg. }
  destruct (connect_all_spec circles) as (p0 & Hrun & Hp0 & Hlen0 & _).
  destruct (collect_spec circles p0 (seq 0 (length circles)) [] (p0, []))
    as ([p G] & Hfold & Hinv).
  { intros i Hi. apply elem_of_seq in Hi. lia. }
  { split; simpl; try done.
    - constructor.
    - intros r. split; [intros Hr; by apply elem_of_nil in Hr|].
      intros (i & Hi & _). by apply elem_of_nil in Hi.
    - intros r g Hel. by apply elem_of_nil in Hel. }
  exists G.*2. split.
  { destruct circles; [done|]. by rewrite Hrun, Hfold. }
  split.
  { pose proof (collect_concat circles _ _ _ Hfold) as Hperm. simpl in Hperm.
    by rewrite omap_lookup_seq in Hperm. }
  destruct Hinv as [_ _ _ _ Hkeys Hgroups]. simpl in *.
  intros g Hg. apply list_elem_of_fmap in Hg as ([r g'] & -> & Hel). simpl.
  rewrite (Hgroups _ _ Hel). split.
  - assert (Hr : r ∈ G.*1) by (apply list_elem_of_fmap; by exists (r, g')).
    apply Hkeys in Hr as (i & Hi & Hroot).
    apply elem_of_seq in Hi.
    destruct (lookup_lt_is_Some_2 circles i ltac:(lia)) as [c Hc].
    assert (Hin : c ∈ members circles p0 (seq 0 (length circles)) r).
    { unfold members. apply list_elem_of_omap. exists i.
      split; [apply elem_of_seq; lia|]. by rewrite decide_True. }
    intros E. rewrite E in Hin. by apply elem_of_nil in Hin.
  - pose proof (omap_sublist
        (fun i => if decide (root_of p0 i = r) then circles !! i else None)
        (fun i => circles !! i) (seq 0 (length circles))) as Hsub.
    rewrite omap_lookup_seq in Hsub. apply Hsub. intros i c. by case_decide.
Qed.

(** X22.  Circles are grouped together only when a chain of pairs that
    pass the test of line 761 joins them: the grouping never puts two
    unrelated circles into one group. *)
Theorem grouped_only_if_chained (circles : list Circle) (a b : Circle) :
  same_group circles a b ->
  exists i j, circles !! i = Some a /\ circles !! j = Some b /\ linked circles i j.
Proof.
  intros (groups & g & Hrun & Hg & Ha & Hb).
  destruct (group_connected_circles_spec circles) as (groups0 & Hrun0 & Hspec).
  rewrite Hrun in Hrun0. injection Hrun0 as <-.
  apply Hspec. by exists g.
Qed.

Lemma grouped_only_if_chained_witness :
  exists i j, [disk_C; disk_D] !! i = Some disk_C /\ [disk_C; disk_D] !! j = Some disk_D
              /\ linked [disk_C; disk_D] i j.
Proof.
  apply (grouped_only_if_chained [disk_C; disk_D] disk_C disk_D).
  apply (touching_same_group [disk_C; disk_D] 0 1 disk_C disk_D).
  - lia.
  - reflexivity.
  - reflexivity.
  - unfold touching. rewrite disk_C_D_distance. apply bool_decide_eq_true_2.
    unfold disk_C, disk_D, CONNECTION_TOLERANCE. simpl. lra.
Defined.

End GroupingMore.

(** * The cache, the demo polygon and the merging of circles of app.py *)

Module AppGeometryFacts.
Import App IsochroneFacts IsochroneMore AppGeometry.

(** *** The cache *)

(** X23.  An answer stored at time [t] is served at time [now] exactly
    while [now - t] is less than 24 hours, and the cache is then left as
    it is; from 24 hours on the lookup answers [None] and drops the entry.
    A lookup never touches the entries of other keys. *)
Theorem cache_serves_for_a_day {Data : Type} (cache : @Cache Data)
    (key : string) (data : Data) (t now : Z) :
  get_cached_isochrone now (cache_isochrone t cache key data) key
  = (if decide (now - t < 24 * 3600 * 1000000)%Z
     then (Some data, cache_isochrone t cache key data)
     else (None, delete key cache))
  /\ forall key', key' <> key ->
       (get_cached_isochrone now cache key).2 !! key' = cache !! key'.
Proof.
  split.
  - unfold get_cached_isochrone, cache_isochrone, Cache in *. rewrite lookup_insert_eq.
    unfold CACHE_DURATION. case_decide; [done|]. by rewrite delete_insert_eq.
  - intros key' Hne. unfold get_cached_isochrone, Cache in *.
    destruct (cache !! key) as [[d ts]|]; [|done].
    case_decide; [done|]. simpl. by rewrite lookup_delete_ne.
Qed.

(** *** The demo polygon *)

Lemma mock_speed_pos (mode : string) : (0 < mock_speed mode)%R.
Proof. unfold mock_speed. repeat case_decide; lra. Qed.

(** X24.  For a mode other than car and bike, away from the poles and for
    a non-negative budget, the demo polygon is a closed ring of nine
    points, all of them exactly [speed * minutes] metres from the centre
    in the planar metric; a mode that is not listed walks at 83 m/min. *)
Theorem mock_isochrone_is_octagon (lat lon : R) (mode : string) (minutes : R) :
  mode <> "car" -> mode <> "bike" ->
  cos (radians lat) <> 0%R -> (0 <= minutes)%R ->
  exists isochrone,
    generate_mock_isochrone lat lon mode minutes = Some isochrone
    /\ f_mode isochrone = mode /\ f_debug_info isochrone = None
    /\ length (f_coordinates isochrone) = 9
    /\ head (f_coordinates isochrone) = last (f_coordinates isochrone)
    /\ (mode <> "walking" -> mock_speed mode = 83%R)
    /\ forall p, p ∈ f_coordinates isochrone ->
         planar_distance lat lat lon p.2 p.1 = (mock_speed mode * minutes)%R.
Proof.
  intros Hcar Hbike Hcos Hm. unfold generate_mock_isochrone.
  set (radius := (mock_speed mode * minutes)%R).
  assert (Hrad : (0 <= radius)%R).
  { unfold radius. pose proof (mock_speed_pos mode). nra. }
  assert (Hpt : forall i,
             planar_distance lat lat lon (mock_point lat lon mode radius i).2
               (mock_point lat lon mode radius i).1 = radius).
  { intros i. unfold mock_point. rewrite !decide_False by done. simpl.
    by apply circle_point_distance. }
  cbn [seq map]. eexists. split; [done|]. cbn [create_geojson_feature f_mode
    f_debug_info f_coordinates].
  split; [done|]. split; [done|]. split; [done|]. split; [done|]. split.
  { intros Hw. unfold mock_speed. by rewrite !decide_False. }
  intros p Hp. cbn [app] in Hp.
  repeat (apply elem_of_cons in Hp as [->|Hp]; [apply Hpt|]).
  by apply elem_of_nil in Hp.
Qed.

Lemma mock_isochrone_is_octagon_witness :
  exists isochrone,
    generate_mock_isochrone 0 0 "walking" 30 = Some isochrone
    /\ f_mode isochrone = "walking" /\ f_debug_info isochrone = None
    /\ length (f_coordinates isochrone) = 9
    /\ head (f_coordinates isochrone) = last (f_coordinates isochrone)
    /\ ("walking" <> "walking" -> mock_speed "walking" = 83%R)
    /\ forall p, p ∈ f_coordinates isochrone ->
         planar_distance 0 0 0 p.2 p.1 = (mock_speed "walking" * 30)%R.
Proof.
  apply (mock_isochrone_is_octagon 0 0 "walking" 30).
  - discriminate.
  - discriminate.
  - unfold radians. rewrite Rmult_0_l, cos_0. lra.
  - lra.
Defined.

(** *** The circles of a run *)

(** The circle [extract_stop_circles] makes of a reached stop, without
    the name of the route. *)
Lemma stop_circles_of_outcomes (os : list (Route * RouteOutcome)) :
  (fun c => (c_center c, c_radius c, c_name c, c_is_initial c))
    <$> (route ← concat (route_debug <$> os);
         (fun stop : StopDebug =>
            mkCircle (sd_lon stop, sd_lat stop) (sd_walk_radius_meters stop)
              (sd_name stop) (Some (rd_name route)) false)
           <$> rd_stops_reached route)
  = (fun r => ((stop_lon (r_stop r), stop_lat (r_stop r)),
               py_round (r_walk_radius r) 0, stop_name (r_stop r), false))
      <$> concat (route_reached <$> os).
Proof.
  induction os as [|[route o] os IH]; [done|].
  rewrite !fmap_cons. cbn [concat]. rewrite bind_app, !fmap_app. f_equal; [|apply IH].
  unfold route_debug, route_reached. simpl. destruct o as [|closest w reached]; [done|].
  simpl. rewrite app_nil_r. rewrite <- !list_fmap_compose. done.
Qed.

(** X25.  Applied to the debug information of a run,
    [extract_stop_circles] returns the circle of the origin (left out when
    the budget is 0) followed by one circle for each stop reached, in
    order: centred on the stop, named after it, and with the rounded
    walking radius, which is never negative. *)
Theorem stop_circles_of_a_run (routes : list (string * Route)) (lat lon minutes : R) :
  exists run debug_info reached,
    transit_run routes lat lon minutes = Some run
    /\ f_debug_info (run_feature run) = Some debug_info
    /\ reachable_stops routes lat lon minutes = Some reached
    /\ (fun c => (c_center c, c_radius c, c_name c, c_is_initial c))
         <$> extract_stop_circles debug_info lat lon
       = (if decide (minutes = 0%R) then []
          else [((lon, lat), (minutes * 0.70 * 80)%R, "Zona inicial (trabajo)", true)])
         ++ ((fun r => ((stop_lon (r_stop r), stop_lat (r_stop r)),
                        py_round (r_walk_radius r) 0, stop_name (r_stop r), false))
               <$> reached)
    /\ forall c, c ∈ extract_stop_circles debug_info lat lon ->
         c_is_initial c = false -> (0 <= c_radius c)%R.
Proof.
  destruct (transit_run_total routes lat lon minutes)
    as (run & ring & Hrun & _ & _ & Hdebug).
  destruct (process_routes_total lat lon minutes routes) as [os Hos].
  rewrite Hos in Hdebug. simpl in Hdebug.
  eexists run, _, (concat (route_reached <$> os)).
  split; [done|]. split; [exact Hdebug|].
  split; [unfold reachable_stops; by rewrite Hos|].
  assert (Hshape :
    (fun c => (c_center c, c_radius c, c_name c, c_is_initial c))
      <$> extract_stop_circles
            (mkDebugInfo (MAX_WALK_TO_STATION minutes) (MAX_WALK_DISTANCE minutes)
               minutes WALK_SPEED SUBTE_SPEED (concat (route_debug <$> os))) lat lon
    = (if decide (minutes = 0%R) then []
       else [((lon, lat), (minutes * 0.70 * 80)%R, "Zona inicial (trabajo)", true)])
      ++ ((fun r => ((stop_lon (r_stop r), stop_lat (r_stop r)),
                     py_round (r_walk_radius r) 0, stop_name (r_stop r), false))
            <$> concat (route_reached <$> os))).
  { unfold extract_stop_circles. cbn [di_max_walk_distance di_routes_used].
    rewrite fmap_app, stop_circles_of_outcomes. f_equal.
    unfold MAX_WALK_DISTANCE, MAX_WALK_TO_STATION, WALK_SPEED.
    destruct (decide (minutes = 0%R)) as [->|Hne].
    - rewrite decide_True by lra. done.
    - rewrite decide_False by lra. done. }
  split; [exact Hshape|].
  intros c Hc Hinit.
  assert (Hin : (c_center c, c_radius c, c_name c, c_is_initial c)
                ∈ (fun c => (c_center c, c_radius c, c_name c, c_is_initial c))
                    <$> extract_stop_circles
                          (mkDebugInfo (MAX_WALK_TO_STATION minutes)
                             (MAX_WALK_DISTANCE minutes) minutes WALK_SPEED SUBTE_SPEED
                             (concat (route_debug <$> os))) lat lon).
  { apply list_elem_of_fmap. by exists c. }
  rewrite Hshape in Hin. apply elem_of_app in Hin as [Hin|Hin].
  - case_decide; [by apply elem_of_nil in Hin|].
    apply list_elem_of_singleton in Hin. injection Hin as _ _ _ Hi. congruence.
  - apply list_elem_of_fmap in Hin as (r & Heq & Hr). injection Heq as _ -> _ _.
    apply py_round_nonneg.
    assert (Hemit : Forall (emitted_ok minutes) (concat (route_reached <$> os))).
    { apply (reachable_stops_emits routes lat lon minutes).
      unfold reachable_stops. by rewrite Hos. }
    rewrite Forall_forall in Hemit. destruct (Hemit r Hr) as (_ & _ & Hpos & ->).
    unfold WALK_SPEED. lra.
Qed.

(** *** The envelope of all circles *)

Lemma envelope_step_keeps (avg_lat avg_lon angle : R) (circles : list Circle)
    (d : R) (p : Point) :
  is_Some (fold_left (envelope_step avg_lat avg_lon angle) circles (d, Some p)).2.
Proof.
  revert d p. induction circles as [|c cs IH]; intros d p; simpl; [by eexists|].
  case_decide; apply IH.
Qed.

Lemma envelope_point_some (circles : list Circle) (avg_lat avg_lon : R) (i : nat) :
  circles <> [] -> is_Some (envelope_point circles avg_lat avg_lon i).
Proof.
  destruct circles as [|c cs]; [done|]. intros _. unfold envelope_point.
  cbn [fold_left]. unfold envelope_step at 2. cbv zeta.
  rewrite decide_True; [apply envelope_step_keeps|].
  match goal with |- (-1 < sqrt ?x)%R => pose proof (sqrt_pos x) end. lra.
Qed.

Lemma omap_total_length {A B} (f : A -> option B) (l : list A) :
  (forall x, x ∈ l -> is_Some (f x)) -> length (omap f l) = length l.
Proof.
  induction l as [|x l IH]; intros H; simpl; [done|].
  destruct (H x) as [y Hy]; [left|]. rewrite Hy. simpl. f_equal.
  apply IH. intros z Hz. apply H. by right.
Qed.

Lemma omap_length_le {A B} (f : A -> option B) (l : list A) :
  length (omap f l) <= length l.
Proof.
  induction l as [|x l IH]; csimpl; [done|]. destruct (f x); csimpl; lia.
Qed.

Lemma smooth_at_some (hull_points : list Point) (i : nat) :
  i < length hull_points -> is_Some (smooth_at hull_points i).
Proof.
  intros Hi. unfold smooth_at. cbv zeta. unfold Point in *.
  set (n := Z.of_nat (length hull_points)).
  assert (Hn : (0 < n)%Z) by (unfold n; lia).
  pose proof (Z.mod_pos_bound (Z.of_nat i - 1) n Hn) as Hp.
  pose proof (Z.mod_pos_bound (Z.of_nat i + 1) n Hn) as Hq.
  destruct (hull_points !! Z.to_nat ((Z.of_nat i - 1) mod n)) as [p|] eqn:E1.
  2:{ apply lookup_ge_None in E1. unfold n in *. lia. }
  destruct (hull_points !! i) as [c|] eqn:E2.
  2:{ apply lookup_ge_None in E2. lia. }
  destruct (hull_points !! Z.to_nat ((Z.of_nat i + 1) mod n)) as [q|] eqn:E3.
  2:{ apply lookup_ge_None in E3. unfold n in *. lia. }
  by eexists.
Qed.

(** X26.  [create_all_circles_geometry] does not fail: it answers the
    empty list for no circle, and otherwise a closed ring of 73 points,
    one for each of the 72 directions and the first one again. *)
Theorem all_circles_envelope_is_a_ring (circles : list Circle) :
  exists ring,
    create_all_circles_geometry circles = Some ring
    /\ (circles = [] -> ring = [])
    /\ (circles <> [] -> length ring = 73 /\ head ring = last ring).
Proof.
  destruct circles as [|c cs].
  { exists []. done. }
  unfold create_all_circles_geometry. cbv beta iota.
  set (circles := c :: cs). assert (Hne : circles <> []) by done.
  set (avg_lon := (py_sum _ / _)%R). set (avg_lat := (py_sum _ / _)%R).
  set (hull_points := omap _ (seq 0 72)).
  assert (Hlen : length hull_points = 72).
  { unfold hull_points. rewrite omap_total_length; [by rewrite length_seq|].
    intros i _. by apply envelope_point_some. }
  destruct (mapM (smooth_at hull_points) (seq 0 (length hull_points)))
    as [smoothed|] eqn:Hs.
  2:{ exfalso. apply mapM_None in Hs. apply Exists_exists in Hs as (i & Hi & Hnone).
      apply elem_of_seq in Hi. destruct (smooth_at_some hull_points i) as [y Hy]; [lia|].
      congruence. }
  apply length_mapM in Hs. rewrite length_seq, Hlen in Hs.
  destruct smoothed as [|first rest]; [done|].
  eexists. split; [done|]. split; [by intros ->|]. intros _. split.
  - rewrite length_app. cbn [length] in Hs |- *. lia.
  - by rewrite last_snoc.
Qed.

(** *** The hull of a group and the grouped geometry *)

Lemma insert_by_perm (key : Point -> R) (p : Point) (l : list Point) :
  insert_by key p l ≡ₚ p :: l.
Proof.
  induction l as [|q l IH]; simpl; [done|].
  case_decide; [done|]. rewrite IH. apply perm_swap.
Qed.

Lemma sort_by_perm (key : Point -> R) (l : list Point) : sort_by key l ≡ₚ l.
Proof.
  induction l as [|p l IH]; simpl; [done|].
  unfold sort_by in *. simpl. by rewrite insert_by_perm, IH.
Qed.

Lemma insert_by_sorted (key : Point -> R) (p : Point) (l : list Point) :
  Sorted (fun a b => (key a <= key b)%R) l ->
  Sorted (fun a b => (key a <= key b)%R) (insert_by key p l).
Proof.
  induction l as [|q l IH]; simpl; intros Hs.
  { repeat constructor. }
  case_decide as Hle.
  - constructor; [done|]. by constructor.
  - apply Sorted_inv in Hs as [Hs Hhd]. constructor; [by apply IH|].
    destruct l as [|z l]; simpl.
    + constructor. lra.
    + case_decide; constructor; [lra|]. by inversion Hhd.
Qed.

Lemma sort_by_sorted (key : Point -> R) (l : list Point) :
  Sorted (fun a b => (key a <= key b)%R) (sort_by key l).
Proof.
  induction l as [|p l IH]; [constructor|].
  unfold sort_by in *. simpl. by apply insert_by_sorted.
Qed.

Lemma hull_step_from (avg_lat avg_lon angle : R) (all_points : list Point)
    (state : R * option Point) (p : Point) :
  (fold_left (hull_step avg_lat avg_lon angle) all_points state).2 = Some p ->
  state.2 = Some p \/ p ∈ all_points.
Proof.
  revert state. induction all_points as [|q l IH]; intros [d f]; simpl; [by left|].
  intros H. apply IH in H as [H|H]; [|right; by right].
  case_decide; simpl in H; [|by left]. injection H as <-. right. left.
Qed.

(** X27.  The hull of a group is made of points sampled on the circles of
    the group: [create_group_hull] never invents a point.  It returns at
    most 36 of them, and a copy of the first to close the ring. *)
Theorem group_hull_from_samples (circles : list Circle) :
  (forall p, p ∈ create_group_hull circles -> p ∈ group_samples circles)
  /\ (3 <= length (group_samples circles) ->
      length (create_group_hull circles) <= 37
      /\ head (create_group_hull circles) = last (create_group_hull circles)).
Proof.
  unfold create_group_hull. cbv zeta.
  set (all_points := group_samples circles).
  case_decide as Hfew; [split; [done|lia]|].
  match goal with
  | |- context [sort_by ?k ?h] => set (key := k); set (hull_points := h)
  end.
  pose proof (sort_by_perm key hull_points) as Hperm.
  assert (Hsub : forall p, p ∈ hull_points -> p ∈ all_points).
  { intros p Hp. unfold hull_points in Hp.
    apply list_elem_of_omap in Hp as (i & _ & Hi). unfold hull_point in Hi.
    apply hull_step_from in Hi as [Hi|Hi]; [done|done]. }
  assert (Hlen : length hull_points <= 36).
  { unfold hull_points. etrans; [apply omap_length_le|]. by rewrite length_seq. }
  destruct (sort_by key hull_points) as [|first rest] eqn:Hsorted.
  { split; [|intros _; split; [simpl; lia|done]].
    intros p Hp. by apply elem_of_nil in Hp. }
  split.
  - intros p Hp. apply Hsub. rewrite <- Hperm.
    change (p ∈ (first :: rest) ++ [first]) in Hp.
    apply elem_of_app in Hp as [Hp|Hp]; [done|].
    apply list_elem_of_singleton in Hp as ->. left.
  - intros _. split.
    + rewrite length_app, (Permutation_length Hperm). simpl. lia.
    + by rewrite last_snoc.
Qed.

(** X28.  [create_grouped_geometry] does not fail, and uses only points
    that its groups contribute.  With fewer than three points it returns
    them as they are; otherwise it returns all of them, ordered by their
    angle around the centre, and the first one again to close the ring. *)
Theorem grouped_geometry_is_sorted_ring (groups : list (list Circle))
    (center_lat center_lon : R) :
  exists ring,
    create_grouped_geometry groups center_lat center_lon = Some ring
    /\ (forall p, p ∈ ring -> exists group, group ∈ groups /\ p ∈ group_points group)
    /\ (length (group ← groups; group_points group) < 3 ->
        ring = (group ← groups; group_points group))
    /\ (3 <= length (group ← groups; group_points group) ->
        exists body first,
          ring = body ++ [first] /\ head body = Some first
          /\ body ≡ₚ (group ← groups; group_points group)
          /\ Sorted (fun a b =>
                       (atan2 (a.2 - center_lat) (a.1 - center_lon)
                        <= atan2 (b.2 - center_lat) (b.1 - center_lon))%R) body).
Proof.
  unfold create_grouped_geometry.
  set (all_points := group ← groups; group_points group).
  assert (Hfrom : forall p, p ∈ all_points ->
                    exists group, group ∈ groups /\ p ∈ group_points group).
  { intros p Hp. apply list_elem_of_bind in Hp as (g & Hp & Hg). by exists g. }
  case_decide as Hfew.
  { exists all_points. split; [done|]. split; [done|]. split; [done|lia]. }
  set (key := fun point : Point =>
                atan2 (point.2 - center_lat)%R (point.1 - center_lon)%R).
  pose proof (sort_by_perm key all_points) as Hperm.
  pose proof (sort_by_sorted key all_points) as Hsorted.
  destruct (sort_by key all_points) as [|first rest] eqn:Hs.
  { exfalso. apply Permutation_length in Hperm. simpl in Hperm. lia. }
  eexists. split; [done|]. split; [|split; [lia|]].
  - intros p Hp. apply Hfrom. rewrite <- Hperm.
    change (p ∈ (first :: rest) ++ [first]) in Hp.
    apply elem_of_app in Hp as [Hp|Hp]; [done|].
    apply list_elem_of_singleton in Hp as ->. left.
  - intros _. exists (first :: rest), first. done.
Qed.

End AppGeometryFacts.
